(** * Smart Emergency Traffic Management dashboard: the simulation core of
    [script.js], embedded in Rocq.

    JavaScript numbers are IEEE 754 binary64 values; they are modelled by the
    kernel's primitive [float], whose [+ - * /] and comparisons are the
    binary64 ones (round to nearest even, one NaN).  The functions of the host's
    [Math] object and the [**] operator are not part of the script: they are
    taken as a parameter ([HostMath]).  The DOM and the Leaflet map are
    modelled by the few fields of [Panel] and [Sim] that the script writes. *)

From Stdlib Require Import ZArith Floats.
From stdpp Require Import base tactics option list sorting strings gmap.

Set Warnings "-inexact-float".
Local Open Scope string_scope.

(** ** Numbers *)

Definition number := float.

(** The functions the script calls on the host: [Math.sin], [Math.cos],
    [Math.atan2], [Math.sqrt], and exponentiation [x ** y]. *)
Record HostMath := {
  sin : number → number;
  cos : number → number;
  atan2 : number → number → number;
  sqrt : number → number;
  pow : number → number → number
}.

(** [Math.PI], the binary64 value nearest to pi. *)
Definition PI : number := 3.141592653589793%float.

(** A latitude/longitude pair, [[lat, lng]] in the script. *)
Definition LatLng : Type := number * number.

Section Geometry.
Variable M : HostMath.
Local Open Scope float_scope.

Definition toRad (deg : number) : number := deg * PI / 180.

(** Haversine distance (km). *)
Definition distanceKm (a b : LatLng) : number :=
  let R := 6371 in
  let dLat := toRad (b.1 - a.1) in
  let dLon := toRad (b.2 - a.2) in
  let lat1 := toRad a.1 in
  let lat2 := toRad b.1 in
  let x := pow M (sin M (dLat / 2)) 2 +
           cos M lat1 * cos M lat2 * pow M (sin M (dLon / 2)) 2 in
  let c := 2 * atan2 M (sqrt M x) (sqrt M (1 - x)) in
  R * c.

(** The loop of [polylineDistanceKm]: [total] accumulates the consecutive
    distances from left to right. *)
Fixpoint polylineLoop (total : number) (coords : list LatLng) : number :=
  match coords with
  | a :: rest =>
      match rest with
      | b :: _ => polylineLoop (total + distanceKm a b) rest
      | [] => total
      end
  | [] => total
  end.

Definition polylineDistanceKm (coords : list LatLng) : number :=
  polylineLoop 0 coords.

Definition interpolatePoint (a b : LatLng) (t : number) : LatLng :=
  (a.1 + (b.1 - a.1) * t, a.2 + (b.2 - a.2) * t).
End Geometry.

(** What the development assumes of the host's [Math] functions where a
    property of [distanceKm] depends on them: [Math.sin] is odd, squaring
    ignores the sign, [Math.cos] of a finite number lies in [-1, 1], and the
    values at zero and one are the exact ones ECMAScript prescribes. *)
Record HostMathLaws (M : HostMath) : Prop := {
  sin_odd : ∀ x, sin M (- x)%float = (- sin M x)%float;
  sin_zero : sin M 0%float = 0%float;
  pow_even : ∀ x, pow M (- x)%float 2%float = pow M x 2%float;
  pow_zero : pow M 0%float 2%float = 0%float;
  cos_range : ∀ x, is_finite x = true → (abs (cos M x) <=? 1)%float = true;
  sqrt_zero : sqrt M 0%float = 0%float;
  sqrt_one : sqrt M 1%float = 1%float;
  atan2_zero : atan2 M 0%float 1%float = 0%float
}.

(** A latitude in [-90, 90] and a longitude in [-180, 180]. *)
Definition validCoordinate (a : LatLng) : Prop :=
  (abs a.1 <=? 90)%float = true ∧ (abs a.2 <=? 180)%float = true.

(** ** Traffic signals *)

Definition CITY_CENTER : LatLng := (10.9601, 78.0766)%float.

(** [SIGNAL_STATE] *)
Inductive SignalState := NORMAL | OVERRIDE.

Definition SignalState_text (s : SignalState) : string :=
  match s with
  | NORMAL => "Normal Traffic Mode"
  | OVERRIDE => "Green for Ambulance (Override)"
  end.

Module Signal.
(** One element of [signalRuntime] ([marker] is kept as the mode its icon
    shows). [nearestIndex] and [lastDistance] are [null] or a number. *)
Record t := mk {
  id : string;
  location : LatLng;
  marker : SignalState;
  state : SignalState;
  nearestIndex : option nat;
  minDistance : number;
  lastDistance : option number;
  advanceTriggered : bool;
  overrideActive : bool;
  passed : bool
}.
End Signal.

Definition SIGNAL_DEFS : list (string * LatLng) :=
  [ ("S1", (10.9558, 78.0748)%float);
    ("S2", (10.9639, 78.0795)%float);
    ("S3", (10.9696, 78.0856)%float) ].

(** The runtime state every signal starts a drive with. *)
Definition initialSignal (d : string * LatLng) : Signal.t :=
  Signal.mk d.1 d.2 NORMAL NORMAL None infinity None false false false.

(** ** Routes *)

Inductive RouteId := fastest | alternative | shortest.

Module Route.
Record t := mk {
  id : RouteId;
  name : string;
  tag : string;
  baseTraffic : string;
  coords : list LatLng
}.
End Route.

Definition ROUTES (r : RouteId) : Route.t :=
  match r with
  | fastest =>
      Route.mk fastest "Fastest Route" "Recommended – Low Traffic" "Low"
        [ (10.9488, 78.0690); (10.9526, 78.0718); (10.9562, 78.0742);
          (10.9591, 78.0762); (10.9622, 78.0783); (10.9652, 78.0810);
          (10.9680, 78.0840); (10.9712, 78.0873) ]%float
  | alternative =>
      Route.mk alternative "Alternative Route" "Medium Traffic" "Medium"
        [ (10.9488, 78.0690); (10.9504, 78.0750); (10.9536, 78.0812);
          (10.9578, 78.0860); (10.9630, 78.0892); (10.9686, 78.0903);
          (10.9712, 78.0873) ]%float
  | shortest =>
      Route.mk shortest "Shortest Distance Route" "High Traffic" "High"
        [ (10.9488, 78.0690); (10.9548, 78.0736); (10.9606, 78.0780);
          (10.9662, 78.0827); (10.9712, 78.0873) ]%float
  end.

(** ** Traffic prediction (rule based) *)

(** What a property read or an addition can yield in [predictTrafficLevel]: a
    number, a function or object inherited from [Object.prototype], or the
    text that [number + object] concatenates. *)
Inductive jsval :=
| Num (n : number)
| Member
| Text.

(** The own properties of the object literal [{guindy: 1, ...}]. *)
Definition biasTable : gmap string number :=
  {[ "guindy" := 1%float; "tnagar" := 2%float;
     "egmore" := 2%float; "central" := 3%float ]}.

(** The property names an object literal inherits from [Object.prototype]. *)
Definition objectPrototypeKeys : list string :=
  [ "constructor"; "hasOwnProperty"; "isPrototypeOf"; "propertyIsEnumerable";
    "toLocaleString"; "toString"; "valueOf"; "__proto__";
    "__defineGetter__"; "__defineSetter__";
    "__lookupGetter__"; "__lookupSetter__" ].

(** [obj[key]]: [None] is [undefined]. *)
Definition getProperty (obj : gmap string number) (key : string) : option jsval :=
  match obj !! key with
  | Some n => Some (Num n)
  | None => if bool_decide (key ∈ objectPrototypeKeys) then Some Member else None
  end.

(** [n + v]: numeric addition, or concatenation when [v] is not a number. *)
Definition jsAdd (n : number) (v : jsval) : jsval :=
  match v with
  | Num b => Num (n + b)%float
  | Member | Text => Text
  end.

(** [v >= n]: a text that is no numeral converts to NaN, so the test fails. *)
Definition jsGe (v : jsval) (n : number) : bool :=
  match v with
  | Num x => (n <=? x)%float
  | Member | Text => false
  end.

(** [hour] is [new Date().getHours()]. *)
Definition predictTrafficLevel (accidentKey : string) (hour : Z) : string :=
  let peak := ((8 <=? hour) && (hour <=? 10) || (17 <=? hour) && (hour <=? 19))%Z in
  let bias := default (Num 1%float) (getProperty biasTable accidentKey) in
  let score := jsAdd (if peak then 2 else 0)%float bias in
  if jsGe score 4%float then "High"
  else if jsGe score 3%float then "Medium"
  else "Low".

(** The rule as the specification words it, over the integers. *)
Definition isPeakHour (hour : Z) : bool :=
  ((8 <=? hour) && (hour <=? 10) || (17 <=? hour) && (hour <=? 19))%Z.

Definition biasWeight (key : string) : Z :=
  if String.eqb key "guindy" then 1
  else if String.eqb key "tnagar" then 2
  else if String.eqb key "egmore" then 2
  else if String.eqb key "central" then 3
  else 1.

Definition trafficScore (key : string) (hour : Z) : Z :=
  ((if isPeakHour hour then 2 else 0) + biasWeight key)%Z.

Definition levelOfScore (score : Z) : string :=
  if (4 <=? score)%Z then "High"
  else if (3 <=? score)%Z then "Medium"
  else "Low".

(** ** Route suggestion *)

Definition estimatedTimeMinutes (distance : number) (trafficLevel : string) : number :=
  let baseSpeed := 35%float in
  let baseMinutes := (distance / baseSpeed * 60)%float in
  let mult :=
    if String.eqb trafficLevel "Low" then 1.0%float
    else if String.eqb trafficLevel "Medium" then 1.25%float
    else 1.55%float in
  (baseMinutes * mult)%float.

(** [Array.prototype.sort] is stable, and for a consistent comparator its
    result is the one stable ordering; it is modelled by stable insertion.
    [after a b] says that the comparator is positive on [(a, b)]. *)
Section Sort.
Context {A : Type} (after : A → A → bool).

Fixpoint insertSorted (x : A) (l : list A) : list A :=
  match l with
  | [] => [x]
  | y :: l' => if after x y then y :: insertSorted x l' else x :: l
  end.

Definition sort (l : list A) : list A := foldr insertSorted [] l.
End Sort.

Module Card.
(** [{ ...r, distance, traffic, timeMin }] *)
Record t := mk {
  route : Route.t;
  distance : number;
  traffic : string;
  timeMin : number
}.
Definition id (c : t) : RouteId := Route.id (route c).
End Card.

Definition adjust (predictedTraffic base : string) : string :=
  if String.eqb predictedTraffic "High" && String.eqb base "Low" then "Medium"
  else if String.eqb predictedTraffic "High" && String.eqb base "Medium" then "High"
  else if String.eqb predictedTraffic "Low" && String.eqb base "High" then "Medium"
  else base.

Definition tRank (x : string) : number :=
  if String.eqb x "Low" then 1%float
  else if String.eqb x "Medium" then 2%float
  else 3%float.

(** The comparator given to [routeList.sort]. *)
Definition compareCards (a b : Card.t) : number :=
  let diff := (tRank (Card.traffic a) - tRank (Card.traffic b))%float in
  if negb (diff =? 0)%float then diff
  else (Card.timeMin a - Card.timeMin b)%float.

Definition cardAfter (a b : Card.t) : bool := (0 <? compareCards a b)%float.

Section RouteList.
Variable M : HostMath.

Definition makeCard (predictedTraffic : string) (r : Route.t) : Card.t :=
  let distance := polylineDistanceKm M (Route.coords r) in
  let traffic := adjust predictedTraffic (Route.baseTraffic r) in
  let timeMin := estimatedTimeMinutes distance traffic in
  Card.mk r distance traffic timeMin.

(** [routeList] before sorting. *)
Definition routeCards (predictedTraffic : string) : list Card.t :=
  makeCard predictedTraffic <$> [ROUTES fastest; ROUTES alternative; ROUTES shortest].

(** [routeList] after [routeList.sort(...)]. *)
Definition routeList (predictedTraffic : string) : list Card.t :=
  sort cardAfter (routeCards predictedTraffic).
End RouteList.

(** ** The dashboard state *)

(** The messages given to [logEvent]. *)
Inductive LogEvent :=
| LogDetection (id : string)
| LogOverrideOn (id : string)
| LogCrossed (id : string)
| LogDriveStarted
| LogSelectedRoute (name : string)
| LogSystemReset.

Definition logMessage (e : LogEvent) : string :=
  match e with
  | LogDetection id => id +:+ ": 3 km detection triggered. Preparing signal override."
  | LogOverrideOn id => id +:+ ": Signal override ON (Green for Ambulance)."
  | LogCrossed id => id +:+ ": Ambulance crossed signal. Override OFF, normal resumed."
  | LogDriveStarted => "Emergency drive started."
  | LogSelectedRoute name => "Selected route: " +:+ name
  | LogSystemReset => "System reset. Ready."
  end.

(** The text given to [alert]; [dq] is the double-quote character. *)
Definition dq : string := String (Ascii.ascii_of_nat 34) EmptyString.

Definition PROMPT : string :=
  "First click " +:+ dq +:+ "Suggest Low Traffic Route" +:+ dq +:+ " and select a route.".

Module Polyline.
(** [selectedRouteLine]: the drawn coordinates, and whether it has the
    green (highlighted) style. *)
Record t := mk { latlngs : list LatLng; highlighted : bool }.
End Polyline.

(** The elements of the page the script writes to. [signalId] is [None] when
    the page shows a dash; [distanceToSignal] shows a dash for NaN. *)
Record Panel := mkPanel {
  signalId : option string;
  signalMode : SignalState;
  advanceDetection : bool;
  distanceToSignal : number;
  autoControl : bool;
  eventLog : list LogEvent;
  predictedTraffic : option string;
  routes : list Card.t;
  startDriveBtn_disabled : bool;
  alerts : list string
}.

(** The script's global variables, the ambulance marker's position and the
    page. [driveTimer] is [true] while an interval is registered. *)
Record Sim := mkSim {
  signalRuntime : list Signal.t;
  currentSignalState : SignalState;
  selectedRouteId : option RouteId;
  selectedRouteLine : option Polyline.t;
  emergencyMode : bool;
  isDriving : bool;
  driveTimer : bool;
  currentIndex : nat;
  segmentProgress : number;
  ambulanceMarker : LatLng;
  panel : Panel
}.

(** *** Field updates *)

Definition withSignalId v (p : Panel) : Panel :=
  mkPanel v (signalMode p) (advanceDetection p) (distanceToSignal p) (autoControl p)
    (eventLog p) (predictedTraffic p) (routes p) (startDriveBtn_disabled p) (alerts p).
Definition withSignalMode v (p : Panel) : Panel :=
  mkPanel (signalId p) v (advanceDetection p) (distanceToSignal p) (autoControl p)
    (eventLog p) (predictedTraffic p) (routes p) (startDriveBtn_disabled p) (alerts p).
Definition withAdvanceDetection v (p : Panel) : Panel :=
  mkPanel (signalId p) (signalMode p) v (distanceToSignal p) (autoControl p)
    (eventLog p) (predictedTraffic p) (routes p) (startDriveBtn_disabled p) (alerts p).
Definition withDistanceToSignal v (p : Panel) : Panel :=
  mkPanel (signalId p) (signalMode p) (advanceDetection p) v (autoControl p)
    (eventLog p) (predictedTraffic p) (routes p) (startDriveBtn_disabled p) (alerts p).
Definition withAutoControl v (p : Panel) : Panel :=
  mkPanel (signalId p) (signalMode p) (advanceDetection p) (distanceToSignal p) v
    (eventLog p) (predictedTraffic p) (routes p) (startDriveBtn_disabled p) (alerts p).
Definition withEventLog v (p : Panel) : Panel :=
  mkPanel (signalId p) (signalMode p) (advanceDetection p) (distanceToSignal p)
    (autoControl p) v (predictedTraffic p) (routes p) (startDriveBtn_disabled p) (alerts p).
Definition withPredictedTraffic v (p : Panel) : Panel :=
  mkPanel (signalId p) (signalMode p) (advanceDetection p) (distanceToSignal p)
    (autoControl p) (eventLog p) v (routes p) (startDriveBtn_disabled p) (alerts p).
Definition withRoutes v (p : Panel) : Panel :=
  mkPanel (signalId p) (signalMode p) (advanceDetection p) (distanceToSignal p)
    (autoControl p) (eventLog p) (predictedTraffic p) v (startDriveBtn_disabled p) (alerts p).
Definition withStartDisabled v (p : Panel) : Panel :=
  mkPanel (signalId p) (signalMode p) (advanceDetection p) (distanceToSignal p)
    (autoControl p) (eventLog p) (predictedTraffic p) (routes p) v (alerts p).
Definition withAlerts v (p : Panel) : Panel :=
  mkPanel (signalId p) (signalMode p) (advanceDetection p) (distanceToSignal p)
    (autoControl p) (eventLog p) (predictedTraffic p) (routes p) (startDriveBtn_disabled p) v.

Definition withSignalRuntime v (st : Sim) : Sim :=
  mkSim v (currentSignalState st) (selectedRouteId st) (selectedRouteLine st)
    (emergencyMode st) (isDriving st) (driveTimer st) (currentIndex st)
    (segmentProgress st) (ambulanceMarker st) (panel st).
Definition withCurrentSignalState v (st : Sim) : Sim :=
  mkSim (signalRuntime st) v (selectedRouteId st) (selectedRouteLine st)
    (emergencyMode st) (isDriving st) (driveTimer st) (currentIndex st)
    (segmentProgress st) (ambulanceMarker st) (panel st).
Definition withSelectedRouteId v (st : Sim) : Sim :=
  mkSim (signalRuntime st) (currentSignalState st) v (selectedRouteLine st)
    (emergencyMode st) (isDriving st) (driveTimer st) (currentIndex st)
    (segmentProgress st) (ambulanceMarker st) (panel st).
Definition withSelectedRouteLine v (st : Sim) : Sim :=
  mkSim (signalRuntime st) (currentSignalState st) (selectedRouteId st) v
    (emergencyMode st) (isDriving st) (driveTimer st) (currentIndex st)
    (segmentProgress st) (ambulanceMarker st) (panel st).
Definition withEmergencyMode v (st : Sim) : Sim :=
  mkSim (signalRuntime st) (currentSignalState st) (selectedRouteId st)
    (selectedRouteLine st) v (isDriving st) (driveTimer st) (currentIndex st)
    (segmentProgress st) (ambulanceMarker st) (panel st).
Definition withIsDriving v (st : Sim) : Sim :=
  mkSim (signalRuntime st) (currentSignalState st) (selectedRouteId st)
    (selectedRouteLine st) (emergencyMode st) v (driveTimer st) (currentIndex st)
    (segmentProgress st) (ambulanceMarker st) (panel st).
Definition withDriveTimer v (st : Sim) : Sim :=
  mkSim (signalRuntime st) (currentSignalState st) (selectedRouteId st)
    (selectedRouteLine st) (emergencyMode st) (isDriving st) v (currentIndex st)
    (segmentProgress st) (ambulanceMarker st) (panel st).
Definition withCurrentIndex v (st : Sim) : Sim :=
  mkSim (signalRuntime st) (currentSignalState st) (selectedRouteId st)
    (selectedRouteLine st) (emergencyMode st) (isDriving st) (driveTimer st) v
    (segmentProgress st) (ambulanceMarker st) (panel st).
Definition withSegmentProgress v (st : Sim) : Sim :=
  mkSim (signalRuntime st) (currentSignalState st) (selectedRouteId st)
    (selectedRouteLine st) (emergencyMode st) (isDriving st) (driveTimer st)
    (currentIndex st) v (ambulanceMarker st) (panel st).
Definition withAmbulanceMarker v (st : Sim) : Sim :=
  mkSim (signalRuntime st) (currentSignalState st) (selectedRouteId st)
    (selectedRouteLine st) (emergencyMode st) (isDriving st) (driveTimer st)
    (currentIndex st) (segmentProgress st) v (panel st).
Definition withPanel (f : Panel → Panel) (st : Sim) : Sim :=
  mkSim (signalRuntime st) (currentSignalState st) (selectedRouteId st)
    (selectedRouteLine st) (emergencyMode st) (isDriving st) (driveTimer st)
    (currentIndex st) (segmentProgress st) (ambulanceMarker st) (f (panel st)).

(** A signal object is shared between [signalRuntime] and the handlers that
    receive it: a reference to it is its position in [signalRuntime], and a
    write through the reference is [alter] at that position. *)
Definition updSignal (i : nat) (f : Signal.t → Signal.t) (st : Sim) : Sim :=
  withSignalRuntime (alter f i (signalRuntime st)) st.

Module SignalSet.
Import Signal.
Definition state v (s : t) : t :=
  mk (id s) (location s) (marker s) v (nearestIndex s) (minDistance s)
    (lastDistance s) (advanceTriggered s) (overrideActive s) (passed s).
Definition marker v (s : t) : t :=
  mk (id s) (location s) v (Signal.state s) (nearestIndex s) (minDistance s)
    (lastDistance s) (advanceTriggered s) (overrideActive s) (passed s).
Definition nearestIndex v (s : t) : t :=
  mk (id s) (location s) (Signal.marker s) (Signal.state s) v (minDistance s)
    (lastDistance s) (advanceTriggered s) (overrideActive s) (passed s).
Definition minDistance v (s : t) : t :=
  mk (id s) (location s) (Signal.marker s) (Signal.state s) (Signal.nearestIndex s) v
    (lastDistance s) (advanceTriggered s) (overrideActive s) (passed s).
Definition lastDistance v (s : t) : t :=
  mk (id s) (location s) (Signal.marker s) (Signal.state s) (Signal.nearestIndex s)
    (Signal.minDistance s) v (advanceTriggered s) (overrideActive s) (passed s).
Definition advanceTriggered v (s : t) : t :=
  mk (id s) (location s) (Signal.marker s) (Signal.state s) (Signal.nearestIndex s)
    (Signal.minDistance s) (Signal.lastDistance s) v (overrideActive s) (passed s).
Definition overrideActive v (s : t) : t :=
  mk (id s) (location s) (Signal.marker s) (Signal.state s) (Signal.nearestIndex s)
    (Signal.minDistance s) (Signal.lastDistance s) (Signal.advanceTriggered s) v (passed s).
Definition passed v (s : t) : t :=
  mk (id s) (location s) (Signal.marker s) (Signal.state s) (Signal.nearestIndex s)
    (Signal.minDistance s) (Signal.lastDistance s) (Signal.advanceTriggered s)
    (Signal.overrideActive s) v.
End SignalSet.

(** ** Page and map helpers *)

Definition setSignalStateFor (i : nat) (state : SignalState) (st : Sim) : Sim :=
  match signalRuntime st !! i with
  | None => st
  | Some signal =>
      let st := updSignal i (SignalSet.state state) st in
      let st := withCurrentSignalState state st in
      let st := withPanel (withSignalId (Some (Signal.id signal))) st in
      let st := withPanel (withSignalMode state) st in
      updSignal i (SignalSet.marker state) st
  end.

Definition resetSignal (s : Signal.t) : Signal.t :=
  let s := SignalSet.state NORMAL s in
  let s := SignalSet.marker NORMAL s in
  let s := SignalSet.advanceTriggered false s in
  let s := SignalSet.overrideActive false s in
  let s := SignalSet.passed false s in
  let s := SignalSet.minDistance infinity s in
  let s := SignalSet.lastDistance None s in
  SignalSet.nearestIndex None s.

Definition setAllSignalsNormal (st : Sim) : Sim :=
  let st := withSignalRuntime (resetSignal <$> signalRuntime st) st in
  let st := withPanel (withSignalId None) st in
  withPanel (withSignalMode NORMAL) st.

Definition setRouteHighlight (on : bool) (st : Sim) : Sim :=
  match selectedRouteLine st with
  | None => st
  | Some line => withSelectedRouteLine (Some (Polyline.mk (Polyline.latlngs line) on)) st
  end.

(** [coords[i]]; every index the script reads is in range. *)
Definition coordAt (coords : list LatLng) (i : nat) : LatLng :=
  default (nan, nan) (coords !! i).

Definition setSelectedRoute (routeId : RouteId) (st : Sim) : Sim :=
  let st := withSelectedRouteId (Some routeId) st in
  let st := withPanel (withStartDisabled false) st in
  let route := ROUTES routeId in
  let st := withSelectedRouteLine (Some (Polyline.mk (Route.coords route) false)) st in
  let st := withAmbulanceMarker (coordAt (Route.coords route) 0) st in
  setRouteHighlight false st.

Definition logEvent (e : LogEvent) (st : Sim) : Sim :=
  withPanel (λ p, withEventLog (e :: eventLog p) p) st.

Definition clearLog (st : Sim) : Sim := withPanel (withEventLog []) st.

Definition renderPrediction (level : string) (st : Sim) : Sim :=
  withPanel (withPredictedTraffic (Some level)) st.

Definition setEmergencyMode (on : bool) (st : Sim) : Sim := withEmergencyMode on st.

Definition setAdvanceDetection (active : bool) (st : Sim) : Sim :=
  withPanel (withAdvanceDetection active) st.

Definition setDistanceUI (km : number) (st : Sim) : Sim :=
  withPanel (withDistanceToSignal km) st.

Definition setAutoControl (on : bool) (st : Sim) : Sim :=
  withPanel (withAutoControl on) st.

(** ** Drive simulation *)

Definition TICK_MS : number := 200%float.
Definition SEGMENT_TIME_MS : number := 4200%float.
Definition STEP : number := (TICK_MS / SEGMENT_TIME_MS)%float.

Definition ADVANCE_DETECTION_KM : number := 3.0%float.
Definition OVERRIDE_START_KM : number := 0.40%float.
Definition OVERRIDE_END_KM : number := 0.15%float.

Definition stopDriveTimer (st : Sim) : Sim :=
  if driveTimer st then withDriveTimer false st else st.

Definition resetDriveState (st : Sim) : Sim :=
  let st := stopDriveTimer st in
  let st := withIsDriving false st in
  let st := withCurrentIndex 0 st in
  let st := withSegmentProgress 0%float st in
  let st := setAllSignalsNormal st in
  let st := setAdvanceDetection false st in
  let st := setDistanceUI nan st in
  let st := setAutoControl false st in
  let st := withPanel (withSignalId None) st in
  withPanel (withSignalMode NORMAL) st.

Definition handleAdvanceDetectionFor (i : nat) (distanceToSignalKm : number) (st : Sim) : Sim :=
  match signalRuntime st !! i with
  | None => st
  | Some signal =>
      if Signal.advanceTriggered signal then st
      else if (distanceToSignalKm <=? ADVANCE_DETECTION_KM)%float then
        let st := updSignal i (SignalSet.advanceTriggered true) st in
        let st := setAdvanceDetection true st in
        let st := setAutoControl true st in
        let st := setRouteHighlight true st in
        logEvent (LogDetection (Signal.id signal)) st
      else st
  end.

Definition handleSignalOverrideFor (i : nat) (distanceToSignalKm : number) (st : Sim) : Sim :=
  match signalRuntime st !! i with
  | None => st
  | Some signal =>
      if negb (Signal.overrideActive signal)
         && (distanceToSignalKm <=? OVERRIDE_START_KM)%float then
        let st := updSignal i (SignalSet.overrideActive true) st in
        let st := setSignalStateFor i OVERRIDE st in
        logEvent (LogOverrideOn (Signal.id signal)) st
      else st
  end.

(** The statements both crossing rules run when they fire. *)
Definition crossSignal (i : nat) (signal : Signal.t) (st : Sim) : Sim :=
  let st := updSignal i (SignalSet.passed true) st in
  let st := updSignal i (SignalSet.overrideActive false) st in
  let st := setSignalStateFor i NORMAL st in
  let st := setAutoControl false st in
  let st := setAdvanceDetection false st in
  let st := setRouteHighlight false st in
  logEvent (LogCrossed (Signal.id signal)) st.

Definition closeEnough (signal : Signal.t) : bool :=
  (Signal.minDistance signal <=? OVERRIDE_START_KM)%float.

Definition movingAwayFromMin (signal : Signal.t) (distanceToSignalKm : number) : bool :=
  (Signal.minDistance signal + 0.03 <? distanceToSignalKm)%float.

Definition passedIndex (signal : Signal.t) (st : Sim) : bool :=
  match Signal.nearestIndex signal with
  | Some n =>
      (n <? currentIndex st)%nat
      || ((currentIndex st =? n)%nat && (0.6 <=? segmentProgress st)%float)
  | None => false
  end.

Definition handleAfterCrossingFor (i : nat) (distanceToSignalKm : number) (st : Sim) : Sim :=
  match signalRuntime st !! i with
  | None => st
  | Some signal =>
      if Signal.passed signal then st
      else
        match Signal.lastDistance signal with
        | None => updSignal i (SignalSet.lastDistance (Some distanceToSignalKm)) st
        | Some lastDistance =>
            if Signal.overrideActive signal && closeEnough signal
               && (movingAwayFromMin signal distanceToSignalKm || passedIndex signal st)
            then
              let st := crossSignal i signal st in
              updSignal i (SignalSet.lastDistance (Some distanceToSignalKm)) st
            else
              let gotClose := (lastDistance <=? OVERRIDE_START_KM)%float in
              let movingAway := (lastDistance <? distanceToSignalKm)%float in
              let st :=
                if Signal.overrideActive signal && gotClose && movingAway
                   && (OVERRIDE_END_KM <=? distanceToSignalKm)%float
                then crossSignal i signal st
                else st in
              updSignal i (SignalSet.lastDistance (Some distanceToSignalKm)) st
        end
  end.

(** [candidates]: the positions in [signalRuntime] of the signals that are
    not passed and have a nearest index, each with that index, sorted by it. *)
Definition candidate (e : nat * Signal.t) : option (nat * nat) :=
  if Signal.passed e.2 then None
  else (λ n, (e.1, n)) <$> Signal.nearestIndex e.2.

Definition candidates (st : Sim) : list (nat * nat) :=
  sort (λ a b, (b.2 <? a.2)%nat) (omap candidate (imap pair (signalRuntime st))).

Definition getNextSignal (st : Sim) : option nat :=
  let cands := candidates st in
  match List.find (λ s, (currentIndex st <=? s.2 + 1)%nat) cands with
  | Some s => Some s.1
  | None => fst <$> last cands
  end.

Section Simulation.
Variable M : HostMath.

(** The position update of [driveTick]: [a] and [b] are read before the
    index moves. *)
Definition moveAmbulance (coords : list LatLng) (st : Sim) : Sim :=
  let a := coordAt coords (currentIndex st) in
  let b := coordAt coords (currentIndex st + 1) in
  let st := withSegmentProgress (segmentProgress st + STEP)%float st in
  let st :=
    if (1 <=? segmentProgress st)%float
    then withSegmentProgress 0%float (withCurrentIndex (currentIndex st + 1) st)
    else st in
  let pos := interpolatePoint a b (segmentProgress st) in
  withAmbulanceMarker pos st.

(** The rest of [driveTick], from [getNextSignal()] on; [pos] is where the
    marker was just put. *)
Definition trackNextSignal (st : Sim) : Sim :=
  let pos := ambulanceMarker st in
  match getNextSignal st with
  | None =>
      let st := setDistanceUI nan st in
      let st := withPanel (withSignalId None) st in
      withPanel (withSignalMode NORMAL) st
  | Some i =>
      match signalRuntime st !! i with
      | None => st
      | Some nextSignal =>
          let distKm := distanceKm M pos (Signal.location nextSignal) in
          let st :=
            if (distKm <? Signal.minDistance nextSignal)%float
            then updSignal i (SignalSet.minDistance distKm) st
            else st in
          let st := setDistanceUI distKm st in
          let st := withPanel (withSignalId (Some (Signal.id nextSignal))) st in
          let st := withPanel (withSignalMode (Signal.state nextSignal)) st in
          let st := handleAdvanceDetectionFor i distKm st in
          let st := handleSignalOverrideFor i distKm st in
          handleAfterCrossingFor i distKm st
      end
  end.

Definition driveTick (st : Sim) : Sim :=
  match selectedRouteId st with
  | None => st
  | Some routeId =>
      if negb (isDriving st) then st
      else
        let route := ROUTES routeId in
        let coords := Route.coords route in
        if (length coords - 1 <=? currentIndex st)%nat then
          let st := stopDriveTimer st in
          withIsDriving false st
        else trackNextSignal (moveAmbulance coords st)
  end.

(** The loop that finds the waypoint nearest to a signal: [i] is the loop
    counter, [best] and [bestIdx] the running minimum and its index. *)
Fixpoint nearestLoop (location : LatLng) (coords : list LatLng)
    (i : nat) (best : number) (bestIdx : nat) : nat :=
  match coords with
  | [] => bestIdx
  | c :: rest =>
      let d := distanceKm M c location in
      if (d <? best)%float then nearestLoop location rest (S i) d i
      else nearestLoop location rest (S i) best bestIdx
  end.

Definition prepareSignal (route : Route.t) (s : Signal.t) : Signal.t :=
  let bestIdx := nearestLoop (Signal.location s) (Route.coords route) 0 infinity 0 in
  let s := SignalSet.nearestIndex (Some bestIdx) s in
  let s := SignalSet.minDistance infinity s in
  let s := SignalSet.lastDistance None s in
  let s := SignalSet.advanceTriggered false s in
  let s := SignalSet.overrideActive false s in
  let s := SignalSet.passed false s in
  let s := SignalSet.state NORMAL s in
  SignalSet.marker NORMAL s.

(** An [alert] is recorded in [alerts], the most recent first. *)
Definition startEmergencyDrive (st : Sim) : Sim :=
  match selectedRouteId st with
  | None => withPanel (λ p, withAlerts (PROMPT :: alerts p) p) st
  | Some routeId =>
      if isDriving st then st
      else
        let st := setEmergencyMode true st in
        let st := resetDriveState st in
        let st := withIsDriving true st in
        let route := ROUTES routeId in
        let st := withAmbulanceMarker (coordAt (Route.coords route) 0) st in
        let st := withSignalRuntime (prepareSignal route <$> signalRuntime st) st in
        let st := clearLog st in
        let st := logEvent LogDriveStarted st in
        let st := logEvent (LogSelectedRoute (Route.name route)) st in
        withDriveTimer true st
  end.

(** The cards are rendered in the fixed order of [renderOrder]; the first
    element of the sorted list is selected. *)
Definition renderOrder : list RouteId := [fastest; alternative; shortest].

Definition RouteId_eqb (a b : RouteId) : bool :=
  match a, b with
  | fastest, fastest | alternative, alternative | shortest, shortest => true
  | _, _ => false
  end.

Definition buildRouteCards (predictedTraffic : string) (st : Sim) : Sim :=
  let routeList := routeList M predictedTraffic in
  match routeList with
  | [] => st
  | top :: _ =>
      let recommendedId := Card.id top in
      let cards :=
        omap (λ id, List.find (λ x, RouteId_eqb (Card.id x) id) routeList) renderOrder in
      let st := withPanel (withRoutes cards) st in
      setSelectedRoute recommendedId st
  end.

(** *** Button handlers and the timer *)

Definition suggestRouteBtn_click (accidentKey : string) (hour : Z) (st : Sim) : Sim :=
  let predicted := predictTrafficLevel accidentKey hour in
  let st := renderPrediction predicted st in
  buildRouteCards predicted st.

Definition resetBtn_click (st : Sim) : Sim :=
  let st := resetDriveState st in
  let st := setEmergencyMode false st in
  let st := clearLog st in
  let st := logEvent LogSystemReset st in
  let st := withPanel (withPredictedTraffic None) st in
  let st := withPanel (withRoutes []) st in
  let st := withSelectedRouteId None st in
  let st := withPanel (withStartDisabled true) st in
  let st := withSelectedRouteLine None st in
  withAmbulanceMarker CITY_CENTER st.

Definition toggleEmergencyBtn_click (st : Sim) : Sim :=
  setEmergencyMode (negb (emergencyMode st)) st.

(** The state the declarations of the script create, before its last
    statements run. *)
Definition declaredState : Sim :=
  mkSim (initialSignal <$> SIGNAL_DEFS) NORMAL None None false false false 0 0%float
    CITY_CENTER
    (mkPanel None NORMAL false nan false [] None [] true []).

(** The state once the script has loaded: [accidentKey] is the value of the
    location select and [hour] the hour of the clock at that moment. *)
Definition loadedState (accidentKey : string) (hour : Z) : Sim :=
  let st := setEmergencyMode false declaredState in
  let st := resetDriveState st in
  suggestRouteBtn_click accidentKey hour st.

(** What can happen after loading: a click, or the interval firing (which
    it does only while it is registered). [PickRoute] is a click on the
    Select button of a route card, which exists while the card is shown.
    The start button is clicked whether the page shows it disabled or not:
    the handler makes its own test. *)
Inductive Event :=
| SuggestClick (accidentKey : string) (hour : Z)
| PickRoute (routeId : RouteId)
| StartClick
| ResetClick
| ToggleEmergencyClick
| TimerTick.

(** The page shows the card of the route [routeId]. *)
Definition cardShown (routeId : RouteId) (st : Sim) : bool :=
  existsb (λ c, RouteId_eqb (Card.id c) routeId) (routes (panel st)).

Definition step (st : Sim) (e : Event) : Sim :=
  match e with
  | SuggestClick accidentKey hour => suggestRouteBtn_click accidentKey hour st
  | PickRoute routeId =>
      if cardShown routeId st then setSelectedRoute routeId st else st
  | StartClick => startEmergencyDrive st
  | ResetClick => resetBtn_click st
  | ToggleEmergencyClick => toggleEmergencyBtn_click st
  | TimerTick => if driveTimer st then driveTick st else st
  end.

Definition run (st : Sim) (es : list Event) : Sim := foldl step st es.

(** The states the page can be in. *)
Definition reachable (st : Sim) : Prop :=
  ∃ accidentKey hour es, st = run (loadedState accidentKey hour) es.
End Simulation.

(** ** What a tick does to the record of the tracked signal

    The handlers write to one element of [signalRuntime]; these functions
    give the new record of that element, statement by statement. *)

Definition observeMin (d : number) (s : Signal.t) : Signal.t :=
  if (d <? Signal.minDistance s)%float then SignalSet.minDistance d s else s.

Definition advanceFires (d : number) (s : Signal.t) : bool :=
  negb (Signal.advanceTriggered s) && (d <=? ADVANCE_DETECTION_KM)%float.

Definition advanceSignal (d : number) (s : Signal.t) : Signal.t :=
  if advanceFires d s then SignalSet.advanceTriggered true s else s.

Definition overrideFires (d : number) (s : Signal.t) : bool :=
  negb (Signal.overrideActive s) && (d <=? OVERRIDE_START_KM)%float.

Definition overrideSignal (d : number) (s : Signal.t) : Signal.t :=
  if overrideFires d s
  then SignalSet.marker OVERRIDE (SignalSet.state OVERRIDE (SignalSet.overrideActive true s))
  else s.

Definition crossedSignal (s : Signal.t) : Signal.t :=
  SignalSet.marker NORMAL
    (SignalSet.state NORMAL (SignalSet.overrideActive false (SignalSet.passed true s))).

(** The primary rule of [handleAfterCrossingFor], and the older fallback
    rule with [l] the last recorded distance. *)
Definition primaryRule (st : Sim) (d : number) (s : Signal.t) : bool :=
  Signal.overrideActive s && closeEnough s
  && (movingAwayFromMin s d || passedIndex s st).

Definition fallbackRule (d : number) (s : Signal.t) (l : number) : bool :=
  Signal.overrideActive s && (l <=? OVERRIDE_START_KM)%float
  && (l <? d)%float && (OVERRIDE_END_KM <=? d)%float.

(** Whether [handleAfterCrossingFor] marks the signal passed. *)
Definition crossingFires (st : Sim) (d : number) (s : Signal.t) : bool :=
  negb (Signal.passed s)
  && match Signal.lastDistance s with
     | None => false
     | Some l => primaryRule st d s || fallbackRule d s l
     end.

Definition crossingSignal (st : Sim) (d : number) (s : Signal.t) : Signal.t :=
  if Signal.passed s then s
  else SignalSet.lastDistance (Some d) (if crossingFires st d s then crossedSignal s else s).

Definition tickSignal (st : Sim) (d : number) (s : Signal.t) : Signal.t :=
  crossingSignal st d (overrideSignal d (advanceSignal d (observeMin d s))).

(** The events one call of [trackNextSignal] logs for the tracked signal
    [s] at distance [d], the most recent first. *)
Definition tickEvents (st : Sim) (d : number) (s : Signal.t) : list LogEvent :=
  let s1 := observeMin d s in
  let s2 := advanceSignal d s1 in
  let s3 := overrideSignal d s2 in
  (if crossingFires st d s3 then [LogCrossed (Signal.id s)] else [])
  ++ (if overrideFires d s2 then [LogOverrideOn (Signal.id s)] else [])
  ++ (if advanceFires d s1 then [LogDetection (Signal.id s)] else []).

(** The part of the state that the movement of the ambulance reads and
    writes. *)
Definition session (st : Sim) :=
  (selectedRouteId st, isDriving st, driveTimer st, currentIndex st,
   segmentProgress st, ambulanceMarker st).

(** The signal a tick works with, once the ambulance has moved: its position
    in [signalRuntime], its record, and the distance measured to it. *)
Definition tracked (M : HostMath) (st : Sim) : option (nat * Signal.t * number) :=
  match getNextSignal st with
  | None => None
  | Some i =>
      match signalRuntime st !! i with
      | None => None
      | Some s => Some (i, s, distanceKm M (ambulanceMarker st) (Signal.location s))
      end
  end.

(** ** Next-signal selection, as properties *)

(** The signal at position [i] is a candidate with nearest index [n]. *)
Definition isCandidate (st : Sim) (i n : nat) : Prop :=
  ∃ s, signalRuntime st !! i = Some s
       ∧ Signal.passed s = false ∧ Signal.nearestIndex s = Some n.

(** The selection as the specification words it: the first candidate, in
    ascending order of nearest index, that is at or ahead of the current
    waypoint index; the last candidate when all are behind. *)
Definition specNextSignal (st : Sim) : option nat :=
  let cands := candidates st in
  match List.find (λ s, (currentIndex st <=? s.2)%nat) cands with
  | Some s => Some s.1
  | None => fst <$> last cands
  end.

(** The signals as a drive on the shortest route prepares them (nearest
    indices 1, 2 and 4), none passed, with the ambulance on the segment that
    starts at waypoint 2. *)
Definition signalsOnShortest : list Signal.t :=
  zip_with (λ d n, SignalSet.nearestIndex (Some n) (initialSignal d)) SIGNAL_DEFS [1; 2; 4].

Definition stateAtWaypoint2 : Sim :=
  mkSim signalsOnShortest NORMAL (Some shortest)
    (Some (Polyline.mk (Route.coords (ROUTES shortest)) false))
    true true true 2 0%float (coordAt (Route.coords (ROUTES shortest)) 1)
    (mkPanel None NORMAL false nan false [] None [] false []).

(** ** Runs of the page *)

(** The record of a signal nothing has happened to in the current drive. *)
Definition fresh (s : Signal.t) : Prop :=
  Signal.state s = NORMAL ∧ Signal.minDistance s = infinity
  ∧ Signal.lastDistance s = None ∧ Signal.advanceTriggered s = false
  ∧ Signal.overrideActive s = false ∧ Signal.passed s = false.

(** A crossing has been applied to the record. *)
Definition crossed (s : Signal.t) : Prop :=
  Signal.passed s = true ∧ Signal.overrideActive s = false ∧ Signal.state s = NORMAL.

(** A click that starts or resets a drive. *)
Definition restarts (e : Event) : bool :=
  match e with
  | StartClick | ResetClick => true
  | _ => false
  end.


Definition passedFlag (st : Sim) (i : nat) : bool :=
  default false (Signal.passed <$> signalRuntime st !! i).



(** ** A host for running the script

    Polynomial approximations of the trigonometric functions, close enough
    over the few kilometres the catalog covers; the examples that run the
    simulation use them in place of the host's own. *)
Definition sampleMath : HostMath :=
  {| sin := λ x, (x - x * x * x / 6 + x * x * x * x * x / 120)%float;
     cos := λ x, (1 - x * x / 2 + x * x * x * x / 24 - x * x * x * x * x * x / 720)%float;
     atan2 := λ y x, let t := (y / x)%float in (t - t * t * t / 3 + t * t * t * t * t / 5)%float;
     sqrt := PrimFloat.sqrt;
     pow := λ x y, if (y =? 2)%float then (x * x)%float else nan |}.

(** The first-order host: every function by the leading term of its series
    at zero. It satisfies [HostMathLaws]. *)
Definition smallAngleMath : HostMath :=
  {| sin := λ x, x;
     cos := λ _, 1%float;
     atan2 := λ y _, y;
     sqrt := PrimFloat.sqrt;
     pow := λ x _, (x * x)%float |}.

(** A drive on the route [r], [n] ticks after its start. *)
Definition driveAfter (r : RouteId) (n : nat) : Sim :=
  run sampleMath (loadedState sampleMath "central" 9)
    ([PickRoute r; StartClick] ++ replicate n TimerTick).

(** The element of [signalRuntime] at position [i]. *)
Definition signalAt (st : Sim) (i : nat) : Signal.t :=
  default (initialSignal (EmptyString, CITY_CENTER)) (signalRuntime st !! i).

(** The runtime state of a signal is at its initial values. *)
Definition cleared (s : Signal.t) : Prop :=
  Signal.state s = NORMAL ∧ Signal.nearestIndex s = None
  ∧ Signal.minDistance s = infinity ∧ Signal.lastDistance s = None
  ∧ Signal.advanceTriggered s = false ∧ Signal.overrideActive s = false
  ∧ Signal.passed s = false.

(** ** The drive session *)

(** The values [segmentProgress] takes: 0, and the sums obtained by adding
    [STEP] again and again until the sum reaches 1. *)
Fixpoint progressFrom (fuel : nat) (p : number) : list number :=
  match fuel with
  | O => []
  | S fuel' =>
      p :: (if (1 <=? p + STEP)%float then [] else progressFrom fuel' (p + STEP)%float)
  end.

Definition progressValues : list number := progressFrom 30 0%float.

Definition onGrid (p : number) : bool :=
  existsb (PrimFloat.Leibniz.eqb p) progressValues.

(** The segment progress after one more step. *)
Definition nextProgress (p : number) : number :=
  if (1 <=? p + STEP)%float then 0%float else (p + STEP)%float.

(** The index of the last waypoint of a route. *)
Definition lastIndex (r : RouteId) : nat := (length (Route.coords (ROUTES r)) - 1)%nat.

(** The bounds of the drive session: the progress is one of the values
    above, all in [0, 1), and the waypoint index is on the selected route. *)
Definition sessionOk (st : Sim) : Prop :=
  onGrid (segmentProgress st) = true
  ∧ ∀ r, selectedRouteId st = Some r → (currentIndex st ≤ lastIndex r)%nat.

(** A drive on the fastest route during which, after [n] ticks, the
    shortest route is picked; then one more tick. *)
Definition reselectAfter (n : nat) : list Event :=
  [PickRoute fastest; StartClick] ++ replicate n TimerTick
  ++ [PickRoute shortest; TimerTick].

(** ** Route ranking, as the specification words it *)

(** The severity rank of a traffic label: Low, then Medium, then High. *)
Definition severity (level : string) : nat :=
  if String.eqb level "Low" then 1%nat
  else if String.eqb level "Medium" then 2%nat
  else 3%nat.

(** The multiplier of the travel time. *)
Definition multiplier (level : string) : number :=
  if String.eqb level "Low" then 1.0%float
  else if String.eqb level "Medium" then 1.25%float
  else 1.55%float.

(** [x] may stand before [y] in the ranking: its severity is lower, or the
    severities are equal and its estimated time is not the greater one (the
    comparator's difference of the times is not positive). *)
Definition rankedBefore (x y : Card.t) : Prop :=
  (severity (Card.traffic x) < severity (Card.traffic y))%nat
  ∨ (severity (Card.traffic x) = severity (Card.traffic y)
     ∧ (0 <? Card.timeMin x - Card.timeMin y)%float = false).

(** ** Auxiliary predicates *)

(** Pairs (position, nearest index) in ascending order of the index. *)
Definition byIndex (a b : nat * nat) : Prop := (a.2 ≤ b.2)%nat.

(** [magnitude x B]: the binary64 value [x] (in the form of its
    specification) is a zero or a finite number below [2^B]. *)
Definition magnitude (x : spec_float) (B : Z) : Prop :=
  match x with
  | S754_zero _ => True
  | S754_finite _ m e => (Zdigits2 (Z.pos m) + e ≤ B)%Z
  | _ => False
  end.

(** ** The waypoint nearest to a signal, as a property

    [k] is the index of a waypoint of [coords] at the least distance from
    [location], and the first such index: no waypoint is nearer, and every
    earlier waypoint is farther. *)
Definition nearestWaypoint (M : HostMath) (coords : list LatLng) (location : LatLng)
    (k : nat) : Prop :=
  (k < length coords)%nat
  ∧ (∀ j c, coords !! j = Some c →
       (distanceKm M c location <? distanceKm M (coordAt coords k) location)%float = false)
  ∧ (∀ j c, (j < k)%nat → coords !! j = Some c →
       (distanceKm M c location <=? distanceKm M (coordAt coords k) location)%float = false).

(** ** The crossing rules, as the specification words them

    [m] is the minimum distance ever recorded for the signal, [d] the
    current distance and [l] the distance recorded last, in km; [nearest] is
    the nearest index precomputed for the signal, [index] and [progress] are
    the current waypoint index and segment progress of the ambulance. *)
Definition primaryCondition (m d : number) (nearest : option nat) (index : nat)
    (progress : number) : Prop :=
  (m <=? 0.40)%float = true
  ∧ ((m + 0.03 <? d)%float = true
     ∨ ∃ n, nearest = Some n
            ∧ ((n < index)%nat ∨ (index = n ∧ (0.6 <=? progress)%float = true))).

Definition fallbackCondition (l d : number) : Prop :=
  (l <=? 0.40)%float = true ∧ (l <? d)%float = true ∧ (0.15 <=? d)%float = true.

(** A drive in which a signal is first worked with when the ambulance is
    already close to it: the drive is started on the fastest route, the
    alternative route is picked at once, and the fastest route again after
    126 ticks; 20 ticks later the ambulance is on the last segment but one,
    and S3 has not been worked with yet. *)
Definition firstSighting : Sim :=
  run sampleMath (loadedState sampleMath "central" 9)
    ([PickRoute fastest; StartClick; PickRoute alternative] ++ replicate 126 TimerTick
     ++ [PickRoute fastest] ++ replicate 20 TimerTick).

(** ** The order of binary64 values

    [SFltb] and [SFleb] compare two values that are not NaN by sign, then
    exponent, then mantissa. [rank] reads that order on triples of integers:
    class (-2 for -infinity, -1 for negative numbers, 0 for the zeros, 1 for
    positive numbers, 2 for +infinity), then exponent and mantissa, both
    negated for negative numbers. *)
Definition rank (x : spec_float) : Z * Z * Z :=
  match x with
  | S754_zero _ | S754_nan => (0, 0, 0)%Z
  | S754_infinity s => (if s then -2 else 2, 0, 0)%Z
  | S754_finite s m e => if s then (-1, - e, - Z.pos m)%Z else (1, e, Z.pos m)%Z
  end.

Definition rankLt (a b : Z * Z * Z) : Prop :=
  (a.1.1 < b.1.1
   ∨ (a.1.1 = b.1.1 ∧ (a.1.2 < b.1.2 ∨ (a.1.2 = b.1.2 ∧ a.2 < b.2))))%Z.

Definition isNumber (x : spec_float) : Prop := x ≠ S754_nan.

(** ** Consistency of a signal record

    What the handlers keep true of every element of [signalRuntime]: the
    icon shows the mode; the mode is Override exactly while the override
    flag is set; a passed signal is not in override; a signal in override
    or passed has had its advance detection, and the ambulance has been
    within [OVERRIDE_START_KM] of it; the minimum distance is a number (not
    NaN), and the distance recorded last is not below it. *)
Definition recordOk (s : Signal.t) : Prop :=
  Signal.marker s = Signal.state s
  ∧ (Signal.overrideActive s = true ↔ Signal.state s = OVERRIDE)
  ∧ (Signal.passed s = true → Signal.overrideActive s = false)
  ∧ (Signal.overrideActive s = true ∨ Signal.passed s = true →
     Signal.advanceTriggered s = true
     ∧ (Signal.minDistance s <=? OVERRIDE_START_KM)%float = true)
  ∧ (Signal.minDistance s <=? infinity)%float = true.

Definition lastNotBelowMin (s : Signal.t) : Prop :=
  ∀ l, Signal.lastDistance s = Some l → (l <? Signal.minDistance s)%float = false.

(** The identity and the place of a signal. *)
Definition signalDef (s : Signal.t) : string * LatLng := (Signal.id s, Signal.location s).

(** ** Counting the starts of the override *)

(** Whether the override of the signal at position [i] is active. *)
Definition overrideFlag (st : Sim) (i : nat) : bool :=
  default false (Signal.overrideActive <$> signalRuntime st !! i).

(** The entries the event [e] adds to the event log: those that stand
    before the entries the log held. *)
Definition newEntries (M : HostMath) (st : Sim) (e : Event) : list LogEvent :=
  take (length (eventLog (panel (step M st e))) - length (eventLog (panel st)))
    (eventLog (panel (step M st e))).

(** [handleSignalOverrideFor] logs an entry of this form for the signal
    [id] each time it turns the override of that signal on, and nothing else
    logs one. *)
Definition isOverrideOn (id : string) (x : LogEvent) : bool :=
  match x with
  | LogOverrideOn id' => String.eqb id' id
  | _ => false
  end.

(** The number of times the event [e] turns the override of the signal at
    position [i] on, whether the override is still active after the event
    or not. *)
Definition overrideStartsAt (M : HostMath) (st : Sim) (e : Event) (i : nat) : nat :=
  match signalRuntime st !! i with
  | Some s => length (List.filter (isOverrideOn (Signal.id s)) (newEntries M st e))
  | None => 0
  end.

(** The number of times the events of a run turn the override of the signal
    at position [i] on. *)
Fixpoint overrideStarts (M : HostMath) (st : Sim) (es : list Event) (i : nat) : nat :=
  match es with
  | [] => 0
  | e :: es' => overrideStartsAt M st e i + overrideStarts M (step M st e) es' i
  end.

(** A drive whose next tick turns the override of a signal on and marks the
    signal passed at once: started on the alternative route, with the
    fastest route picked right after the start, 75 ticks on. *)
Definition startAndCross : Sim :=
  run sampleMath (loadedState sampleMath "central" 9)
    ([PickRoute alternative; StartClick; PickRoute fastest] ++ replicate 75 TimerTick).

(** ** What a tick shows on the page

    The writes of the three handlers to the page, for the signal [id], and
    the page after the tick that tracks the record [s] at distance [d]. *)
Definition showDetection (id : string) (p : Panel) : Panel :=
  withEventLog (LogDetection id :: eventLog p)
    (withAutoControl true (withAdvanceDetection true p)).

Definition showOverride (id : string) (p : Panel) : Panel :=
  withEventLog (LogOverrideOn id :: eventLog p)
    (withSignalMode OVERRIDE (withSignalId (Some id) p)).

Definition showCrossing (id : string) (p : Panel) : Panel :=
  withEventLog (LogCrossed id :: eventLog p)
    (withAdvanceDetection false (withAutoControl false
       (withSignalMode NORMAL (withSignalId (Some id) p)))).

Definition tickPanel (st : Sim) (d : number) (s : Signal.t) (p : Panel) : Panel :=
  let s1 := observeMin d s in
  let s2 := advanceSignal d s1 in
  let s3 := overrideSignal d s2 in
  let p := withSignalMode (Signal.state s)
             (withSignalId (Some (Signal.id s)) (withDistanceToSignal d p)) in
  let p := if advanceFires d s1 then showDetection (Signal.id s) p else p in
  let p := if overrideFires d s2 then showOverride (Signal.id s) p else p in
  if crossingFires st d s3 then showCrossing (Signal.id s) p else p.

(** ** The drive session alone

    What the timer does to the drive session (route, driving flag, timer,
    waypoint index, segment progress, marker position): [driveTick] up to
    [ambulanceMarker.setLatLng(pos)]. It reads neither the signals nor the
    host's functions. *)
Definition Session : Type := option RouteId * bool * bool * nat * number * LatLng.

Definition tickSession (s : Session) : Session :=
  let '(routeId, driving, timer, index, progress, pos) := s in
  match routeId with
  | None => s
  | Some r =>
      if negb driving then s
      else if (lastIndex r <=? index)%nat
           then (routeId, false, false, index, progress, pos)
           else
             let coords := Route.coords (ROUTES r) in
             (routeId, driving, timer,
              if (1 <=? progress + STEP)%float then (index + 1)%nat else index,
              nextProgress progress,
              interpolatePoint (coordAt coords index) (coordAt coords (index + 1))
                (nextProgress progress))
  end.

(** The interval fires only while it is registered. *)
Definition timerSession (s : Session) : Session :=
  if s.1.1.1.2 then tickSession s else s.

(** The session a drive on the route [r] starts with, and the number of
    ticks such a drive takes: 21 for every segment, and the one that finds
    the last waypoint reached. *)
Definition startSession (r : RouteId) : Session :=
  (Some r, true, true, 0%nat, 0%float, coordAt (Route.coords (ROUTES r)) 0).

Definition driveTicks (r : RouteId) : nat := (21 * lastIndex r + 1)%nat.

Definition sessionDriving (s : Session) : bool := s.1.1.1.1.2.

(** ** The selection, and the page as a whole *)

(** The coordinates of the route line drawn on the map. *)
Definition lineCoords (st : Sim) : option (list LatLng) :=
  Polyline.latlngs <$> selectedRouteLine st.

(** What the user has chosen and been told: the selected route and its
    line, the emergency switch, the prediction, the cards, the state of the
    start button and the alerts shown. *)
Definition selection (st : Sim) :=
  (selectedRouteId st, lineCoords st, emergencyMode st, predictedTraffic (panel st),
   routes (panel st), startDriveBtn_disabled (panel st), alerts (panel st)).

(** The relations between the variables and the page that every handler
    keeps: the timer is registered exactly while a drive runs; the two
    indicators agree; with no route selected there is no drive, no line, no
    card, and the start button is disabled; with a route selected its line is
    drawn, the three cards are shown and the button is enabled; the segment
    progress is one of [progressValues]. *)
Definition pageOk (st : Sim) : Prop :=
  driveTimer st = isDriving st
  ∧ advanceDetection (panel st) = autoControl (panel st)
  ∧ onGrid (segmentProgress st) = true
  ∧ match selectedRouteId st with
    | None =>
        isDriving st = false ∧ lineCoords st = None
        ∧ startDriveBtn_disabled (panel st) = true ∧ routes (panel st) = []
    | Some r =>
        lineCoords st = Some (Route.coords (ROUTES r))
        ∧ startDriveBtn_disabled (panel st) = false
        ∧ Card.id <$> routes (panel st) = renderOrder
    end.

(** ** Runs that leave the route alone while a drive is running *)

(** The event [e] does not select a route while a drive is running. *)
Definition calm (st : Sim) (e : Event) : bool :=
  match e with
  | SuggestClick _ _ | PickRoute _ => negb (isDriving st)
  | _ => true
  end.

Fixpoint calmRun (M : HostMath) (st : Sim) (es : list Event) : bool :=
  match es with
  | [] => true
  | e :: es' => calm st e && calmRun M (step M st e) es'
  end.

(** While a drive is running the waypoint index is on the selected route. *)
Definition drivingOk (st : Sim) : Prop :=
  isDriving st = true →
  ∃ r, selectedRouteId st = Some r ∧ (currentIndex st ≤ lastIndex r)%nat.

(** ** Badges and lamps *)

Definition trafficBadgeClass (level : string) : string :=
  if String.eqb level "Low" then "badge badge--low"
  else if String.eqb level "Medium" then "badge badge--med"
  else if String.eqb level "High" then "badge badge--high"
  else "badge badge--neutral".

(** The colours [makeTrafficSignalIcon] gives the red, the yellow and the
    green lamp of the icon for the text [mode]. *)
Definition makeTrafficSignalIcon (mode : string) : string * string * string :=
  let redOn := String.eqb mode (SignalState_text NORMAL) in
  let greenOn := String.eqb mode (SignalState_text OVERRIDE) in
  let red := if redOn then "#ef4444" else "#7f1d1d" in
  let yellow := "#f59e0b" in
  let green := if greenOn then "#22c55e" else "#14532d" in
  (red, yellow, green).

(** The icon of a signal: the one made for the mode its marker shows. *)
Definition signalIcon (s : Signal.t) : string * string * string :=
  makeTrafficSignalIcon (SignalState_text (Signal.marker s)).

(** * Properties *)

Local Open Scope nat_scope.
Local Open Scope list_scope.

(** ** Traffic prediction *)

Lemma biasTable_lookup_other (key : string) :
  key ≠ "guindy" → key ≠ "tnagar" → key ≠ "egmore" → key ≠ "central" →
  biasTable !! key = None.
Proof.
  intros H1 H2 H3 H4. unfold biasTable.
  rewrite !lookup_insert_ne by congruence.
  apply lookup_singleton_ne. congruence.
Qed.

(** The value [bias] takes for a key that names no inherited property. *)
Lemma bias_own_or_default (key : string) :
  key ∉ objectPrototypeKeys →
  default (Num 1%float) (getProperty biasTable key)
  = Num (match biasWeight key with 1%Z => 1 | 2%Z => 2 | _ => 3 end)%float.
Proof.
  intros Hk. unfold biasWeight.
  destruct (String.eqb_spec key "guindy") as [->|H1]; [reflexivity|].
  destruct (String.eqb_spec key "tnagar") as [->|H2]; [reflexivity|].
  destruct (String.eqb_spec key "egmore") as [->|H3]; [reflexivity|].
  destruct (String.eqb_spec key "central") as [->|H4]; [reflexivity|].
  unfold getProperty. rewrite biasTable_lookup_other by assumption.
  rewrite bool_decide_eq_false_2 by assumption. reflexivity.
Qed.

Lemma biasWeight_range (key : string) :
  biasWeight key = 1%Z ∨ biasWeight key = 2%Z ∨ biasWeight key = 3%Z.
Proof.
  unfold biasWeight.
  repeat (match goal with |- context [String.eqb ?a ?b] => destruct (String.eqb a b) end);
    auto.
Qed.

Lemma predictTrafficLevel_values (key : string) (hour : Z) :
  predictTrafficLevel key hour = "Low"
  ∨ predictTrafficLevel key hour = "Medium"
  ∨ predictTrafficLevel key hour = "High".
Proof.
  unfold predictTrafficLevel.
  destruct (jsGe _ 4%float); [auto|]. destruct (jsGe _ 3%float); auto.
Qed.

(** For a key that names an inherited property the sum is a text, both
    comparisons fail, and the level is Low whatever the hour. *)
Lemma predictTrafficLevel_inherited (key : string) (hour : Z) :
  key ∈ objectPrototypeKeys → predictTrafficLevel key hour = "Low".
Proof.
  intros Hk. unfold predictTrafficLevel, getProperty.
  assert (biasTable !! key = None) as ->.
  { apply biasTable_lookup_other; intros ->; revert Hk;
      unfold objectPrototypeKeys; rewrite !elem_of_cons, elem_of_nil;
      intros H; repeat (destruct H as [H|H]; [discriminate H|]); exact H. }
  rewrite bool_decide_eq_true_2 by assumption. reflexivity.
Qed.

(** C5. For every location key (a key that is not the name of a property
    inherited from [Object.prototype]) and every hour, the predicted level is
    the level of the score [(2 if peak else 0) + bias], where peak means the
    hour is in [8,10] or [17,19] and the bias is 1 for guindy, 2 for tnagar and
    egmore, 3 for central and 1 for any other key: High from 4, Medium from 3,
    else Low. The result is a function of the key and the hour, and is one of
    Low, Medium and High. *)
Theorem predictTrafficLevel_rule (key : string) (hour : Z) :
  key ∉ objectPrototypeKeys →
  predictTrafficLevel key hour = levelOfScore (trafficScore key hour)
  ∧ (isPeakHour hour = true ↔ (8 ≤ hour ≤ 10 ∨ 17 ≤ hour ≤ 19)%Z)
  ∧ (predictTrafficLevel key hour = "Low"
     ∨ predictTrafficLevel key hour = "Medium"
     ∨ predictTrafficLevel key hour = "High").
Proof.
  intros Hk. split; [|split].
  - unfold predictTrafficLevel, trafficScore.
    rewrite (bias_own_or_default key Hk).
    fold (isPeakHour hour).
    destruct (biasWeight_range key) as [-> | [-> | ->]];
      destruct (isPeakHour hour); reflexivity.
  - unfold isPeakHour. rewrite orb_true_iff, !andb_true_iff, !Z.leb_le. tauto.
  - apply predictTrafficLevel_values.
Qed.

(** The rule at key central, 9 o'clock: peak, bias 3, score 5, High. *)
Lemma predictTrafficLevel_rule_witness :
  predictTrafficLevel "central" 9 = levelOfScore (trafficScore "central" 9)
  ∧ (isPeakHour 9 = true ↔ (8 ≤ 9 ≤ 10 ∨ 17 ≤ 9 ≤ 19)%Z)
  ∧ (predictTrafficLevel "central" 9 = "Low"
     ∨ predictTrafficLevel "central" 9 = "Medium"
     ∨ predictTrafficLevel "central" 9 = "High").
Proof.
  apply (predictTrafficLevel_rule "central" 9).
  unfold objectPrototypeKeys. rewrite !elem_of_cons, elem_of_nil.
  intros H; repeat (destruct H as [H|H]; [discriminate H|]); exact H.
Defined.

(** ** Facts of binary64 arithmetic

    Proved from the bit-level specification of the primitive operations. *)

Module FloatFacts.
Local Open Scope float_scope.

Lemma binary_round_aux_opp s m e l :
  binary_round_aux prec emax (negb s) m e l = SFopp (binary_round_aux prec emax s m e l).
Proof.
  unfold binary_round_aux.
  destruct (shr_fexp prec emax m e l) as [mrs' e'].
  destruct (shr_fexp prec emax _ e' loc_Exact) as [mrs'' e''].
  destruct (shr_m mrs''); try reflexivity.
  destruct (Z.leb e'' _); reflexivity.
Qed.

Lemma binary_round_opp s m e :
  binary_round prec emax (negb s) m e = SFopp (binary_round prec emax s m e).
Proof.
  unfold binary_round. destruct (shl_align _ _ _) as [mz ez].
  apply binary_round_aux_opp.
Qed.

Lemma SFopp_involutive x : SFopp (SFopp x) = x.
Proof. destruct x; simpl; rewrite ?negb_involutive; reflexivity. Qed.

Lemma SFmul_opp_l x y : SF64mul (SFopp x) y = SFopp (SF64mul x y).
Proof.
  destruct x as [sx|sx| |sx mx ex], y as [sy|sy| |sy my ey]; simpl;
    try reflexivity; try (destruct sx, sy; reflexivity).
  replace (xorb (negb sx) sy) with (negb (xorb sx sy)) by (destruct sx, sy; reflexivity).
  apply binary_round_aux_opp.
Qed.

Lemma SFdiv_opp_l x y : SF64div (SFopp x) y = SFopp (SF64div x y).
Proof.
  destruct x as [sx|sx| |sx mx ex], y as [sy|sy| |sy my ey]; simpl;
    try reflexivity; try (destruct sx, sy; reflexivity).
  destruct (SFdiv_core_binary _ _ _ _ _ _) as [[mz ez] lz].
  replace (xorb (negb sx) sy) with (negb (xorb sx sy)) by (destruct sx, sy; reflexivity).
  apply binary_round_aux_opp.
Qed.

Lemma SFmul_comm x y : SF64mul x y = SF64mul y x.
Proof.
  destruct x as [sx|sx| |sx mx ex], y as [sy|sy| |sy my ey]; simpl;
    try reflexivity; try (destruct sx, sy; reflexivity).
  rewrite (xorb_comm sx sy), (Pos.mul_comm mx my), (Z.add_comm ex ey). reflexivity.
Qed.

Lemma binary_normalize_opp m e :
  m ≠ 0%Z →
  binary_normalize prec emax (- m) e false = SFopp (binary_normalize prec emax m e false).
Proof.
  destruct m; simpl; intros H; try congruence.
  - apply (binary_round_opp false).
  - apply (binary_round_opp true).
Qed.

Lemma SFsub_antisym x y :
  SF64sub y x = SFopp (SF64sub x y)
  ∨ (SF64sub y x = S754_zero false ∧ SF64sub x y = S754_zero false).
Proof.
  destruct x as [sx|sx| |sx mx ex], y as [sy|sy| |sy my ey]; simpl;
    try (left; reflexivity);
    try (destruct sx, sy; simpl; (left; reflexivity) || (right; split; reflexivity)).
  all: try (left; rewrite ?negb_involutive; reflexivity).
  replace (IntDef.Z.min ey ex) with (IntDef.Z.min ex ey) by apply Z.min_comm.
  set (ez := IntDef.Z.min ex ey).
  set (A := cond_Zopp sx (Z.pos (fst (shl_align mx ex ez)))).
  set (B := cond_Zopp sy (Z.pos (fst (shl_align my ey ez)))).
  destruct (Z.eq_dec (A - B)%Z 0%Z) as [E|E].
  - right. replace (B - A)%Z with 0%Z by lia. rewrite E. split; reflexivity.
  - left. replace (B - A)%Z with (- (A - B))%Z by lia.
    apply binary_normalize_opp. exact E.
Qed.

Lemma opp_involutive x : - - x = x.
Proof. apply Prim2SF_inj. rewrite !opp_spec. apply SFopp_involutive. Qed.

Lemma mul_opp_l x y : (- x) * y = - (x * y).
Proof. apply Prim2SF_inj. rewrite opp_spec, !mul_spec, opp_spec. apply SFmul_opp_l. Qed.

Lemma div_opp_l x y : (- x) / y = - (x / y).
Proof. apply Prim2SF_inj. rewrite opp_spec, !div_spec, opp_spec. apply SFdiv_opp_l. Qed.

Lemma mul_comm x y : x * y = y * x.
Proof. apply Prim2SF_inj. rewrite !mul_spec. apply SFmul_comm. Qed.

Lemma sub_antisym x y : y - x = - (x - y) ∨ (y - x = 0 ∧ x - y = 0).
Proof.
  destruct (SFsub_antisym (Prim2SF x) (Prim2SF y)) as [H|[H1 H2]].
  - left. apply Prim2SF_inj. rewrite opp_spec, !sub_spec. exact H.
  - right. split; apply Prim2SF_inj; rewrite sub_spec; assumption.
Qed.


Lemma SFltb_zero_opp (v : spec_float) :
  SFltb (S754_zero false) v = true → SFltb (S754_zero false) (SFopp v) = false.
Proof.
  destruct v as [s|s| |s m e]; try destruct s; cbv;
    intros H; try discriminate H; reflexivity.
Qed.

(** If [a - b] is positive then [b - a] is not. *)
Lemma sub_pos_antisym (a b : float) :
  (0 <? a - b) = true → (0 <? b - a) = false.
Proof.
  intros H. destruct (sub_antisym a b) as [E | [E _]].
  - rewrite E. rewrite ltb_spec in *. rewrite opp_spec.
    apply SFltb_zero_opp. exact H.
  - rewrite E. reflexivity.
Qed.
End FloatFacts.

(** ** Magnitude bounds of binary64 arithmetic

    A product or quotient of numbers of bounded magnitude does not overflow.
    [magnitude x B] says that [x] is a zero or a finite number below [2^B]. *)

Module FloatBounds.
Local Open Scope Z_scope.

Lemma magnitude_mono (x : spec_float) (B B' : Z) :
  magnitude x B → B ≤ B' → magnitude x B'.
Proof. destruct x; simpl; lia. Qed.

Lemma Zdigits2_log2 (p : positive) : Zdigits2 (Z.pos p) = Z.log2 (Z.pos p) + 1.
Proof.
  assert (∀ q, digits2_pos q = Pos.size q) as Hsize.
  { induction q; simpl; congruence. }
  destruct p; cbn [Zdigits2 digits2_pos Z.log2]; rewrite ?Hsize; lia.
Qed.

Lemma Zdigits2_nonneg (m : Z) : 0 ≤ Zdigits2 m.
Proof. destruct m; simpl; lia. Qed.

Lemma Zdigits2_le (a b : Z) : 0 ≤ a → a ≤ b → Zdigits2 a ≤ Zdigits2 b.
Proof.
  intros Ha Hab. destruct a as [|p|p]; [apply Zdigits2_nonneg| |lia].
  destruct b as [|q|q]; try lia.
  rewrite !Zdigits2_log2. pose proof (Z.log2_le_mono (Z.pos p) (Z.pos q) Hab). lia.
Qed.

Lemma Zdigits2_mul (p q : positive) :
  Zdigits2 (Z.pos (p * q)) ≤ Zdigits2 (Z.pos p) + Zdigits2 (Z.pos q).
Proof.
  rewrite !Zdigits2_log2, Pos2Z.inj_mul.
  pose proof (Z.log2_mul_above (Z.pos p) (Z.pos q)). lia.
Qed.

Lemma shr_1_digits (mrs : shr_record) :
  0 ≤ shr_m mrs →
  0 ≤ shr_m (shr_1 mrs)
  ∧ Zdigits2 (shr_m (shr_1 mrs)) ≤ Z.max 0 (Zdigits2 (shr_m mrs) - 1).
Proof.
  destruct mrs as [m r s]. cbn [shr_m]. intros Hm.
  destruct m as [|[p|p|]|p]; cbn [shr_1 shr_m Zdigits2 digits2_pos]; split; lia.
Qed.

Lemma iter_shr_1_digits (p : positive) : ∀ mrs,
  0 ≤ shr_m mrs →
  0 ≤ shr_m (SpecFloat.iter_pos shr_1 p mrs)
  ∧ Zdigits2 (shr_m (SpecFloat.iter_pos shr_1 p mrs))
    ≤ Z.max 0 (Zdigits2 (shr_m mrs) - Z.pos p).
Proof.
  induction p as [p IH|p IH|]; intros mrs Hm; simpl.
  - destruct (shr_1_digits mrs Hm) as [H1 H1'].
    destruct (IH _ H1) as [H2 H2']. destruct (IH _ H2) as [H3 H3'].
    split; [exact H3|]. lia.
  - destruct (IH _ Hm) as [H2 H2']. destruct (IH _ H2) as [H3 H3'].
    split; [exact H3|]. lia.
  - apply shr_1_digits, Hm.
Qed.

Lemma round_nearest_even_bounds (m : Z) (l : location) :
  0 ≤ m →
  0 ≤ round_nearest_even m l
  ∧ Zdigits2 (round_nearest_even m l) ≤ Zdigits2 m + 1.
Proof.
  intros Hm.
  assert (Zdigits2 (m + 1) ≤ Zdigits2 m + 1) as Hs.
  { destruct m as [|p|p]; [simpl; lia| |lia].
    change (Z.pos p + 1) with (Z.pos (p + 1)). rewrite !Zdigits2_log2.
    pose proof (Z.log2_succ_le (Z.pos p)) as Hl.
    replace (Z.succ (Z.pos p)) with (Z.pos (p + 1)) in Hl by lia. lia. }
  pose proof (Zdigits2_nonneg m).
  destruct l as [|[]]; simpl; try (split; lia).
  destruct (Z.even m); split; lia.
Qed.

Lemma shr_record_of_loc_m (m : Z) (l : location) : shr_m (shr_record_of_loc m l) = m.
Proof. destruct l as [|[]]; reflexivity. Qed.

Lemma shr_fexp_bounds (m e : Z) (l : location) (B : Z) :
  0 ≤ m → Zdigits2 m + e ≤ B → e ≤ B → -1074 ≤ B →
  0 ≤ shr_m (shr_fexp prec emax m e l).1
  ∧ (shr_fexp prec emax m e l).2 ≤ B
  ∧ Zdigits2 (shr_m (shr_fexp prec emax m e l).1) + (shr_fexp prec emax m e l).2 ≤ B.
Proof.
  intros Hm HB He HB0. unfold shr_fexp, shr.
  assert (fexp prec emax (Zdigits2 m + e) ≤ B) as Hf.
  { unfold fexp, emin, prec, emax. lia. }
  destruct (fexp prec emax (Zdigits2 m + e) - e) as [|p|p] eqn:En;
    cbn [fst snd]; rewrite ?shr_record_of_loc_m.
  - repeat split; lia.
  - destruct (iter_shr_1_digits p (shr_record_of_loc m l)) as [H1 H2];
      [rewrite shr_record_of_loc_m; exact Hm|].
    rewrite shr_record_of_loc_m in H2.
    repeat split; [exact H1|lia|lia].
  - repeat split; lia.
Qed.

(** Rounding a mantissa of bounded magnitude gives a zero or a finite
    number, of magnitude one more at most. *)
Lemma binary_round_aux_magnitude (s : bool) (m e : Z) (l : location) (B : Z) :
  0 ≤ m → Zdigits2 m + e ≤ B → e ≤ B → -1074 ≤ B → B ≤ 970 →
  magnitude (binary_round_aux prec emax s m e l) (B + 1).
Proof.
  intros Hm HB He HB0 HB1. unfold binary_round_aux.
  pose proof (shr_fexp_bounds m e l B Hm HB He HB0) as H1.
  destruct (shr_fexp prec emax m e l) as [mrs' e'].
  destruct H1 as (Hm1 & He1 & Hd1). cbn [fst snd] in *.
  destruct (round_nearest_even_bounds (shr_m mrs') (loc_of_shr_record mrs') Hm1)
    as [Hr Hrd].
  pose proof (shr_fexp_bounds _ e' loc_Exact (B + 1) Hr ltac:(lia) ltac:(lia) ltac:(lia))
    as H2.
  destruct (shr_fexp prec emax _ e' loc_Exact) as [mrs'' e''].
  destruct H2 as (Hm2 & He2 & Hd2). cbn [fst snd] in *.
  destruct (shr_m mrs'') as [|p|p]; [exact I| |lia].
  change (emax - prec) with 971.
  destruct (Z.leb_spec e'' 971); [exact Hd2|lia].
Qed.

Lemma SFmul_magnitude (x y : spec_float) (Bx By : Z) :
  magnitude x Bx → magnitude y By → -1074 ≤ Bx + By → Bx + By ≤ 970 →
  magnitude (SF64mul x y) (Bx + By + 1).
Proof.
  destruct x as [sx|sx| |sx mx ex], y as [sy|sy| |sy my ey];
    unfold SF64mul; cbn [magnitude SFmul]; try tauto. intros Hx Hy H0 H1.
  pose proof (Zdigits2_mul mx my). pose proof (Zdigits2_log2 mx).
  pose proof (Zdigits2_log2 my). pose proof (Z.log2_nonneg (Z.pos mx)).
  pose proof (Z.log2_nonneg (Z.pos my)).
  apply binary_round_aux_magnitude; lia.
Qed.

Lemma SFdiv_magnitude (x y : spec_float) (Bx : Z) (sy : bool) (my : positive) (ey : Z) :
  magnitude x Bx → y = S754_finite sy my ey →
  -1074 ≤ Bx - ey → Bx - ey ≤ 970 →
  magnitude (SF64div x y) (Bx - ey + 1).
Proof.
  intros Hx -> H0 H1.
  destruct x as [sx|sx| |sx mx ex]; unfold SF64div; cbn [magnitude SFdiv] in *;
    try tauto.
  unfold SFdiv_core_binary.
  set (d1 := Zdigits2 (Z.pos mx)) in *. set (d2 := Zdigits2 (Z.pos my)).
  set (e' := Z.min (fexp prec emax (d1 + ex - (d2 + ey))) (ex - ey)).
  assert (e' ≤ ex - ey) as He' by (unfold e'; lia).
  set (s := ex - ey - e').
  set (m' := match s with Z.pos _ => Z.shiftl (Z.pos mx) s | 0 => Z.pos mx | Z.neg _ => 0 end).
  assert (0 < m' ∧ Zdigits2 m' = d1 + s) as [Hm' Hdm'].
  { unfold m'. assert (0 ≤ s) as Hs by (unfold s; lia).
    destruct s as [|p|p] eqn:Es; [split; [lia|unfold d1; lia]| |lia].
    pose proof (Z.shiftl_mul_pow2 (Z.pos mx) (Z.pos p) ltac:(lia)) as Hsh.
    assert (0 < Z.shiftl (Z.pos mx) (Z.pos p)) as Hpos.
    { rewrite Hsh. apply Z.mul_pos_pos; [lia|]. apply Z.pow_pos_nonneg; lia. }
    split; [exact Hpos|].
    destruct (Z.shiftl (Z.pos mx) (Z.pos p)) as [|q|q] eqn:Eq; try lia.
    rewrite Zdigits2_log2, <- Eq, Z.log2_shiftl by lia.
    unfold d1. rewrite Zdigits2_log2. lia. }
  pose proof (Z.div_eucl_eq m' (Z.pos my) ltac:(lia)) as Hdiv.
  pose proof (Z.mod_pos_bound m' (Z.pos my) ltac:(lia)) as Hmod.
  unfold Z.modulo in Hmod.
  destruct (Z.div_eucl m' (Z.pos my)) as [q r].
  assert (0 ≤ q ∧ q ≤ m') as [Hq0 Hqm] by nia.
  pose proof (Zdigits2_le q m' Hq0 Hqm).
  assert (1 ≤ d1) by (unfold d1; rewrite Zdigits2_log2; pose proof (Z.log2_nonneg (Z.pos mx)); lia).
  apply binary_round_aux_magnitude; unfold s in *; lia.
Qed.
End FloatBounds.

(** ** The order of binary64 values *)

Module FloatOrder.
Local Open Scope Z_scope.

Lemma compare_cont_spec (p q : positive) :
  CompareSpec (p = q) (Z.pos p < Z.pos q) (Z.pos q < Z.pos p)
    (PosDef.Pos.compare_cont Eq p q).
Proof.
  change (PosDef.Pos.compare_cont Eq p q) with (Pos.compare p q).
  destruct (Pos.compare_spec p q); constructor; lia.
Qed.

Lemma SFltb_rank (x y : spec_float) :
  SFltb x y = true ↔ isNumber x ∧ isNumber y ∧ rankLt (rank x) (rank y).
Proof.
  unfold SFltb, isNumber, rankLt.
  destruct x as [sx|sx| |sx mx ex], y as [sy|sy| |sy my ey];
    try destruct sx; try destruct sy; simpl;
    try (split; [discriminate|intros (H1 & H2 & H3); try congruence; lia]);
    try (split; [intros _; repeat split; try discriminate; lia|reflexivity]).
  all: destruct (Z.compare_spec ex ey) as [E|E|E];
    try (destruct (compare_cont_spec mx my) as [E'|E'|E']); simpl;
    try (split; [discriminate|intros (H1 & H2 & H3); lia]);
    try (split; [intros _; repeat split; try discriminate; lia|reflexivity]).
Qed.

Lemma SFleb_rank (x y : spec_float) :
  SFleb x y = true
  ↔ isNumber x ∧ isNumber y ∧ (rankLt (rank x) (rank y) ∨ rank x = rank y).
Proof.
  unfold SFleb, isNumber, rankLt.
  destruct x as [sx|sx| |sx mx ex], y as [sy|sy| |sy my ey];
    try destruct sx; try destruct sy; simpl;
    try (split; [discriminate|intros (H1 & H2 & [H3|H3]); try congruence; lia]);
    try (split; [intros _; repeat split; try discriminate; (left; lia) || (right; reflexivity)
                |reflexivity]).
  all: destruct (Z.compare_spec ex ey) as [E|E|E];
    try (destruct (compare_cont_spec mx my) as [E'|E'|E']); simpl;
    try (split; [discriminate|intros (H1 & H2 & [H3|H3]); [lia|injection H3; lia]]);
    try (split; [intros _; repeat split; try discriminate;
                 (left; lia) || (right; subst; reflexivity)
                |reflexivity]).
Qed.

Lemma rankLt_irrefl (a : Z * Z * Z) : ¬ rankLt a a.
Proof. unfold rankLt. lia. Qed.

Lemma rankLt_trans (a b c : Z * Z * Z) : rankLt a b → rankLt b c → rankLt a c.
Proof. unfold rankLt. lia. Qed.

Lemma rankLt_total (a b : Z * Z * Z) : rankLt a b ∨ a = b ∨ rankLt b a.
Proof.
  destruct a as [[a1 a2] a3], b as [[b1 b2] b3]. unfold rankLt. simpl.
  destruct (Z.eq_dec a1 b1) as [->|]; [|lia].
  destruct (Z.eq_dec a2 b2) as [->|]; [|lia].
  destruct (Z.eq_dec a3 b3) as [->|]; [|lia]. auto.
Qed.

Lemma rankLt_top (x y : spec_float) :
  rankLt (rank x) (rank y) → rankLt (rank x) (2, 0, 0).
Proof.
  unfold rankLt.
  destruct x as [s|[]| |[] m e], y as [s'|[]| |[] m' e']; simpl; lia.
Qed.

Local Open Scope float_scope.

Lemma ltb_rank (x y : float) :
  (x <? y) = true
  ↔ isNumber (Prim2SF x) ∧ isNumber (Prim2SF y)
    ∧ rankLt (rank (Prim2SF x)) (rank (Prim2SF y)).
Proof. rewrite ltb_spec. apply SFltb_rank. Qed.

Lemma leb_rank (x y : float) :
  (x <=? y) = true
  ↔ isNumber (Prim2SF x) ∧ isNumber (Prim2SF y)
    ∧ (rankLt (rank (Prim2SF x)) (rank (Prim2SF y))
       ∨ rank (Prim2SF x) = rank (Prim2SF y)).
Proof. rewrite leb_spec. apply SFleb_rank. Qed.

Lemma ltb_irrefl (x : float) : (x <? x) = false.
Proof.
  apply not_true_is_false. rewrite ltb_rank. intros (_ & _ & H).
  exact (rankLt_irrefl _ H).
Qed.

Lemma ltb_trans (x y z : float) :
  (x <? y) = true → (y <? z) = true → (x <? z) = true.
Proof.
  rewrite !ltb_rank. intros (Hx & _ & H1) (_ & Hz & H2).
  repeat split; try assumption. exact (rankLt_trans _ _ _ H1 H2).
Qed.

Lemma ltb_asym (x y : float) : (x <? y) = true → (y <? x) = false.
Proof.
  intros H. apply not_true_is_false. intros H'.
  pose proof (ltb_trans _ _ _ H H') as Hxx. rewrite ltb_irrefl in Hxx. discriminate.
Qed.

Lemma ltb_infinity (x y : float) : (x <? y) = true → (x <? infinity) = true.
Proof.
  rewrite !ltb_rank. intros (Hx & _ & H).
  split; [exact Hx|]. split; [discriminate|].
  exact (rankLt_top _ _ H).
Qed.

Lemma ltb_leb (x y : float) : (x <? y) = true → (x <=? y) = true.
Proof. rewrite ltb_rank, leb_rank. intros (Hx & Hy & H). auto. Qed.

Lemma leb_trans (x y z : float) :
  (x <=? y) = true → (y <=? z) = true → (x <=? z) = true.
Proof.
  rewrite !leb_rank. intros (Hx & _ & H1) (_ & Hz & H2).
  repeat split; try assumption.
  destruct H1 as [H1|H1], H2 as [H2|H2].
  - left. exact (rankLt_trans _ _ _ H1 H2).
  - left. rewrite <- H2. exact H1.
  - left. rewrite H1. exact H2.
  - right. congruence.
Qed.

Lemma leb_ltb_trans (x y z : float) :
  (x <=? y) = true → (y <? z) = true → (x <? z) = true.
Proof.
  rewrite leb_rank, !ltb_rank. intros (Hx & _ & H1) (_ & Hz & H2).
  repeat split; try assumption.
  destruct H1 as [H1|H1]; [exact (rankLt_trans _ _ _ H1 H2)|].
  rewrite H1. exact H2.
Qed.

Lemma ltb_leb_trans (x y z : float) :
  (x <? y) = true → (y <=? z) = true → (x <? z) = true.
Proof.
  rewrite leb_rank, !ltb_rank. intros (Hx & _ & H1) (_ & Hz & H2).
  repeat split; try assumption.
  destruct H2 as [H2|H2]; [exact (rankLt_trans _ _ _ H1 H2)|].
  rewrite <- H2. exact H1.
Qed.

(** Among numbers, [y] not below [x] means [x <= y]. *)
Lemma nltb_leb (x y : float) :
  (x <=? x) = true → (y <=? y) = true → (y <? x) = false → (x <=? y) = true.
Proof.
  rewrite !leb_rank. intros (Hx & _ & _) (Hy & _ & _) H.
  repeat split; try assumption.
  destruct (rankLt_total (rank (Prim2SF x)) (rank (Prim2SF y))) as [Hl | [He | Hg]]; auto.
  assert ((y <? x) = true) as H' by (apply ltb_rank; auto).
  congruence.
Qed.

Lemma leb_number (x y : float) :
  (x <=? y) = true → (x <=? x) = true ∧ (y <=? y) = true.
Proof. rewrite !leb_rank. intros (Hx & Hy & _). auto. Qed.

Lemma ltb_number (x y : float) :
  (x <? y) = true → (x <=? x) = true ∧ (y <=? y) = true.
Proof. intros H. apply leb_number, ltb_leb, H. Qed.
End FloatOrder.

(** ** The handlers, read as updates of one element of [signalRuntime] *)

Lemma alter_at {A} (l : list A) (i : nat) (s : A) (f g : A → A) :
  l !! i = Some s → f s = g s → alter f i l = alter g i l.
Proof.
  intros Hi Hfg. apply list_alter_ext; [|reflexivity].
  intros x Hx. rewrite Hi in Hx. injection Hx as <-. exact Hfg.
Qed.

Lemma alter_same {A} (l : list A) (i : nat) (f : A → A) :
  (∀ s, l !! i = Some s → f s = s) → alter f i l = l.
Proof.
  intros H. rewrite <- (list_alter_id id l i) at 2 by reflexivity.
  apply list_alter_ext; [exact H|reflexivity].
Qed.

Lemma lookup_updSignal (i : nat) (f : Signal.t → Signal.t) (st : Sim) (s : Signal.t) :
  signalRuntime st !! i = Some s → signalRuntime (updSignal i f st) !! i = Some (f s).
Proof. intros H. simpl. rewrite list_lookup_alter_eq, H. reflexivity. Qed.

Lemma setSignalStateFor_signals (i : nat) (m : SignalState) (st : Sim) :
  signalRuntime (setSignalStateFor i m st)
  = alter (λ s, SignalSet.marker m (SignalSet.state m s)) i (signalRuntime st).
Proof.
  unfold setSignalStateFor. destruct (signalRuntime st !! i) as [s|] eqn:E.
  - simpl. rewrite list_alter_alter_eq. reflexivity.
  - symmetry. apply alter_same. intros s Hs. congruence.
Qed.

Lemma handleAdvanceDetectionFor_signals (i : nat) (d : number) (st : Sim) :
  signalRuntime (handleAdvanceDetectionFor i d st)
  = alter (advanceSignal d) i (signalRuntime st).
Proof.
  unfold handleAdvanceDetectionFor.
  destruct (signalRuntime st !! i) as [s|] eqn:E.
  - unfold setRouteHighlight.
    destruct (Signal.advanceTriggered s) eqn:Ea;
      [|destruct (d <=? ADVANCE_DETECTION_KM)%float eqn:Ed].
    + symmetry. apply alter_same. intros s' Hs'. replace s' with s by congruence.
      unfold advanceSignal, advanceFires. rewrite Ea. reflexivity.
    + assert (signalRuntime
                (setAutoControl true (setAdvanceDetection true
                   (updSignal i (SignalSet.advanceTriggered true) st)))
              = alter (advanceSignal d) i (signalRuntime st)) as H.
      { simpl. apply (alter_at _ _ s); [exact E|].
        unfold advanceSignal, advanceFires. rewrite Ea, Ed. reflexivity. }
      cbv zeta. destruct (selectedRouteLine _); exact H.
    + symmetry. apply alter_same. intros s' Hs'. replace s' with s by congruence.
      unfold advanceSignal, advanceFires. rewrite Ea, Ed. reflexivity.
  - symmetry. apply alter_same. intros s Hs. congruence.
Qed.

Lemma handleSignalOverrideFor_signals (i : nat) (d : number) (st : Sim) :
  signalRuntime (handleSignalOverrideFor i d st)
  = alter (overrideSignal d) i (signalRuntime st).
Proof.
  unfold handleSignalOverrideFor.
  destruct (signalRuntime st !! i) as [s|] eqn:E.
  - fold (overrideFires d s). destruct (overrideFires d s) eqn:Ef.
    + cbv zeta. unfold logEvent. cbn [signalRuntime withPanel].
      rewrite setSignalStateFor_signals. cbn [signalRuntime updSignal withSignalRuntime].
      rewrite list_alter_alter_eq. apply (alter_at _ _ s); [exact E|].
      unfold overrideSignal. rewrite Ef. reflexivity.
    + symmetry. apply alter_same. intros s' Hs'. replace s' with s by congruence.
      unfold overrideSignal. rewrite Ef. reflexivity.
  - symmetry. apply alter_same. intros s Hs. congruence.
Qed.

Lemma setRouteHighlight_signals (on : bool) (st : Sim) :
  signalRuntime (setRouteHighlight on st) = signalRuntime st.
Proof. unfold setRouteHighlight. destruct (selectedRouteLine st); reflexivity. Qed.

Lemma crossSignal_signals (i : nat) (s : Signal.t) (st : Sim) :
  signalRuntime (crossSignal i s st) = alter crossedSignal i (signalRuntime st).
Proof.
  unfold crossSignal, logEvent. cbv zeta. cbn [signalRuntime withPanel].
  rewrite setRouteHighlight_signals.
  unfold setAdvanceDetection, setAutoControl. cbn [signalRuntime withPanel].
  rewrite setSignalStateFor_signals. cbn [signalRuntime updSignal withSignalRuntime].
  rewrite !list_alter_alter_eq. reflexivity.
Qed.

Lemma crossSignal_motion (i : nat) (s : Signal.t) (st : Sim) :
  currentIndex (crossSignal i s st) = currentIndex st
  ∧ segmentProgress (crossSignal i s st) = segmentProgress st.
Proof.
  unfold crossSignal, setRouteHighlight, setSignalStateFor. cbv zeta.
  repeat case_match; split; reflexivity.
Qed.

Lemma handleAfterCrossingFor_signals (i : nat) (d : number) (st : Sim) :
  signalRuntime (handleAfterCrossingFor i d st)
  = alter (crossingSignal st d) i (signalRuntime st).
Proof.
  unfold handleAfterCrossingFor.
  destruct (signalRuntime st !! i) as [s|] eqn:E;
    [|symmetry; apply alter_same; intros s Hs; congruence].
  destruct (Signal.passed s) eqn:Ep.
  { symmetry. apply alter_same. intros s' Hs'. replace s' with s by congruence.
    unfold crossingSignal. rewrite Ep. reflexivity. }
  destruct (Signal.lastDistance s) as [l|] eqn:El.
  - fold (primaryRule st d s). destruct (primaryRule st d s) eqn:E1.
    + cbv zeta. cbn [signalRuntime updSignal withSignalRuntime].
      rewrite crossSignal_signals, list_alter_alter_eq.
      apply (alter_at _ _ s); [exact E|].
      unfold crossingSignal, crossingFires. rewrite Ep, El, E1. reflexivity.
    + fold (fallbackRule d s l). destruct (fallbackRule d s l) eqn:E2.
      * cbv zeta. cbn [signalRuntime updSignal withSignalRuntime].
        rewrite crossSignal_signals, list_alter_alter_eq.
        apply (alter_at _ _ s); [exact E|].
        unfold crossingSignal, crossingFires. rewrite Ep, El, E1, E2. reflexivity.
      * cbv zeta. cbn [signalRuntime updSignal withSignalRuntime].
        apply (alter_at _ _ s); [exact E|].
        unfold crossingSignal, crossingFires. rewrite Ep, El, E1, E2. reflexivity.
  - cbn [signalRuntime updSignal withSignalRuntime].
    apply (alter_at _ _ s); [exact E|].
    unfold crossingSignal, crossingFires. rewrite Ep, El. reflexivity.
Qed.

Ltac unfold_handlers :=
  unfold handleAfterCrossingFor, handleSignalOverrideFor, handleAdvanceDetectionFor,
    crossSignal, setSignalStateFor, setRouteHighlight, logEvent, setAutoControl,
    setAdvanceDetection, setDistanceUI, updSignal in *.

Lemma handleAdvanceDetectionFor_session (i : nat) (d : number) (st : Sim) :
  session (handleAdvanceDetectionFor i d st) = session st.
Proof. unfold_handlers. cbv zeta. repeat case_match; reflexivity. Qed.

Lemma handleSignalOverrideFor_session (i : nat) (d : number) (st : Sim) :
  session (handleSignalOverrideFor i d st) = session st.
Proof. unfold_handlers. cbv zeta. repeat case_match; reflexivity. Qed.

Lemma handleAfterCrossingFor_session (i : nat) (d : number) (st : Sim) :
  session (handleAfterCrossingFor i d st) = session st.
Proof. unfold_handlers. cbv zeta. repeat case_match; reflexivity. Qed.

Lemma session_motion (st st' : Sim) :
  session st = session st' →
  currentIndex st = currentIndex st' ∧ segmentProgress st = segmentProgress st'.
Proof. unfold session. intros H. injection H. auto. Qed.

Lemma passedIndex_ext (s : Signal.t) (st st' : Sim) :
  currentIndex st = currentIndex st' → segmentProgress st = segmentProgress st' →
  passedIndex s st = passedIndex s st'.
Proof. unfold passedIndex. intros -> ->. reflexivity. Qed.

Lemma crossingSignal_ext (st st' : Sim) (d : number) (s : Signal.t) :
  session st = session st' → crossingSignal st d s = crossingSignal st' d s.
Proof.
  intros H. apply session_motion in H as [H1 H2].
  unfold crossingSignal, crossingFires, primaryRule.
  rewrite (passedIndex_ext s st st' H1 H2). reflexivity.
Qed.

Section Tracking.
Variable M : HostMath.

Lemma trackNextSignal_session (st : Sim) :
  session (trackNextSignal M st) = session st.
Proof.
  unfold trackNextSignal. cbv zeta.
  destruct (getNextSignal st) as [i|]; [|reflexivity].
  destruct (signalRuntime st !! i) as [s|]; [|reflexivity].
  rewrite handleAfterCrossingFor_session, handleSignalOverrideFor_session,
    handleAdvanceDetectionFor_session.
  case_match; reflexivity.
Qed.

(** A tick writes to the record of the tracked signal and to no other. *)
Lemma trackNextSignal_signals (st : Sim) :
  signalRuntime (trackNextSignal M st)
  = match tracked M st with
    | Some (i, s, d) => alter (tickSignal st d) i (signalRuntime st)
    | None => signalRuntime st
    end.
Proof.
  unfold trackNextSignal, tracked. cbv zeta.
  destruct (getNextSignal st) as [i|]; [|reflexivity].
  destruct (signalRuntime st !! i) as [s|] eqn:E; [|reflexivity].
  set (d := distanceKm M (ambulanceMarker st) (Signal.location s)).
  rewrite handleAfterCrossingFor_signals, handleSignalOverrideFor_signals,
    handleAdvanceDetectionFor_signals.
  rewrite !list_alter_alter_eq.
  match goal with |- alter (crossingSignal ?st1 d ∘ _ ∘ _) i ?l1 = _ =>
    assert (session st1 = session st) as Hs;
    [|assert (l1 = alter (observeMin d) i (signalRuntime st)) as ->]
  end.
  - rewrite handleSignalOverrideFor_session, handleAdvanceDetectionFor_session.
    case_match; reflexivity.
  - unfold observeMin.
    destruct (d <? Signal.minDistance s)%float eqn:Ed.
    + simpl. apply (alter_at _ _ s); [exact E|]. rewrite Ed. reflexivity.
    + simpl. symmetry. apply alter_same. intros s' Hs'.
      replace s' with s by congruence. rewrite Ed. reflexivity.
  - rewrite list_alter_alter_eq. apply list_alter_ext; [|reflexivity].
    intros x _. unfold tickSignal. simpl.
    apply crossingSignal_ext. exact Hs.
Qed.
End Tracking.

(** ** Sorting by insertion *)

Section SortFacts.
Context {A : Type} (after : A → A → bool).

Lemma insertSorted_perm (x : A) (l : list A) : insertSorted after x l ≡ₚ x :: l.
Proof.
  induction l as [|y l IH]; simpl; [reflexivity|].
  destruct (after x y); [|reflexivity].
  rewrite IH. apply Permutation_swap.
Qed.

Lemma sort_perm (l : list A) : sort after l ≡ₚ l.
Proof.
  induction l as [|x l IH]; simpl; [reflexivity|].
  rewrite insertSorted_perm, IH. reflexivity.
Qed.
End SortFacts.

(** Candidates are compared by nearest index. *)

Lemma insertSorted_byIndex (x : nat * nat) (l : list (nat * nat)) :
  StronglySorted byIndex l →
  StronglySorted byIndex (insertSorted (λ a b, (b.2 <? a.2)%nat) x l).
Proof.
  induction 1 as [|y l Hl IH Hy]; simpl.
  - repeat constructor.
  - destruct (Nat.ltb_spec y.2 x.2) as [Hlt|Hge].
    + constructor; [exact IH|].
      rewrite insertSorted_perm. constructor; [unfold byIndex; lia|exact Hy].
    + constructor; [constructor; assumption|].
      constructor; [exact Hge|].
      eapply Forall_impl; [exact Hy|]. unfold byIndex. intros z Hz. lia.
Qed.

Lemma sort_byIndex (l : list (nat * nat)) :
  StronglySorted byIndex (sort (λ a b, (b.2 <? a.2)%nat) l).
Proof.
  induction l as [|x l IH]; simpl; [constructor|].
  apply insertSorted_byIndex, IH.
Qed.

(** ** Next-signal selection *)

Lemma candidates_sorted (st : Sim) : StronglySorted byIndex (candidates st).
Proof. apply sort_byIndex. Qed.

Lemma elem_of_candidates (st : Sim) (i n : nat) :
  (i, n) ∈ candidates st ↔ isCandidate st i n.
Proof.
  unfold candidates, isCandidate. rewrite sort_perm, list_elem_of_omap.
  split.
  - intros ([j s] & Hin & Hc).
    apply elem_of_lookup_imap in Hin as (j' & s' & Heq & Hs').
    injection Heq as -> ->.
    unfold candidate in Hc. simpl in Hc.
    destruct (Signal.passed s') eqn:Ep; [discriminate|].
    destruct (Signal.nearestIndex s') as [m|] eqn:En; [|discriminate].
    injection Hc as -> ->. exists s'. auto.
  - intros (s & Hs & Hp & Hn). exists (i, s). split.
    + apply elem_of_lookup_imap. exists i, s. auto.
    + unfold candidate. simpl. rewrite Hp, Hn. reflexivity.
Qed.

(** In a list sorted by index, [find] with a threshold on the index returns
    an element with the least index among those that pass. *)
Lemma find_least (k : nat) (l : list (nat * nat)) (x : nat * nat) :
  StronglySorted byIndex l →
  List.find (λ s, (k <=? s.2 + 1)%nat) l = Some x →
  x ∈ l ∧ k ≤ x.2 + 1 ∧ ∀ y, y ∈ l → k ≤ y.2 + 1 → x.2 ≤ y.2.
Proof.
  induction 1 as [|a l Hl IH Ha]; simpl; [discriminate|].
  destruct (Nat.leb_spec k (a.2 + 1)) as [Hle|Hgt].
  - intros [= <-]. split; [left|split; [exact Hle|]].
    intros y Hy _. apply elem_of_cons in Hy as [->|Hy]; [lia|].
    rewrite Forall_forall in Ha. apply Ha. exact Hy.
  - intros Hf. destruct (IH Hf) as (Hin & Hk & Hmin).
    split; [right; exact Hin|split; [exact Hk|]].
    intros y Hy Hyk. apply elem_of_cons in Hy as [->|Hy]; [lia|].
    apply Hmin; assumption.
Qed.

Lemma find_none_all (k : nat) (l : list (nat * nat)) :
  List.find (λ s, (k <=? s.2 + 1)%nat) l = None → ∀ y, y ∈ l → y.2 + 1 < k.
Proof.
  induction l as [|a l IH]; simpl; intros Hf y Hy.
  - apply elem_of_nil in Hy as [].
  - destruct (Nat.leb_spec k (a.2 + 1)) as [Hle|Hgt]; [discriminate|].
    apply elem_of_cons in Hy as [->|Hy]; [exact Hgt|]. apply IH; assumption.
Qed.

Lemma last_greatest (l : list (nat * nat)) (x : nat * nat) :
  StronglySorted byIndex l → last l = Some x →
  x ∈ l ∧ ∀ y, y ∈ l → y.2 ≤ x.2.
Proof.
  induction 1 as [|a l Hl IH Ha]; [discriminate|].
  destruct l as [|b l'].
  - intros [= <-]. split; [left|].
    intros y Hy. apply list_elem_of_singleton in Hy as ->. lia.
  - change (last (a :: b :: l')) with (last (b :: l')).
    intros Hlast. destruct (IH Hlast) as (Hin & Hmax).
    split; [right; exact Hin|].
    intros y Hy. apply elem_of_cons in Hy as [->|Hy]; [|apply Hmax, Hy].
    rewrite Forall_forall in Ha. apply (Ha x Hin).
Qed.


Lemma getNextSignal_candidate (st : Sim) (i : nat) :
  getNextSignal st = Some i → ∃ n, isCandidate st i n.
Proof.
  unfold getNextSignal. cbv zeta.
  destruct (List.find _ (candidates st)) as [[j n]|] eqn:Ef.
  - intros [= <-]. exists n.
    apply find_least in Ef as (Hin & _); [|apply candidates_sorted].
    apply elem_of_candidates. exact Hin.
  - destruct (last (candidates st)) as [[j n]|] eqn:El; [|discriminate].
    intros [= <-]. exists n.
    apply last_greatest in El as (Hin & _); [|apply candidates_sorted].
    apply elem_of_candidates. exact Hin.
Qed.

Lemma tracked_inv (M : HostMath) (st : Sim) (i : nat) (s : Signal.t) (d : number) :
  tracked M st = Some (i, s, d) →
  getNextSignal st = Some i ∧ signalRuntime st !! i = Some s
  ∧ d = distanceKm M (ambulanceMarker st) (Signal.location s)
  ∧ Signal.passed s = false.
Proof.
  unfold tracked. destruct (getNextSignal st) as [j|] eqn:Eg; [|discriminate].
  destruct (signalRuntime st !! j) as [s'|] eqn:Es; [|discriminate].
  intros [= <- <- <-]. repeat split; try assumption.
  apply getNextSignal_candidate in Eg as (n & s'' & Hs & Hp & _). congruence.
Qed.

(** What [getNextSignal] returns. The signal a tick works with is chosen
    among the candidates (the signals not passed that have a nearest
    waypoint index): it is the one with the least nearest index among the
    candidates that are at most one waypoint behind the ambulance
    ([currentIndex <= nearestIndex + 1]); when every candidate is more than
    one waypoint behind, it is one with the greatest nearest index; when
    there is no candidate, none is chosen and the tick changes no signal.
    The tick writes to the chosen signal only. *)
Theorem getNextSignal_selects (M : HostMath) (st : Sim) :
  match getNextSignal st with
  | None =>
      (∀ i n, ¬ isCandidate st i n)
      ∧ signalRuntime (trackNextSignal M st) = signalRuntime st
  | Some i =>
      (∃ n, isCandidate st i n
         ∧ ((currentIndex st ≤ n + 1
             ∧ ∀ j m, isCandidate st j m → currentIndex st ≤ m + 1 → n ≤ m)
            ∨ ((∀ j m, isCandidate st j m → m + 1 < currentIndex st)
               ∧ ∀ j m, isCandidate st j m → m ≤ n)))
      ∧ ∀ j, j ≠ i →
          signalRuntime (trackNextSignal M st) !! j = signalRuntime st !! j
  end.
Proof.
  pose proof (trackNextSignal_signals M st) as Hsig.
  unfold tracked in Hsig.
  unfold getNextSignal in *. cbv zeta in *.
  pose proof (candidates_sorted st) as Hsorted.
  destruct (List.find _ (candidates st)) as [[i n]|] eqn:Ef.
  - simpl in *. split.
    + exists n. apply find_least in Ef as (Hin & Hk & Hmin); [|exact Hsorted].
      split; [apply elem_of_candidates, Hin|]. left. split; [exact Hk|].
      intros j m Hc Hm. apply elem_of_candidates in Hc.
      apply (Hmin (j, m) Hc Hm).
    + intros j Hj. rewrite Hsig. destruct (signalRuntime st !! i); [|reflexivity].
      apply list_lookup_alter_ne. congruence.
  - pose proof (find_none_all _ _ Ef) as Hall.
    destruct (last (candidates st)) as [[i n]|] eqn:El; simpl in *.
    + split.
      * exists n. apply last_greatest in El as (Hin & Hmax); [|exact Hsorted].
        split; [apply elem_of_candidates, Hin|]. right. split.
        -- intros j m Hc. apply elem_of_candidates in Hc. apply (Hall (j, m) Hc).
        -- intros j m Hc. apply elem_of_candidates in Hc. apply (Hmax (j, m) Hc).
      * intros j Hj. rewrite Hsig. destruct (signalRuntime st !! i); [|reflexivity].
        apply list_lookup_alter_ne. congruence.
    + split; [|exact Hsig].
      intros i n Hc. apply elem_of_candidates in Hc.
      apply last_None in El. rewrite El in Hc. apply elem_of_nil in Hc. exact Hc.
Qed.

(** C3. [getNextSignal] returns a signal that is behind the ambulance when
    one at or ahead of it is left: its loop tests [currentIndex <=
    nearestIndex + 1], where its comment says nearestIndex is ahead or
    current. With the three signals not passed and nearest indices 1, 2 and
    4, and the ambulance at waypoint 2, it returns S1, whose nearest waypoint
    is behind the ambulance, and not S2, whose nearest waypoint is the
    current one. The same happens in a drive: on the alternative route S1
    never comes within 0.40 km and is never passed; 45 ticks after the start
    the ambulance is at waypoint 2, the nearest indices are 1, 3 and 6, and
    the script still works with S1 and not with S2, the first signal ahead:
    the next tick shows S1 in the status panel and writes to the record of
    S1 only. *)
Theorem getNextSignal_behind :
  (currentIndex stateAtWaypoint2 = 2
   ∧ isCandidate stateAtWaypoint2 0 1
   ∧ isCandidate stateAtWaypoint2 1 2
   ∧ getNextSignal stateAtWaypoint2 = Some 0
   ∧ specNextSignal stateAtWaypoint2 = Some 1
   ∧ getNextSignal stateAtWaypoint2 ≠ specNextSignal stateAtWaypoint2)
  ∧ (currentIndex (driveAfter alternative 45) = 2
     ∧ candidates (driveAfter alternative 45) = [(0, 1); (1, 3); (2, 6)]
     ∧ getNextSignal (driveAfter alternative 45) = Some 0
     ∧ specNextSignal (driveAfter alternative 45) = Some 1)
  ∧ (currentIndex (driveTick sampleMath (driveAfter alternative 45)) = 2
     ∧ signalId (panel (driveTick sampleMath (driveAfter alternative 45))) = Some "S1"
     ∧ signalRuntime (driveTick sampleMath (driveAfter alternative 45)) !! 1
       = signalRuntime (driveAfter alternative 45) !! 1
     ∧ signalRuntime (driveTick sampleMath (driveAfter alternative 45)) !! 0
       ≠ signalRuntime (driveAfter alternative 45) !! 0).
Proof.
  split; [|split].
  - repeat split; try reflexivity; try discriminate;
      eexists; (split; [reflexivity|split; reflexivity]).
  - repeat split; vm_compute; reflexivity.
  - split; [vm_compute; reflexivity|]. split; [vm_compute; reflexivity|].
    split; [vm_compute; reflexivity|]. vm_compute. discriminate.
Qed.

(** ** Runs and reachable states *)

Section Runs.
Variable M : HostMath.

Lemma run_snoc (st : Sim) (es : list Event) (e : Event) :
  run M st (es ++ [e]) = step M (run M st es) e.
Proof. unfold run. rewrite foldl_app. reflexivity. Qed.

Lemma reachable_loaded (accidentKey : string) (hour : Z) :
  reachable M (loadedState M accidentKey hour).
Proof. exists accidentKey, hour, []. reflexivity. Qed.

Lemma reachable_step (st : Sim) (e : Event) :
  reachable M st → reachable M (step M st e).
Proof.
  intros (k & h & es & ->). exists k, h, (es ++ [e]). symmetry. apply run_snoc.
Qed.

Lemma reachable_ind (P : Sim → Prop) :
  (∀ accidentKey hour, P (loadedState M accidentKey hour)) →
  (∀ st e, reachable M st → P st → P (step M st e)) →
  ∀ st, reachable M st → P st.
Proof.
  intros H0 Hstep st (k & h & es & ->).
  induction es as [|e es IH] using rev_ind; [apply H0|].
  rewrite run_snoc. apply Hstep; [|exact IH].
  exists k, h, es. reflexivity.
Qed.

(** *** What an event does to [signalRuntime] *)

Lemma setSelectedRoute_signals (r : RouteId) (st : Sim) :
  signalRuntime (setSelectedRoute r st) = signalRuntime st.
Proof. reflexivity. Qed.

Lemma buildRouteCards_signals (p : string) (st : Sim) :
  signalRuntime (buildRouteCards M p st) = signalRuntime st.
Proof. unfold buildRouteCards. cbv zeta. destruct (routeList M p); reflexivity. Qed.

Lemma resetDriveState_signals (st : Sim) :
  signalRuntime (resetDriveState st) = resetSignal <$> signalRuntime st.
Proof. destruct st as [? ? ? ? ? ? [] ? ? ? ?]; reflexivity. Qed.

Lemma resetBtn_click_signals (st : Sim) :
  signalRuntime (resetBtn_click st) = resetSignal <$> signalRuntime st.
Proof. destruct st as [? ? ? ? ? ? [] ? ? ? ?]; reflexivity. Qed.

Lemma startEmergencyDrive_signals (st : Sim) (r : RouteId) :
  selectedRouteId st = Some r → isDriving st = false →
  signalRuntime (startEmergencyDrive M st)
  = (λ s, prepareSignal M (ROUTES r) (resetSignal s)) <$> signalRuntime st.
Proof.
  destruct st as [sr ? ? ? ? ? [] ? ? ? ?]; simpl; intros -> ->;
    change (prepareSignal M (ROUTES r) <$> (resetSignal <$> sr)
            = (λ s, prepareSignal M (ROUTES r) (resetSignal s)) <$> sr);
    rewrite <- list_fmap_compose; reflexivity.
Qed.

Lemma resetSignal_fresh (s : Signal.t) : fresh (resetSignal s).
Proof. repeat split. Qed.

Lemma prepareSignal_fresh (r : Route.t) (s : Signal.t) : fresh (prepareSignal M r s).
Proof. repeat split. Qed.

Lemma moveAmbulance_signals (coords : list LatLng) (st : Sim) :
  signalRuntime (moveAmbulance coords st) = signalRuntime st.
Proof. unfold moveAmbulance. cbv zeta. case_match; reflexivity. Qed.

Lemma driveTick_cases (st : Sim) :
  driveTick M st = st
  ∨ (driveTick M st = withIsDriving false (stopDriveTimer st))
  ∨ ∃ r, selectedRouteId st = Some r ∧ isDriving st = true
         ∧ currentIndex st < length (Route.coords (ROUTES r)) - 1
         ∧ driveTick M st = trackNextSignal M (moveAmbulance (Route.coords (ROUTES r)) st).
Proof.
  unfold driveTick. destruct (selectedRouteId st) as [r|]; [|auto].
  destruct (isDriving st); [|auto]. cbv zeta. simpl negb. cbv iota.
  destruct (Nat.leb_spec (length (Route.coords (ROUTES r)) - 1) (currentIndex st)).
  - auto.
  - right. right. exists r. auto.
Qed.

(** Every event leaves the signals alone, or makes all of them fresh, or is
    a tick that writes to the tracked signal. *)
Lemma step_signals (st : Sim) (e : Event) :
  signalRuntime (step M st e) = signalRuntime st
  ∨ (restarts e = true
     ∧ ∃ f, signalRuntime (step M st e) = f <$> signalRuntime st ∧ ∀ s, fresh (f s))
  ∨ (e = TimerTick
     ∧ ∃ st' i s d,
         tracked M st' = Some (i, s, d)
         ∧ signalRuntime st' = signalRuntime st
         ∧ signalRuntime (step M st e) = alter (tickSignal st' d) i (signalRuntime st)).
Proof.
  destruct e; simpl.
  - left. unfold suggestRouteBtn_click. cbv zeta. rewrite buildRouteCards_signals. reflexivity.
  - left. destruct (cardShown routeId st); [apply setSelectedRoute_signals|reflexivity].
  - destruct (selectedRouteId st) as [r|] eqn:Er;
      [|left; unfold startEmergencyDrive; rewrite Er; reflexivity].
    destruct (isDriving st) eqn:Ed;
      [left; unfold startEmergencyDrive; rewrite Er, Ed; reflexivity|].
    right. left. split; [reflexivity|].
    exists (λ s, prepareSignal M (ROUTES r) (resetSignal s)). split.
    + apply startEmergencyDrive_signals; assumption.
    + intros s. apply prepareSignal_fresh.
  - right. left. split; [reflexivity|]. exists resetSignal. split.
    + apply resetBtn_click_signals.
    + apply resetSignal_fresh.
  - left. reflexivity.
  - destruct (driveTimer st); [|left; reflexivity].
    destruct (driveTick_cases st) as [-> | [-> | (r & Hr & Hd & Hi & ->)]].
    + left. reflexivity.
    + left. unfold stopDriveTimer. destruct (driveTimer st); reflexivity.
    + rewrite trackNextSignal_signals.
      destruct (tracked M _) as [[[i s] d]|] eqn:Et.
      2: { left. apply moveAmbulance_signals. }
      rewrite moveAmbulance_signals.
      right. right. split; [reflexivity|].
      exists (moveAmbulance (Route.coords (ROUTES r)) st), i, s, d.
      split; [exact Et|]. split; [apply moveAmbulance_signals|reflexivity].
Qed.
End Runs.

(** ** The handlers, read as updates of the page *)

Lemma handleAdvanceDetectionFor_panel (i : nat) (d : number) (st : Sim) (s : Signal.t) :
  signalRuntime st !! i = Some s →
  panel (handleAdvanceDetectionFor i d st)
  = if advanceFires d s
    then withEventLog (LogDetection (Signal.id s) :: eventLog (panel st))
           (withAutoControl true (withAdvanceDetection true (panel st)))
    else panel st.
Proof.
  intros E. unfold handleAdvanceDetectionFor, advanceFires. rewrite E.
  destruct (Signal.advanceTriggered s); [reflexivity|].
  destruct (d <=? ADVANCE_DETECTION_KM)%float; [|reflexivity].
  destruct st as [? ? ? [line|] ? ? ? ? ? ? ?]; reflexivity.
Qed.

Lemma handleSignalOverrideFor_panel (i : nat) (d : number) (st : Sim) (s : Signal.t) :
  signalRuntime st !! i = Some s →
  panel (handleSignalOverrideFor i d st)
  = if overrideFires d s
    then withEventLog (LogOverrideOn (Signal.id s) :: eventLog (panel st))
           (withSignalMode OVERRIDE (withSignalId (Some (Signal.id s)) (panel st)))
    else panel st.
Proof.
  intros E. unfold handleSignalOverrideFor. rewrite E. fold (overrideFires d s).
  destruct (overrideFires d s); [|reflexivity].
  cbv zeta. unfold setSignalStateFor.
  rewrite (lookup_updSignal i _ st s E).
  destruct st; reflexivity.
Qed.

Lemma crossSignal_panel (i : nat) (st : Sim) (s : Signal.t) :
  signalRuntime st !! i = Some s →
  panel (crossSignal i s st)
  = withEventLog (LogCrossed (Signal.id s) :: eventLog (panel st))
      (withAdvanceDetection false (withAutoControl false
         (withSignalMode NORMAL (withSignalId (Some (Signal.id s)) (panel st))))).
Proof.
  intros E. unfold crossSignal. cbv zeta. unfold setSignalStateFor.
  pose proof (lookup_updSignal i (SignalSet.passed true) st s E) as E1.
  pose proof (lookup_updSignal i (SignalSet.overrideActive false) _ _ E1) as E2.
  rewrite E2.
  destruct st as [? ? ? [line|] ? ? ? ? ? ? ?]; reflexivity.
Qed.

Lemma handleAfterCrossingFor_panel (i : nat) (d : number) (st : Sim) (s : Signal.t) :
  signalRuntime st !! i = Some s →
  panel (handleAfterCrossingFor i d st)
  = if crossingFires st d s
    then withEventLog (LogCrossed (Signal.id s) :: eventLog (panel st))
           (withAdvanceDetection false (withAutoControl false
              (withSignalMode NORMAL (withSignalId (Some (Signal.id s)) (panel st)))))
    else panel st.
Proof.
  intros E. unfold handleAfterCrossingFor, crossingFires. rewrite E.
  destruct (Signal.passed s); [reflexivity|].
  destruct (Signal.lastDistance s) as [l|]; [|reflexivity].
  fold (primaryRule st d s). fold (fallbackRule d s l).
  destruct (primaryRule st d s); simpl.
  - apply crossSignal_panel, E.
  - destruct (fallbackRule d s l); [|reflexivity].
    apply crossSignal_panel, E.
Qed.

(** ** One call of [trackNextSignal] *)

Lemma id_observeMin (d : number) (s : Signal.t) : Signal.id (observeMin d s) = Signal.id s.
Proof. unfold observeMin. case_match; reflexivity. Qed.

Lemma id_advanceSignal (d : number) (s : Signal.t) : Signal.id (advanceSignal d s) = Signal.id s.
Proof. unfold advanceSignal. case_match; reflexivity. Qed.

Lemma id_overrideSignal (d : number) (s : Signal.t) : Signal.id (overrideSignal d s) = Signal.id s.
Proof. unfold overrideSignal. case_match; reflexivity. Qed.

Lemma passed_before_crossing (d : number) (s : Signal.t) :
  Signal.passed (overrideSignal d (advanceSignal d (observeMin d s))) = Signal.passed s.
Proof.
  unfold overrideSignal, advanceSignal, observeMin. repeat case_match; reflexivity.
Qed.

Lemma lastDistance_before_crossing (d : number) (s : Signal.t) :
  Signal.lastDistance (overrideSignal d (advanceSignal d (observeMin d s)))
  = Signal.lastDistance s.
Proof.
  unfold overrideSignal, advanceSignal, observeMin. repeat case_match; reflexivity.
Qed.

Section TrackingEffects.
Variable M : HostMath.

Lemma trackNextSignal_lookup (st : Sim) (i : nat) (s : Signal.t) (d : number) :
  tracked M st = Some (i, s, d) →
  signalRuntime (trackNextSignal M st) !! i = Some (tickSignal st d s).
Proof.
  intros Ht. rewrite trackNextSignal_signals, Ht.
  apply tracked_inv in Ht as (_ & Hs & _).
  rewrite list_lookup_alter_eq, Hs. reflexivity.
Qed.

Lemma trackNextSignal_other (st : Sim) (i j : nat) (s : Signal.t) (d : number) :
  tracked M st = Some (i, s, d) → j ≠ i →
  signalRuntime (trackNextSignal M st) !! j = signalRuntime st !! j.
Proof.
  intros Ht Hj. rewrite trackNextSignal_signals, Ht.
  apply list_lookup_alter_ne. congruence.
Qed.

(** The events a tick logs are those of the tracked signal. *)
Lemma trackNextSignal_log (st : Sim) (i : nat) (s : Signal.t) (d : number) :
  tracked M st = Some (i, s, d) →
  eventLog (panel (trackNextSignal M st)) = tickEvents st d s ++ eventLog (panel st).
Proof.
  intros Ht. apply tracked_inv in Ht as (Hg & Hs & Hd & Hp).
  unfold trackNextSignal. cbv zeta. rewrite Hg, Hs, <- Hd.
  set (stA := if (d <? Signal.minDistance s)%float
              then updSignal i (SignalSet.minDistance d) st else st).
  assert (signalRuntime stA !! i = Some (observeMin d s)) as HA.
  { unfold stA, observeMin. destruct (d <? Signal.minDistance s)%float.
    - apply lookup_updSignal, Hs.
    - exact Hs. }
  assert (eventLog (panel stA) = eventLog (panel st)) as HlogA.
  { unfold stA. destruct (d <? Signal.minDistance s)%float; reflexivity. }
  assert (session stA = session st) as HsessA.
  { unfold stA. destruct (d <? Signal.minDistance s)%float; reflexivity. }
  set (stB := withPanel (withSignalMode (Signal.state s))
                (withPanel (withSignalId (Some (Signal.id s))) (setDistanceUI d stA))).
  assert (signalRuntime stB !! i = Some (observeMin d s)) as HB by exact HA.
  assert (eventLog (panel stB) = eventLog (panel st)) as HlogB by exact HlogA.
  assert (session stB = session st) as HsessB by exact HsessA.
  clearbody stB. clear HA HlogA HsessA. clearbody stA.
  set (s1 := observeMin d s) in *.
  set (stC := handleAdvanceDetectionFor i d stB).
  assert (signalRuntime stC !! i = Some (advanceSignal d s1)) as HC.
  { unfold stC. rewrite handleAdvanceDetectionFor_signals, list_lookup_alter_eq, HB.
    reflexivity. }
  assert (eventLog (panel stC)
          = (if advanceFires d s1 then [LogDetection (Signal.id s)] else [])
            ++ eventLog (panel st)) as HlogC.
  { unfold stC. rewrite (handleAdvanceDetectionFor_panel i d stB s1 HB).
    unfold s1 at 2. rewrite id_observeMin.
    destruct (advanceFires d s1); simpl; rewrite HlogB; reflexivity. }
  assert (session stC = session st) as HsessC.
  { unfold stC. rewrite handleAdvanceDetectionFor_session. exact HsessB. }
  clearbody stC. clear HB HlogB HsessB.
  set (s2 := advanceSignal d s1) in *.
  set (stD := handleSignalOverrideFor i d stC).
  assert (signalRuntime stD !! i = Some (overrideSignal d s2)) as HD.
  { unfold stD. rewrite handleSignalOverrideFor_signals, list_lookup_alter_eq, HC.
    reflexivity. }
  assert (eventLog (panel stD)
          = (if overrideFires d s2 then [LogOverrideOn (Signal.id s)] else [])
            ++ eventLog (panel stC)) as HlogD.
  { unfold stD. rewrite (handleSignalOverrideFor_panel i d stC s2 HC).
    unfold s2 at 2, s1. rewrite id_advanceSignal, id_observeMin.
    destruct (overrideFires d s2); reflexivity. }
  assert (session stD = session st) as HsessD.
  { unfold stD. rewrite handleSignalOverrideFor_session. exact HsessC. }
  clearbody stD.
  set (s3 := overrideSignal d s2) in *.
  rewrite (handleAfterCrossingFor_panel i d stD s3 HD).
  assert (crossingFires stD d s3 = crossingFires st d s3) as ->.
  { apply session_motion in HsessD as [H1 H2].
    unfold crossingFires, primaryRule.
    rewrite (passedIndex_ext s3 stD st H1 H2). reflexivity. }
  assert (Signal.id s3 = Signal.id s) as ->.
  { unfold s3, s2, s1. rewrite id_overrideSignal, id_advanceSignal, id_observeMin.
    reflexivity. }
  unfold tickEvents. cbv zeta. subst s3 s2 s1.
  destruct (crossingFires st d _); simpl; rewrite HlogD, HlogC, <- ?app_assoc;
    reflexivity.
Qed.
End TrackingEffects.

(** ** Fields of the tracked signal after a tick *)


Lemma passed_tickSignal (st : Sim) (d : number) (s : Signal.t) :
  Signal.passed (tickSignal st d s)
  = Signal.passed s
    || crossingFires st d (overrideSignal d (advanceSignal d (observeMin d s))).
Proof.
  unfold tickSignal, crossingSignal.
  rewrite <- (passed_before_crossing d s).
  set (s3 := overrideSignal d (advanceSignal d (observeMin d s))).
  destruct (Signal.passed s3) eqn:Ep; simpl; [exact Ep|].
  destruct (crossingFires st d s3); simpl; [reflexivity|exact Ep].
Qed.

Lemma lastDistance_tickSignal (st : Sim) (d : number) (s : Signal.t) :
  Signal.passed s = false → Signal.lastDistance (tickSignal st d s) = Some d.
Proof.
  intros Hp. unfold tickSignal, crossingSignal.
  rewrite passed_before_crossing, Hp. reflexivity.
Qed.

(** ** Invariants of the signal records *)

Section Invariants.
Variable M : HostMath.

Lemma loadedState_signals (accidentKey : string) (hour : Z) :
  signalRuntime (loadedState M accidentKey hour)
  = resetSignal <$> (initialSignal <$> SIGNAL_DEFS).
Proof.
  unfold loadedState, suggestRouteBtn_click. cbv zeta.
  rewrite buildRouteCards_signals. reflexivity.
Qed.

(** A property of signal records that holds of fresh records and is kept
    by a tick on a signal not passed holds in every reachable state. *)
Lemma reachable_signal_inv (Q : Signal.t → Prop) :
  (∀ s, fresh s → Q s) →
  (∀ st d s, Q s → Signal.passed s = false → Q (tickSignal st d s)) →
  ∀ st, reachable M st → Forall Q (signalRuntime st).
Proof.
  intros Hfresh Htick. apply reachable_ind.
  - intros k h. rewrite loadedState_signals, <- list_fmap_compose.
    apply Forall_fmap, Forall_true. intros s. apply Hfresh, resetSignal_fresh.
  - intros st e _ IH.
    destruct (step_signals M st e)
      as [-> | [(_ & f & -> & Hf) | (_ & st' & i & s & d & Ht & Hs & ->)]].
    + exact IH.
    + apply Forall_fmap, Forall_true. intros s. apply Hfresh, Hf.
    + apply tracked_inv in Ht as (_ & Hi & _ & Hp). rewrite Hs in Hi.
      apply Forall_forall. intros x Hx.
      apply list_elem_of_lookup in Hx as (j & Hj).
      rewrite list_lookup_alter in Hj. destruct (decide (i = j)) as [<-|Hne].
      * rewrite Hi in Hj. injection Hj as <-. apply Htick; [|exact Hp].
        rewrite Forall_forall in IH. apply IH.
        apply list_elem_of_lookup. eauto.
      * rewrite Forall_forall in IH. apply IH.
        apply list_elem_of_lookup. eauto.
Qed.

(** Once the override of a signal is active, a distance to it has been
    recorded: the first call of [handleAfterCrossingFor] for a signal only
    records the distance, and it comes in the tick that starts the override
    at the latest. *)
Lemma reachable_distance_recorded (st : Sim) :
  reachable M st →
  Forall (λ s, Signal.overrideActive s = true → is_Some (Signal.lastDistance s))
    (signalRuntime st).
Proof.
  apply reachable_signal_inv.
  - intros s (_ & _ & _ & _ & Ho & _) H. congruence.
  - intros st' d s _ Hp _. rewrite lastDistance_tickSignal by exact Hp. eauto.
Qed.
End Invariants.

(** ** Crossing and the end of the override *)

Lemma advanceSignal_fields (d : number) (s : Signal.t) :
  Signal.overrideActive (advanceSignal d s) = Signal.overrideActive s
  ∧ Signal.passed (advanceSignal d s) = Signal.passed s
  ∧ Signal.lastDistance (advanceSignal d s) = Signal.lastDistance s
  ∧ Signal.minDistance (advanceSignal d s) = Signal.minDistance s
  ∧ Signal.nearestIndex (advanceSignal d s) = Signal.nearestIndex s
  ∧ Signal.state (advanceSignal d s) = Signal.state s.
Proof. unfold advanceSignal. case_match; repeat split. Qed.

Lemma observeMin_fields (d : number) (s : Signal.t) :
  Signal.overrideActive (observeMin d s) = Signal.overrideActive s
  ∧ Signal.passed (observeMin d s) = Signal.passed s
  ∧ Signal.lastDistance (observeMin d s) = Signal.lastDistance s
  ∧ Signal.nearestIndex (observeMin d s) = Signal.nearestIndex s
  ∧ Signal.state (observeMin d s) = Signal.state s
  ∧ Signal.advanceTriggered (observeMin d s) = Signal.advanceTriggered s.
Proof. unfold observeMin. case_match; repeat split. Qed.

(** The conditions of [handleAfterCrossingFor] are those of the
    specification, for a signal whose override is active. *)
Lemma primaryRule_spec (st : Sim) (d : number) (s : Signal.t) :
  primaryRule st d s = true
  ↔ Signal.overrideActive s = true
    ∧ primaryCondition (Signal.minDistance s) d (Signal.nearestIndex s)
        (currentIndex st) (segmentProgress st).
Proof.
  unfold primaryRule, closeEnough, movingAwayFromMin, passedIndex, primaryCondition.
  rewrite !andb_true_iff, orb_true_iff. split.
  - intros [[Ho Hc] Hm]. split; [exact Ho|]. split; [exact Hc|].
    destruct Hm as [Hm|Hm]; [left; exact Hm|right].
    destruct (Signal.nearestIndex s) as [n|]; [|discriminate].
    exists n. split; [reflexivity|].
    apply orb_true_iff in Hm as [Hm|Hm].
    + left. apply Nat.ltb_lt, Hm.
    + apply andb_true_iff in Hm as [H1 H2]. right.
      split; [apply Nat.eqb_eq, H1|exact H2].
  - intros (Ho & Hc & Hm). split; [split; assumption|].
    destruct Hm as [Hm|(n & -> & Hm)]; [left; exact Hm|right].
    apply orb_true_iff. destruct Hm as [Hm|[-> Hq]].
    + left. apply Nat.ltb_lt, Hm.
    + right. rewrite Nat.eqb_refl. exact Hq.
Qed.

Lemma fallbackRule_spec (d : number) (s : Signal.t) (l : number) :
  fallbackRule d s l = true
  ↔ Signal.overrideActive s = true ∧ fallbackCondition l d.
Proof.
  unfold fallbackRule, fallbackCondition. rewrite !andb_true_iff.
  split; [intros [[[H1 H2] H3] H4]|intros (H1 & H2 & H3 & H4)]; auto.
Qed.

(** The record of the tracked signal when the crossing rules are evaluated,
    after the detection and override handlers. *)
Lemma before_crossing_fields (d : number) (s : Signal.t) :
  Signal.overrideActive (overrideSignal d (advanceSignal d (observeMin d s)))
  = Signal.overrideActive s || (d <=? 0.40)%float
  ∧ Signal.minDistance (overrideSignal d (advanceSignal d (observeMin d s)))
    = (if (d <? Signal.minDistance s)%float then d else Signal.minDistance s)
  ∧ Signal.nearestIndex (overrideSignal d (advanceSignal d (observeMin d s)))
    = Signal.nearestIndex s
  ∧ Signal.state (overrideSignal d (advanceSignal d (observeMin d s)))
    = (if negb (Signal.overrideActive s) && (d <=? 0.40)%float
       then OVERRIDE else Signal.state s)
  ∧ Signal.passed (overrideSignal d (advanceSignal d (observeMin d s))) = Signal.passed s
  ∧ Signal.lastDistance (overrideSignal d (advanceSignal d (observeMin d s)))
    = Signal.lastDistance s.
Proof.
  destruct s as [? ? ? ? ? m ? adv ovr ?].
  unfold overrideSignal, overrideFires, advanceSignal, advanceFires, observeMin,
    OVERRIDE_START_KM. simpl.
  destruct (d <? m)%float; simpl; destruct adv; simpl;
    destruct (d <=? ADVANCE_DETECTION_KM)%float; simpl;
    destruct ovr; simpl; destruct (d <=? 0.40)%float; simpl; repeat split.
Qed.

(** What the crossing rules leave of that record. *)
Lemma tickSignal_fields (st : Sim) (d : number) (s : Signal.t) :
  Signal.passed s = false →
  Signal.passed (tickSignal st d s)
  = crossingFires st d (overrideSignal d (advanceSignal d (observeMin d s)))
  ∧ Signal.minDistance (tickSignal st d s)
    = Signal.minDistance (overrideSignal d (advanceSignal d (observeMin d s)))
  ∧ (crossingFires st d (overrideSignal d (advanceSignal d (observeMin d s))) = true →
     crossed (tickSignal st d s))
  ∧ (crossingFires st d (overrideSignal d (advanceSignal d (observeMin d s))) = false →
     Signal.overrideActive (tickSignal st d s)
     = Signal.overrideActive (overrideSignal d (advanceSignal d (observeMin d s)))
     ∧ Signal.state (tickSignal st d s)
       = Signal.state (overrideSignal d (advanceSignal d (observeMin d s)))
     ∧ Signal.lastDistance (tickSignal st d s) = Some d).
Proof.
  intros Hp. unfold tickSignal, crossingSignal.
  rewrite passed_before_crossing, Hp.
  pose proof (passed_before_crossing d s) as Hp3. rewrite Hp in Hp3.
  destruct (crossingFires st d _); simpl.
  - repeat split; discriminate.
  - split; [exact Hp3|]. split; [reflexivity|]. split; [discriminate|]. auto.
Qed.

Section Crossing.
Variable M : HostMath.

Lemma driveTick_moving (st : Sim) (r : RouteId) :
  selectedRouteId st = Some r → isDriving st = true →
  currentIndex st < length (Route.coords (ROUTES r)) - 1 →
  driveTick M st = trackNextSignal M (moveAmbulance (Route.coords (ROUTES r)) st).
Proof.
  intros Hr Hd Hi. unfold driveTick. rewrite Hr, Hd. simpl negb. cbv iota zeta.
  destruct (Nat.leb_spec (length (Route.coords (ROUTES r)) - 1) (currentIndex st));
    [lia|reflexivity].
Qed.

Lemma moveAmbulance_panel (coords : list LatLng) (st : Sim) :
  panel (moveAmbulance coords st) = panel st.
Proof. unfold moveAmbulance. cbv zeta. case_match; reflexivity. Qed.

(** C1 (as amended). On a tick that moves the ambulance, let [s] be the
    record of the tracked signal (it is not passed) and [d] the distance
    measured to it. The minimum distance of the record becomes the smaller
    of [d] and the old minimum. The tick marks the signal passed if and
    only if its override is active when the crossing rules are evaluated
    (it was active before the tick, or [d] is at most 0.40 km and the
    override starts on this tick), a distance was recorded for the signal
    on an earlier tick, and the primary condition holds (the minimum is at
    most 0.40 km, and [d] exceeds it by more than 0.03 km or the waypoint
    index is past the signal's nearest index, or equal to it with segment
    progress at least 0.6) or the fallback condition holds (the distance
    recorded last is at most 0.40 km, [d] is greater than it and at least
    0.15 km). A signal marked passed has its override cleared and its mode
    back to Normal; one not marked passed keeps or gets its override and
    has [d] as its last distance. Whichever rule fires, one crossing entry
    is logged, after the entries of the detection and of the override
    start of the same tick. In a state the page can reach, a signal whose
    override was active before the tick has a distance recorded: only a
    tick that starts the override can be the first to work with the
    signal. *)
Theorem crossing_rule (st0 : Sim) (r : RouteId) (i : nat) (s : Signal.t) (d : number) :
  selectedRouteId st0 = Some r → isDriving st0 = true →
  currentIndex st0 < length (Route.coords (ROUTES r)) - 1 →
  tracked M (moveAmbulance (Route.coords (ROUTES r)) st0) = Some (i, s, d) →
  ∃ s',
    signalRuntime (driveTick M st0) !! i = Some s'
    ∧ Signal.minDistance s'
      = (if (d <? Signal.minDistance s)%float then d else Signal.minDistance s)
    ∧ (Signal.passed s' = true
       ↔ (Signal.overrideActive s = true ∨ (d <=? 0.40)%float = true)
         ∧ ∃ l, Signal.lastDistance s = Some l
                ∧ (primaryCondition (Signal.minDistance s') d (Signal.nearestIndex s)
                     (currentIndex (driveTick M st0)) (segmentProgress (driveTick M st0))
                   ∨ fallbackCondition l d))
    ∧ (Signal.passed s' = true → crossed s')
    ∧ (Signal.passed s' = false →
       Signal.overrideActive s' = Signal.overrideActive s || (d <=? 0.40)%float
       ∧ Signal.state s'
         = (if negb (Signal.overrideActive s) && (d <=? 0.40)%float
            then OVERRIDE else Signal.state s)
       ∧ Signal.lastDistance s' = Some d)
    ∧ eventLog (panel (driveTick M st0))
      = (if Signal.passed s' then [LogCrossed (Signal.id s)] else [])
        ++ (if negb (Signal.overrideActive s) && (d <=? 0.40)%float
            then [LogOverrideOn (Signal.id s)] else [])
        ++ (if negb (Signal.advanceTriggered s) && (d <=? 3.0)%float
            then [LogDetection (Signal.id s)] else [])
        ++ eventLog (panel st0)
    ∧ (reachable M st0 → Signal.overrideActive s = true →
       is_Some (Signal.lastDistance s)).
Proof.
  intros Hr Hd Hi Ht.
  set (st := moveAmbulance (Route.coords (ROUTES r)) st0) in *.
  pose proof (tracked_inv M st i s d Ht) as (_ & Hs & _ & Hp).
  rewrite (driveTick_moving st0 r Hr Hd Hi). fold st.
  pose proof (trackNextSignal_session M st) as Hsess. unfold session in Hsess.
  injection Hsess as _ _ _ -> -> _.
  rewrite (trackNextSignal_log M st i s d Ht).
  replace (panel st) with (panel st0) by (symmetry; apply moveAmbulance_panel).
  destruct (before_crossing_fields d s) as (Ho3 & Hm3 & Hn3 & Hst3 & Hp3 & Hl3).
  destruct (tickSignal_fields st d s Hp) as (Hpass & Hmin & Hcr & Hkeep).
  exists (tickSignal st d s).
  split; [apply trackNextSignal_lookup, Ht|].
  split; [rewrite Hmin; exact Hm3|].
  split; [|split; [|split; [|split]]].
  - rewrite Hpass, Hmin, Hm3. rewrite <- Hm3, <- Hn3.
    unfold crossingFires. rewrite Hp3, Hp, Hl3. simpl negb. cbv iota. rewrite andb_true_l.
    destruct (Signal.lastDistance s) as [l|].
    + rewrite orb_true_iff, primaryRule_spec, fallbackRule_spec, Ho3, orb_true_iff.
      split.
      * intros [[Ho H] | [Ho H]]; (split; [exact Ho|]); exists l; auto.
      * intros (Ho & l' & [= <-] & [H | H]); auto.
    + split; [discriminate|]. intros (_ & l & Hl & _). discriminate Hl.
  - intros H. apply Hcr. rewrite <- Hpass. exact H.
  - intros H. rewrite Hpass in H. destruct (Hkeep H) as (H1 & H2 & H3).
    rewrite H1, H2, Ho3, Hst3. auto.
  - unfold tickEvents. cbv zeta. rewrite Hpass.
    assert (overrideFires d (advanceSignal d (observeMin d s))
            = negb (Signal.overrideActive s) && (d <=? 0.40)%float) as ->.
    { destruct (advanceSignal_fields d (observeMin d s)) as (Ho2 & _).
      destruct (observeMin_fields d s) as (Ho1 & _).
      unfold overrideFires. rewrite Ho2, Ho1. reflexivity. }
    assert (advanceFires d (observeMin d s)
            = negb (Signal.advanceTriggered s) && (d <=? 3.0)%float) as ->.
    { destruct (observeMin_fields d s) as (_ & _ & _ & _ & _ & Ha1).
      unfold advanceFires. rewrite Ha1. reflexivity. }
    rewrite <- !app_assoc. reflexivity.
  - intros Hreach Ho.
    pose proof (reachable_distance_recorded M st0 Hreach) as Hinv.
    rewrite Forall_forall in Hinv. apply Hinv; [|exact Ho].
    apply list_elem_of_lookup. exists i.
    unfold st in Hs. rewrite moveAmbulance_signals in Hs. exact Hs.
Qed.
End Crossing.

(** The rule at work: twenty ticks into a drive on the shortest route the
    override of S1 is active; on the next tick the measured distance exceeds
    the minimum by more than 0.03 km and the signal is crossed. *)
Lemma crossing_rule_witness :
  Signal.overrideActive (signalAt (driveAfter shortest 20) 0) = true
  ∧ crossed (signalAt (driveTick sampleMath (driveAfter shortest 20)) 0).
Proof.
  split; [vm_compute; reflexivity|].
  destruct (crossing_rule sampleMath (driveAfter shortest 20) shortest 0
              (signalAt (driveAfter shortest 20) 0)
              (distanceKm sampleMath
                 (ambulanceMarker
                    (moveAmbulance (Route.coords (ROUTES shortest)) (driveAfter shortest 20)))
                 (Signal.location (signalAt (driveAfter shortest 20) 0))))
    as (s' & Hs' & Hmin & Hiff & Hcrossed & _).
  - vm_compute. reflexivity.
  - vm_compute. reflexivity.
  - vm_compute. lia.
  - vm_compute. reflexivity.
  - unfold signalAt at 1. rewrite Hs'. apply Hcrossed, Hiff.
    split; [left; vm_compute; reflexivity|].
    eexists. split; [vm_compute; reflexivity|].
    left. rewrite Hmin. split; [vm_compute; reflexivity|].
    left. vm_compute. reflexivity.
Defined.

(** C1 as first stated fails on the first tick that works with a signal. In
    the drive of [firstSighting] the next tick moves the ambulance to the
    last waypoint index, 7, and works with S3 for the first time: no distance
    is recorded for it yet. The distance measured is below 0.40 km, so the
    override of S3 starts on this tick, and the primary condition holds (the
    minimum is that distance, and the index 7 is past the nearest index 6 of
    S3). The tick records the distance and does not mark S3 passed: it is
    left in override, and the tick after it ends the drive. *)
Lemma crossing_first_observation :
  ∃ s d,
    tracked sampleMath (moveAmbulance (Route.coords (ROUTES fastest)) firstSighting)
    = Some (2, s, d)
    ∧ Signal.id s = "S3" ∧ Signal.passed s = false ∧ Signal.lastDistance s = None
    ∧ (d <=? 0.40)%float = true
    ∧ primaryCondition (Signal.minDistance (signalAt (driveTick sampleMath firstSighting) 2))
        d (Signal.nearestIndex s)
        (currentIndex (driveTick sampleMath firstSighting))
        (segmentProgress (driveTick sampleMath firstSighting))
    ∧ Signal.overrideActive (signalAt (driveTick sampleMath firstSighting) 2) = true
    ∧ Signal.passed (signalAt (driveTick sampleMath firstSighting) 2) = false
    ∧ Signal.state (signalAt (driveTick sampleMath firstSighting) 2) = OVERRIDE
    ∧ isDriving (driveTick sampleMath (driveTick sampleMath firstSighting)) = false
    ∧ Signal.overrideActive
        (signalAt (driveTick sampleMath (driveTick sampleMath firstSighting)) 2) = true.
Proof.
  eexists _, _. split; [vm_compute; reflexivity|].
  repeat (split; [vm_compute; reflexivity|]).
  split.
  - split; [vm_compute; reflexivity|]. right. exists 6.
    split; [vm_compute; reflexivity|]. left. vm_compute. lia.
  - repeat split; vm_compute; reflexivity.
Qed.

(** ** Advance detection *)

Section AdvanceDetection.
Variable M : HostMath.


Lemma passed_frozen (st : Sim) (e : Event) (i : nat) :
  restarts e = false → passedFlag st i = true →
  signalRuntime (step M st e) !! i = signalRuntime st !! i.
Proof.
  intros He Hf. unfold passedFlag in *.
  destruct (step_signals M st e)
    as [-> | [(Hr & _) | (_ & st' & j & s & d & Ht & Hs & ->)]];
    [reflexivity|congruence|].
  apply list_lookup_alter_ne. intros ->.
  apply tracked_inv in Ht as (_ & Hi & _ & Hp). rewrite Hs in Hi.
  rewrite Hi in Hf. simpl in Hf. congruence.
Qed.




Lemma driveAfter_reachable (r : RouteId) (n : nat) :
  reachable sampleMath (driveAfter r n).
Proof.
  exists "central", 9%Z, ([PickRoute r; StartClick] ++ replicate n TimerTick).
  reflexivity.
Qed.
End AdvanceDetection.


(** ** The waypoint nearest to a signal *)

Lemma coordAt_lookup (coords : list LatLng) (i : nat) (c : LatLng) :
  coords !! i = Some c → coordAt coords i = c.
Proof. intros H. exact (f_equal (default (nan, nan)) H). Qed.

Section NearestWaypoint.
Variable M : HostMath.
Variable location : LatLng.

(** What the loop of [startEmergencyDrive] knows after the waypoints [pre]:
    none of them is below [best], and either nothing has been found below
    infinity yet, or [best] is the distance of [pre !! bestIdx] and every
    waypoint before that one is farther than [best] (or at no distance). *)
Lemma nearestLoop_invariant (rest pre : list LatLng) (best : number) (bestIdx : nat) :
  (∀ j c, pre !! j = Some c → (distanceKm M c location <? best)%float = false) →
  (best = infinity ∧ bestIdx = 0
   ∨ ∃ c, pre !! bestIdx = Some c ∧ distanceKm M c location = best
          ∧ ∀ j c', j < bestIdx → pre !! j = Some c' →
                    (distanceKm M c' location <=? best)%float = false) →
  let k := nearestLoop M location rest (length pre) best bestIdx in
  (∀ j c, (pre ++ rest) !! j = Some c →
          (distanceKm M c location
           <? distanceKm M (coordAt (pre ++ rest) k) location)%float = false)
  ∧ (∀ j c, j < k → (pre ++ rest) !! j = Some c →
            (distanceKm M c location
             <=? distanceKm M (coordAt (pre ++ rest) k) location)%float = false).
Proof.
  revert pre best bestIdx.
  induction rest as [|c rest IH]; intros pre best bestIdx Hlow Hbest; cbv zeta; simpl.
  - rewrite app_nil_r. destruct Hbest as [[-> ->] | (c & Hc & <- & Hfirst)].
    + split; [|intros j c Hj; lia].
      intros j c Hj. apply not_true_is_false. intros Hlt.
      apply FloatOrder.ltb_infinity in Hlt. rewrite (Hlow j c Hj) in Hlt. discriminate.
    + rewrite (coordAt_lookup pre bestIdx c Hc). split; [exact Hlow|exact Hfirst].
  - replace (pre ++ c :: rest) with ((pre ++ [c]) ++ rest) by (rewrite <- app_assoc; reflexivity).
    replace (S (length pre)) with (length (pre ++ [c])) by (rewrite length_app; simpl; lia).
    destruct (distanceKm M c location <? best)%float eqn:Ed.
    + apply IH.
      * intros j c' Hj. apply lookup_app_Some in Hj as [Hj | [_ Hj]].
        -- apply not_true_is_false. intros Hlt.
           pose proof (FloatOrder.ltb_trans _ _ _ Hlt Ed) as Hb.
           rewrite (Hlow j c' Hj) in Hb. discriminate.
        -- apply list_lookup_singleton_Some in Hj as [_ <-]. apply FloatOrder.ltb_irrefl.
      * right. exists c. split; [apply list_lookup_middle; reflexivity|].
        split; [reflexivity|].
        intros j c' Hlt Hj. rewrite lookup_app_l in Hj by exact Hlt.
        apply not_true_is_false. intros Hle.
        pose proof (FloatOrder.leb_ltb_trans _ _ _ Hle Ed) as Hb.
        rewrite (Hlow j c' Hj) in Hb. discriminate.
    + apply IH.
      * intros j c' Hj. apply lookup_app_Some in Hj as [Hj | [_ Hj]]; [eauto|].
        apply list_lookup_singleton_Some in Hj as [_ <-]. exact Ed.
      * destruct Hbest as [H | (c0 & Hc0 & Hd & Hfirst)]; [left; exact H|].
        right. exists c0. pose proof (lookup_lt_Some _ _ _ Hc0) as Hlt.
        split; [rewrite lookup_app_l by exact Hlt; exact Hc0|].
        split; [exact Hd|].
        intros j c' Hj Hc'. rewrite lookup_app_l in Hc' by lia. eauto.
Qed.

End NearestWaypoint.


(** ** Reset and start of a drive *)

Section ResetStart.
Variable M : HostMath.

Lemma ticks_without_timer (st : Sim) (n : nat) :
  driveTimer st = false → run M st (replicate n TimerTick) = st.
Proof.
  intros Ht. induction n as [|n IH]; [reflexivity|].
  change (run M (step M st TimerTick) (replicate n TimerTick) = st).
  simpl step. rewrite Ht. exact IH.
Qed.

Lemma driveTick_not_driving (st : Sim) : isDriving st = false → driveTick M st = st.
Proof.
  intros Hd. unfold driveTick. rewrite Hd. destruct (selectedRouteId st); reflexivity.
Qed.

Lemma resetDriveState_session (st : Sim) :
  driveTimer (resetDriveState st) = false ∧ isDriving (resetDriveState st) = false
  ∧ currentIndex (resetDriveState st) = 0
  ∧ segmentProgress (resetDriveState st) = 0%float.
Proof. destruct st as [? ? ? ? ? ? [] ? ? ? ?]; repeat split. Qed.

Lemma resetBtn_click_session (st : Sim) :
  driveTimer (resetBtn_click st) = false ∧ isDriving (resetBtn_click st) = false
  ∧ currentIndex (resetBtn_click st) = 0
  ∧ segmentProgress (resetBtn_click st) = 0%float.
Proof. destruct st as [? ? ? ? ? ? [] ? ? ? ?]; repeat split. Qed.

Lemma resetSignal_cleared (s : Signal.t) : cleared (resetSignal s).
Proof. repeat split. Qed.

(** C7. Whatever the state, [resetDriveState], and so the reset button
    which calls it, stops the timer, so that no tick runs and the position
    does not change any more; clears the runtime state of every signal
    (mode Normal, no nearest index, minimum distance infinity, no last
    distance, flags false); and puts the driving flag, the waypoint index
    and the segment progress back to false, 0 and 0. *)
Theorem reset_clears (st : Sim) :
  (driveTimer (resetDriveState st) = false
   ∧ isDriving (resetDriveState st) = false
   ∧ currentIndex (resetDriveState st) = 0
   ∧ segmentProgress (resetDriveState st) = 0%float
   ∧ signalRuntime (resetDriveState st) = resetSignal <$> signalRuntime st
   ∧ Forall cleared (signalRuntime (resetDriveState st))
   ∧ driveTick M (resetDriveState st) = resetDriveState st
   ∧ ∀ n, run M (resetDriveState st) (replicate n TimerTick) = resetDriveState st)
  ∧ (driveTimer (resetBtn_click st) = false
     ∧ isDriving (resetBtn_click st) = false
     ∧ currentIndex (resetBtn_click st) = 0
     ∧ segmentProgress (resetBtn_click st) = 0%float
     ∧ signalRuntime (resetBtn_click st) = resetSignal <$> signalRuntime st
     ∧ Forall cleared (signalRuntime (resetBtn_click st))
     ∧ driveTick M (resetBtn_click st) = resetBtn_click st
     ∧ ∀ n, run M (resetBtn_click st) (replicate n TimerTick) = resetBtn_click st).
Proof.
  split.
  - destruct (resetDriveState_session st) as (Ht & Hd & Hi & Hp).
    repeat (split; [assumption|]).
    split; [apply resetDriveState_signals|].
    split; [rewrite resetDriveState_signals; apply Forall_fmap, Forall_true;
            intros s; apply resetSignal_cleared|].
    split; [apply driveTick_not_driving, Hd|].
    intros n. apply ticks_without_timer, Ht.
  - destruct (resetBtn_click_session st) as (Ht & Hd & Hi & Hp).
    repeat (split; [assumption|]).
    split; [apply resetBtn_click_signals|].
    split; [rewrite resetBtn_click_signals; apply Forall_fmap, Forall_true;
            intros s; apply resetSignal_cleared|].
    split; [apply driveTick_not_driving, Hd|].
    intros n. apply ticks_without_timer, Ht.
Qed.

(** *** Start *)

Lemma nearestLoop_range (location : LatLng) (coords : list LatLng)
    (i : nat) (best : number) (bestIdx : nat) :
  nearestLoop M location coords i best bestIdx = bestIdx
  ∨ i ≤ nearestLoop M location coords i best bestIdx < i + length coords.
Proof.
  revert i best bestIdx. induction coords as [|c coords IH]; intros i best bestIdx; simpl.
  - left. reflexivity.
  - destruct (distanceKm M c location <? best)%float.
    + right. destruct (IH (S i) (distanceKm M c location) i) as [-> | H]; lia.
    + destruct (IH (S i) best bestIdx) as [-> | H]; [left; reflexivity|right; lia].
Qed.

Lemma prepareSignal_nearest (r : RouteId) (s : Signal.t) :
  ∃ k, Signal.nearestIndex (prepareSignal M (ROUTES r) s) = Some k
       ∧ k < length (Route.coords (ROUTES r)).
Proof.
  eexists. split; [reflexivity|].
  destruct (nearestLoop_range (Signal.location s) (Route.coords (ROUTES r)) 0 infinity 0)
    as [-> | H]; destruct r; simpl in *; lia.
Qed.

Lemma prepareSignal_nearestWaypoint (r : RouteId) (s : Signal.t) :
  ∃ k, Signal.nearestIndex (prepareSignal M (ROUTES r) (resetSignal s)) = Some k
       ∧ nearestWaypoint M (Route.coords (ROUTES r))
           (Signal.location (prepareSignal M (ROUTES r) (resetSignal s))) k.
Proof.
  destruct (prepareSignal_nearest r (resetSignal s)) as (k & Hk & Hlt).
  exists k. split; [exact Hk|]. split; [exact Hlt|].
  injection Hk as <-.
  change (Signal.location (prepareSignal M (ROUTES r) (resetSignal s)))
    with (Signal.location (resetSignal s)).
  apply (nearestLoop_invariant M (Signal.location (resetSignal s))
           (Route.coords (ROUTES r)) [] infinity 0).
  - intros j c Hj. rewrite lookup_nil in Hj. discriminate.
  - left. split; reflexivity.
Qed.

Lemma startEmergencyDrive_started (st : Sim) (r : RouteId) :
  selectedRouteId st = Some r → isDriving st = false →
  isDriving (startEmergencyDrive M st) = true
  ∧ driveTimer (startEmergencyDrive M st) = true
  ∧ currentIndex (startEmergencyDrive M st) = 0
  ∧ segmentProgress (startEmergencyDrive M st) = 0%float
  ∧ selectedRouteId (startEmergencyDrive M st) = Some r
  ∧ emergencyMode (startEmergencyDrive M st) = true
  ∧ ambulanceMarker (startEmergencyDrive M st) = coordAt (Route.coords (ROUTES r)) 0
  ∧ eventLog (panel (startEmergencyDrive M st))
    = [LogSelectedRoute (Route.name (ROUTES r)); LogDriveStarted]
  ∧ alerts (panel (startEmergencyDrive M st)) = alerts (panel st).
Proof.
  destruct st as [? ? ? ? ? ? [] ? ? ? ?]; simpl; intros -> ->; repeat split.
Qed.

Lemma startEmergencyDrive_no_route (st : Sim) :
  selectedRouteId st = None →
  startEmergencyDrive M st = withPanel (withAlerts (PROMPT :: alerts (panel st))) st.
Proof.
  intros Hr. unfold startEmergencyDrive. rewrite Hr. destruct st; reflexivity.
Qed.

Lemma prompt_only (st : Sim) (a : list string) :
  alerts (panel (withPanel (withAlerts a) st)) = a
  ∧ signalRuntime (withPanel (withAlerts a) st) = signalRuntime st
  ∧ session (withPanel (withAlerts a) st) = session st
  ∧ eventLog (panel (withPanel (withAlerts a) st)) = eventLog (panel st)
  ∧ emergencyMode (withPanel (withAlerts a) st) = emergencyMode st.
Proof. destruct st; repeat split. Qed.

Lemma startEmergencyDrive_driving (st : Sim) :
  isDriving st = true → selectedRouteId st ≠ None → startEmergencyDrive M st = st.
Proof.
  intros Hd Hr. unfold startEmergencyDrive.
  destruct (selectedRouteId st); [|congruence]. rewrite Hd. reflexivity.
Qed.

(** C8. With no route selected, starting a drive records the prompt and
    changes nothing else (no timer, driving flag, signals and the rest of
    the state as they were). With a drive running it changes nothing at
    all. With a route selected and no drive running it resets the state,
    marks the drive as running from waypoint 0, registers the timer, and
    gives every signal (its id and location kept) a fresh record whose
    nearest index is the index of the waypoint of the selected route
    nearest to the signal: no waypoint of the route is nearer, and every
    earlier waypoint is farther. *)
Theorem startEmergencyDrive_precondition (st : Sim) :
  (selectedRouteId st = None →
     startEmergencyDrive M st = withPanel (withAlerts (PROMPT :: alerts (panel st))) st
     ∧ alerts (panel (startEmergencyDrive M st)) = PROMPT :: alerts (panel st)
     ∧ signalRuntime (startEmergencyDrive M st) = signalRuntime st
     ∧ session (startEmergencyDrive M st) = session st
     ∧ eventLog (panel (startEmergencyDrive M st)) = eventLog (panel st)
     ∧ emergencyMode (startEmergencyDrive M st) = emergencyMode st)
  ∧ (isDriving st = true → selectedRouteId st ≠ None →
     startEmergencyDrive M st = st)
  ∧ (∀ r, selectedRouteId st = Some r → isDriving st = false →
       isDriving (startEmergencyDrive M st) = true
       ∧ driveTimer (startEmergencyDrive M st) = true
       ∧ currentIndex (startEmergencyDrive M st) = 0
       ∧ segmentProgress (startEmergencyDrive M st) = 0%float
       ∧ ambulanceMarker (startEmergencyDrive M st) = coordAt (Route.coords (ROUTES r)) 0
       ∧ signalRuntime (startEmergencyDrive M st)
         = (λ s, prepareSignal M (ROUTES r) (resetSignal s)) <$> signalRuntime st
       ∧ (λ s, (Signal.id s, Signal.location s)) <$> signalRuntime (startEmergencyDrive M st)
         = (λ s, (Signal.id s, Signal.location s)) <$> signalRuntime st
       ∧ Forall (λ s, fresh s
                      ∧ ∃ k, Signal.nearestIndex s = Some k
                             ∧ nearestWaypoint M (Route.coords (ROUTES r))
                                 (Signal.location s) k)
           (signalRuntime (startEmergencyDrive M st))).
Proof.
  split; [|split].
  - intros Hr. rewrite (startEmergencyDrive_no_route st Hr).
    split; [reflexivity|]. apply prompt_only.
  - apply startEmergencyDrive_driving.
  - intros r Hr Hd.
    destruct (startEmergencyDrive_started st r Hr Hd)
      as (H1 & H2 & H3 & H4 & _ & _ & H5 & _).
    repeat (split; [assumption|]).
    rewrite (startEmergencyDrive_signals M st r Hr Hd).
    split; [reflexivity|]. split.
    + rewrite <- list_fmap_compose. apply list_fmap_ext. intros _ s _.
      destruct s. reflexivity.
    + apply Forall_fmap, Forall_true. intros s.
      split; [apply prepareSignal_fresh|]. exact (prepareSignal_nearestWaypoint r s).
Qed.
End ResetStart.

Lemma startEmergencyDrive_precondition_witness :
  alerts (panel (startEmergencyDrive sampleMath (resetBtn_click (driveAfter shortest 3))))
  = [PROMPT]
  ∧ startEmergencyDrive sampleMath (driveAfter shortest 3) = driveAfter shortest 3
  ∧ isDriving (startEmergencyDrive sampleMath (loadedState sampleMath "central" 9)) = true
  ∧ currentIndex (startEmergencyDrive sampleMath (loadedState sampleMath "central" 9)) = 0.
Proof.
  split; [|split].
  - destruct (startEmergencyDrive_precondition sampleMath
                (resetBtn_click (driveAfter shortest 3))) as (H & _ & _).
    destruct H as (_ & H & _); [vm_compute; reflexivity|].
    rewrite H. vm_compute. reflexivity.
  - destruct (startEmergencyDrive_precondition sampleMath (driveAfter shortest 3))
      as (_ & H & _).
    apply H; [vm_compute; reflexivity|vm_compute; discriminate].
  - destruct (startEmergencyDrive_precondition sampleMath
                (loadedState sampleMath "central" 9)) as (_ & _ & H).
    destruct (H fastest) as (H1 & _ & H3 & _);
      [vm_compute; reflexivity|vm_compute; reflexivity|].
    split; assumption.
Defined.

(** ** Movement of the ambulance *)

Section Movement.
Variable M : HostMath.

Lemma driveTick_session (st : Sim) (r : RouteId) :
  selectedRouteId st = Some r → isDriving st = true →
  currentIndex st < lastIndex r →
  session (driveTick M st) = session (moveAmbulance (Route.coords (ROUTES r)) st).
Proof.
  intros Hr Hd Hi. rewrite (driveTick_moving M st r Hr Hd Hi).
  apply trackNextSignal_session.
Qed.

Lemma moveAmbulance_session (coords : list LatLng) (st : Sim) :
  session (moveAmbulance coords st)
  = (selectedRouteId st, isDriving st, driveTimer st,
     if (1 <=? segmentProgress st + STEP)%float
     then currentIndex st + 1 else currentIndex st,
     nextProgress (segmentProgress st),
     interpolatePoint (coordAt coords (currentIndex st))
       (coordAt coords (currentIndex st + 1)) (nextProgress (segmentProgress st))).
Proof.
  unfold moveAmbulance, nextProgress. destruct st as [? ? ? ? ? ? ? idx p ? ?]. simpl.
  destruct (1 <=? p + STEP)%float; reflexivity.
Qed.

(** What a tick of a running drive does to the session: the progress grows
    by [STEP], or the index grows by one and the progress goes back to 0;
    the marker is put between the waypoints [a] and [b] that were current
    and next when the tick began. *)
Lemma driveTick_moves (st : Sim) (r : RouteId) :
  selectedRouteId st = Some r → isDriving st = true →
  currentIndex st < lastIndex r →
  segmentProgress (driveTick M st) = nextProgress (segmentProgress st)
  ∧ currentIndex (driveTick M st)
    = (if (1 <=? segmentProgress st + STEP)%float
       then currentIndex st + 1 else currentIndex st)
  ∧ ambulanceMarker (driveTick M st)
    = interpolatePoint (coordAt (Route.coords (ROUTES r)) (currentIndex st))
        (coordAt (Route.coords (ROUTES r)) (currentIndex st + 1))
        (nextProgress (segmentProgress st))
  ∧ isDriving (driveTick M st) = true
  ∧ driveTimer (driveTick M st) = driveTimer st
  ∧ selectedRouteId (driveTick M st) = Some r.
Proof.
  intros Hr Hd Hi. pose proof (driveTick_session st r Hr Hd Hi) as Hs.
  rewrite moveAmbulance_session in Hs. unfold session in Hs.
  injection Hs as H1 H2 H3 H4 H5 H6.
  repeat split; try assumption; congruence.
Qed.

(** At the last waypoint the drive stops: the timer is cleared, the flag
    is false and nothing else of the session changes. *)
Lemma driveTick_stops (st : Sim) (r : RouteId) :
  selectedRouteId st = Some r → isDriving st = true →
  lastIndex r ≤ currentIndex st →
  driveTimer (driveTick M st) = false ∧ isDriving (driveTick M st) = false
  ∧ currentIndex (driveTick M st) = currentIndex st
  ∧ segmentProgress (driveTick M st) = segmentProgress st
  ∧ ambulanceMarker (driveTick M st) = ambulanceMarker st
  ∧ signalRuntime (driveTick M st) = signalRuntime st
  ∧ selectedRouteId (driveTick M st) = selectedRouteId st.
Proof.
  intros Hr Hd Hi. unfold driveTick. rewrite Hr, Hd. simpl negb. cbv iota zeta.
  unfold lastIndex in Hi.
  destruct (Nat.leb_spec (length (Route.coords (ROUTES r)) - 1) (currentIndex st));
    [|lia].
  clear Hd Hi. destruct st as [? ? ? ? ? ? [] ? ? ? ?]; repeat split; exact Hr.
Qed.

(** *** Bounds of the session *)

Lemma onGrid_all (P : number → Prop) :
  Forall P progressValues → ∀ p, onGrid p = true → P p.
Proof.
  intros HP p H. unfold onGrid in H.
  apply existsb_exists in H as (q & Hq & He).
  apply FloatAxioms.Leibniz.eqb_spec in He. subst q.
  rewrite Forall_forall in HP. apply HP, list_elem_of_In, Hq.
Qed.

Ltac grid_cases :=
  let l := eval vm_compute in progressValues in
  change progressValues with l;
  repeat (apply Forall_cons; split; [vm_compute; auto|]);
  apply Forall_nil; exact I.

Lemma onGrid_bounds (p : number) :
  onGrid p = true → (0 <=? p)%float = true ∧ (p <? 1)%float = true.
Proof.
  revert p.
  apply (onGrid_all (λ p, (0 <=? p)%float = true ∧ (p <? 1)%float = true)).
  grid_cases.
Qed.

Lemma onGrid_next (p : number) : onGrid p = true → onGrid (nextProgress p) = true.
Proof.
  revert p. apply (onGrid_all (λ p, onGrid (nextProgress p) = true)). grid_cases.
Qed.

Lemma sessionOk_driveTick (st : Sim) : sessionOk st → sessionOk (driveTick M st).
Proof.
  intros [Hp Hi].
  destruct (selectedRouteId st) as [r|] eqn:Hr;
    [|unfold driveTick; rewrite Hr; split; [exact Hp|intros r Hr'; congruence]].
  destruct (isDriving st) eqn:Hd;
    [|rewrite (driveTick_not_driving M st Hd); split; [exact Hp|rewrite Hr; exact Hi]].
  specialize (Hi r eq_refl).
  destruct (decide (currentIndex st < lastIndex r)) as [Hlt|Hge].
  - destruct (driveTick_moves st r Hr Hd Hlt) as (H1 & H2 & _ & _ & _ & H3).
    split; [rewrite H1; apply onGrid_next, Hp|].
    intros r'. rewrite H3, H2. intros [= <-]. case_match; lia.
  - destruct (driveTick_stops st r Hr Hd) as (_ & _ & H1 & H2 & _ & _ & H3); [lia|].
    split; [rewrite H2; exact Hp|].
    intros r'. rewrite H3, H1, Hr. intros [= <-]. exact Hi.
Qed.

Lemma sessionOk_reset (st : Sim) :
  sessionOk (resetDriveState st) ∧ sessionOk (resetBtn_click st).
Proof.
  destruct (resetDriveState_session st) as (_ & _ & Hi & Hp).
  destruct (resetBtn_click_session st) as (_ & _ & Hi' & Hp').
  unfold sessionOk. rewrite Hi, Hp, Hi', Hp'.
  split; (split; [reflexivity|intros; lia]).
Qed.

Lemma sessionOk_start (st : Sim) : sessionOk st → sessionOk (startEmergencyDrive M st).
Proof.
  intros Hok.
  destruct (selectedRouteId st) as [r|] eqn:Hr.
  - destruct (isDriving st) eqn:Hd.
    + rewrite startEmergencyDrive_driving; [exact Hok|exact Hd|congruence].
    + destruct (startEmergencyDrive_started M st r Hr Hd) as (_ & _ & Hi & Hp & _).
      unfold sessionOk. rewrite Hi, Hp. split; [reflexivity|intros; lia].
  - rewrite (startEmergencyDrive_no_route M st Hr).
    destruct Hok as [Hp Hi]. split; [exact Hp|].
    intros r Hr'. apply Hi. exact Hr'.
Qed.

(** The bounds of the drive session are kept by a tick, by a reset and by
    the start of a drive; a state within the bounds has its progress in
    [0, 1) and its index on the selected route. *)
Lemma drive_session_kept (st : Sim) (e : Event) :
  e = TimerTick ∨ e = ResetClick ∨ e = StartClick →
  sessionOk st →
  sessionOk (step M st e)
  ∧ (0 <=? segmentProgress (step M st e))%float = true
  ∧ (segmentProgress (step M st e) <? 1)%float = true.
Proof.
  intros He Hok.
  assert (sessionOk (step M st e)) as Hok'.
  { destruct He as [-> | [-> | ->]]; simpl.
    - destruct (driveTimer st); [apply sessionOk_driveTick, Hok|exact Hok].
    - apply sessionOk_reset.
    - apply sessionOk_start, Hok. }
  split; [exact Hok'|]. apply onGrid_bounds, Hok'.
Qed.
End Movement.

Section Position.
Variable M : HostMath.

(** What a tick does to the position while a drive is running. Before the
    last waypoint the progress grows by [STEP] = 200/4200, or, when the sum
    reaches 1, the index grows by one and the progress goes back to 0; the
    marker is put at the interpolation, at the new progress, between the
    waypoint that was current when the tick began and the one after it: at
    a tick that advances the index that is the waypoint the ambulance has
    left, not the new current one. At the last waypoint the tick clears
    the timer and the driving flag and changes nothing else of the
    session. *)
Lemma driveTick_position (st : Sim) (r : RouteId) :
  selectedRouteId st = Some r → isDriving st = true →
  (currentIndex st < lastIndex r →
     segmentProgress (driveTick M st)
     = (if (1 <=? segmentProgress st + STEP)%float
        then 0 else segmentProgress st + STEP)%float
     ∧ currentIndex (driveTick M st)
       = (if (1 <=? segmentProgress st + STEP)%float
          then currentIndex st + 1 else currentIndex st)
     ∧ ambulanceMarker (driveTick M st)
       = interpolatePoint (coordAt (Route.coords (ROUTES r)) (currentIndex st))
           (coordAt (Route.coords (ROUTES r)) (currentIndex st + 1))
           (segmentProgress (driveTick M st))
     ∧ isDriving (driveTick M st) = true
     ∧ driveTimer (driveTick M st) = driveTimer st)
  ∧ (lastIndex r ≤ currentIndex st →
     driveTimer (driveTick M st) = false ∧ isDriving (driveTick M st) = false
     ∧ currentIndex (driveTick M st) = currentIndex st
     ∧ segmentProgress (driveTick M st) = segmentProgress st
     ∧ ambulanceMarker (driveTick M st) = ambulanceMarker st).
Proof.
  intros Hr Hd. split; intros Hi.
  - destruct (driveTick_moves M st r Hr Hd Hi) as (H1 & H2 & H3 & H4 & H5 & _).
    rewrite H1 in *. repeat split; assumption.
  - destruct (driveTick_stops M st r Hr Hd Hi) as (H1 & H2 & H3 & H4 & H5 & _).
    repeat split; assumption.
Qed.

Lemma setSelectedRoute_session (r : RouteId) (st : Sim) :
  selectedRouteId (setSelectedRoute r st) = Some r
  ∧ isDriving (setSelectedRoute r st) = isDriving st
  ∧ driveTimer (setSelectedRoute r st) = driveTimer st
  ∧ currentIndex (setSelectedRoute r st) = currentIndex st
  ∧ segmentProgress (setSelectedRoute r st) = segmentProgress st.
Proof. destruct st as [? ? ? ? ? ? [] ? ? ? ?]; repeat split. Qed.

(** Picking a route while a drive is running keeps the waypoint index of
    the drive; when the picked route has fewer waypoints than that, the
    next tick leaves the index beyond the last waypoint of the selected
    route. *)
Lemma tick_after_reselect (st : Sim) (r : RouteId) :
  cardShown r st = true → isDriving st = true → lastIndex r < currentIndex st →
  selectedRouteId (run M st [PickRoute r; TimerTick]) = Some r
  ∧ currentIndex (run M st [PickRoute r; TimerTick]) = currentIndex st
  ∧ lastIndex r < currentIndex (run M st [PickRoute r; TimerTick]).
Proof.
  intros Hshown Hd Hi.
  destruct (setSelectedRoute_session r st) as (H1 & H2 & H3 & H4 & _).
  assert (selectedRouteId (run M st [PickRoute r; TimerTick]) = Some r
          ∧ currentIndex (run M st [PickRoute r; TimerTick]) = currentIndex st)
    as [Hs Hc].
  { assert (run M st [PickRoute r; TimerTick]
            = if driveTimer (setSelectedRoute r st)
              then driveTick M (setSelectedRoute r st) else setSelectedRoute r st) as ->.
    { unfold run. simpl. rewrite Hshown. reflexivity. }
    destruct (driveTimer (setSelectedRoute r st)); [|split; assumption].
    destruct (driveTick_stops M (setSelectedRoute r st) r)
      as (_ & _ & E1 & _ & _ & _ & E2).
    - exact H1.
    - rewrite H2. exact Hd.
    - rewrite H4. lia.
    - rewrite E1, E2. split; assumption. }
  rewrite Hc. repeat split; assumption.
Qed.
End Position.

(** C2, where the script departs from it. Twenty ticks into a drive on the
    shortest route the progress on the first segment is 20 steps; the next
    tick advances the waypoint index to 1 and resets the progress to 0, as
    stated, but puts the marker back at waypoint 0, the start of the segment
    just finished, and not at waypoint 1, which is the interpolation between
    the current waypoint and the next one at progress 0. *)
Theorem wrap_tick_marker_behind :
  currentIndex (driveAfter shortest 20) = 0
  ∧ currentIndex (driveTick sampleMath (driveAfter shortest 20)) = 1
  ∧ segmentProgress (driveTick sampleMath (driveAfter shortest 20)) = 0%float
  ∧ ambulanceMarker (driveTick sampleMath (driveAfter shortest 20))
    = coordAt (Route.coords (ROUTES shortest)) 0
  ∧ interpolatePoint (coordAt (Route.coords (ROUTES shortest)) 1)
      (coordAt (Route.coords (ROUTES shortest)) 2) 0%float
    = coordAt (Route.coords (ROUTES shortest)) 1
  ∧ ambulanceMarker (driveTick sampleMath (driveAfter shortest 20))
    ≠ coordAt (Route.coords (ROUTES shortest)) 1.
Proof.
  destruct (driveTick_position sampleMath (driveAfter shortest 20) shortest)
    as [Hm _]; [vm_compute; reflexivity|vm_compute; reflexivity|].
  destruct Hm as (Hp & Hi & Hpos & _); [vm_compute; lia|].
  assert ((1 <=? segmentProgress (driveAfter shortest 20) + STEP)%float = true) as Hw
    by (vm_compute; reflexivity).
  rewrite Hw in Hp, Hi. rewrite Hp in Hpos.
  assert (currentIndex (driveAfter shortest 20) = 0) as Hc by (vm_compute; reflexivity).
  rewrite Hc in Hi, Hpos.
  split; [exact Hc|]. split; [exact Hi|]. split; [exact Hp|].
  assert (ambulanceMarker (driveTick sampleMath (driveAfter shortest 20))
          = coordAt (Route.coords (ROUTES shortest)) 0) as Ha.
  { rewrite Hpos. vm_compute. reflexivity. }
  split; [exact Ha|]. split; [vm_compute; reflexivity|].
  rewrite Ha. intros E. apply (f_equal (λ c, PrimFloat.eqb c.1 10.9488%float)) in E.
  vm_compute in E. discriminate E.
Qed.

(** C10, where the script departs from it. A drive on the fastest route is
    at waypoint 5 after 110 ticks; the card of the shortest route, whose last
    waypoint index is 4, is then picked, and after the next tick the selected
    route is the shortest one and the waypoint index is still 5. *)
Theorem index_beyond_reselected_route :
  currentIndex (driveAfter fastest 110) = 5
  ∧ selectedRouteId
      (run sampleMath (loadedState sampleMath "central" 9) (reselectAfter 110))
    = Some shortest
  ∧ currentIndex
      (run sampleMath (loadedState sampleMath "central" 9) (reselectAfter 110))
    = 5
  ∧ lastIndex shortest = 4.
Proof.
  pose proof (tick_after_reselect sampleMath (driveAfter fastest 110) shortest) as H.
  destruct H as (Hs & Hc & _);
    [vm_compute; reflexivity|vm_compute; reflexivity|vm_compute; lia|].
  assert (run sampleMath (loadedState sampleMath "central" 9) (reselectAfter 110)
          = run sampleMath (driveAfter fastest 110) [PickRoute shortest; TimerTick]) as E.
  { unfold reselectAfter, driveAfter, run. rewrite app_assoc, foldl_app. reflexivity. }
  rewrite E, Hs, Hc. repeat split; vm_compute; reflexivity.
Qed.

(** ** Route ranking *)

Lemma adjust_cases (p : string) :
  (p = "High"
   ∧ adjust p "Low" = "Medium" ∧ adjust p "Medium" = "High" ∧ adjust p "High" = "High")
  ∨ (p = "Low"
     ∧ adjust p "Low" = "Low" ∧ adjust p "Medium" = "Medium" ∧ adjust p "High" = "Medium")
  ∨ (p ≠ "High" ∧ p ≠ "Low" ∧ ∀ b, adjust p b = b).
Proof.
  unfold adjust.
  destruct (String.eqb_spec p "High") as [->|H1]; [left; repeat split|].
  destruct (String.eqb_spec p "Low") as [->|H2]; [right; left; repeat split|].
  right. right. repeat split; assumption.
Qed.

Lemma adjust_unchanged (p b : string) :
  ¬ (p = "High" ∧ (b = "Low" ∨ b = "Medium")) → ¬ (p = "Low" ∧ b = "High") →
  adjust p b = b.
Proof.
  intros H1 H2. unfold adjust.
  destruct (String.eqb_spec p "High") as [->|Hp1]; simpl.
  - destruct (String.eqb_spec b "Low"); [tauto|].
    destruct (String.eqb_spec b "Medium"); [tauto|reflexivity].
  - destruct (String.eqb_spec p "Low") as [->|Hp2]; simpl; [|reflexivity].
    destruct (String.eqb_spec b "High"); [tauto|reflexivity].
Qed.

(** The sorted list of three cards whose labels are those the catalog can
    take: the first card has the lowest severity and stays first; the other
    two are swapped exactly when they tie and the comparator is positive. *)
Lemma sort_three (c1 c2 c3 : Card.t) :
  (Card.traffic c1 = "Medium" ∧ Card.traffic c2 = "High" ∧ Card.traffic c3 = "High")
  ∨ (Card.traffic c1 = "Low" ∧ Card.traffic c2 = "Medium" ∧ Card.traffic c3 = "Medium")
  ∨ (Card.traffic c1 = "Low" ∧ Card.traffic c2 = "Medium" ∧ Card.traffic c3 = "High") →
  sort cardAfter [c1; c2; c3]
  = if (severity (Card.traffic c2) =? severity (Card.traffic c3))%nat
       && (0 <? Card.timeMin c2 - Card.timeMin c3)%float
    then [c1; c3; c2] else [c1; c2; c3].
Proof.
  destruct c1 as [r1 d1 t1 m1], c2 as [r2 d2 t2 m2], c3 as [r3 d3 t3 m3]. simpl.
  intros [(-> & -> & ->) | [(-> & -> & ->) | (-> & -> & ->)]];
    cbv; destruct (0 <? m2 - m3)%float; reflexivity.
Qed.

Section Ranking.
Variable M : HostMath.

Lemma makeCard_fields (p : string) (r : Route.t) :
  Card.route (makeCard M p r) = r
  ∧ Card.traffic (makeCard M p r) = adjust p (Route.baseTraffic r)
  ∧ Card.distance (makeCard M p r) = polylineDistanceKm M (Route.coords r)
  ∧ Card.timeMin (makeCard M p r)
    = (Card.distance (makeCard M p r) / 35 * 60
       * multiplier (Card.traffic (makeCard M p r)))%float.
Proof. repeat split. Qed.

Lemma routeCards_labels (p : string) :
  (Card.traffic (makeCard M p (ROUTES fastest)) = "Medium"
   ∧ Card.traffic (makeCard M p (ROUTES alternative)) = "High"
   ∧ Card.traffic (makeCard M p (ROUTES shortest)) = "High")
  ∨ (Card.traffic (makeCard M p (ROUTES fastest)) = "Low"
     ∧ Card.traffic (makeCard M p (ROUTES alternative)) = "Medium"
     ∧ Card.traffic (makeCard M p (ROUTES shortest)) = "Medium")
  ∨ (Card.traffic (makeCard M p (ROUTES fastest)) = "Low"
     ∧ Card.traffic (makeCard M p (ROUTES alternative)) = "Medium"
     ∧ Card.traffic (makeCard M p (ROUTES shortest)) = "High").
Proof.
  change (Card.traffic (makeCard M p (ROUTES fastest))) with (adjust p "Low").
  change (Card.traffic (makeCard M p (ROUTES alternative))) with (adjust p "Medium").
  change (Card.traffic (makeCard M p (ROUTES shortest))) with (adjust p "High").
  destruct (adjust_cases p) as [(_ & -> & -> & ->) | [(_ & -> & -> & ->) | (_ & _ & H)]];
    [auto|auto|rewrite !H; auto].
Qed.

Lemma routeList_cases (p : string) :
  routeList M p
  = if (severity (Card.traffic (makeCard M p (ROUTES alternative)))
        =? severity (Card.traffic (makeCard M p (ROUTES shortest))))%nat
       && (0 <? Card.timeMin (makeCard M p (ROUTES alternative))
                - Card.timeMin (makeCard M p (ROUTES shortest)))%float
    then [makeCard M p (ROUTES fastest); makeCard M p (ROUTES shortest);
          makeCard M p (ROUTES alternative)]
    else [makeCard M p (ROUTES fastest); makeCard M p (ROUTES alternative);
          makeCard M p (ROUTES shortest)].
Proof. apply sort_three, routeCards_labels. Qed.

(** Whatever the prediction and the distances, the fastest route is ranked
    first. *)
Lemma routeList_head (p : string) :
  head (routeList M p) = Some (makeCard M p (ROUTES fastest)).
Proof. rewrite routeList_cases. case_match; reflexivity. Qed.

Lemma routeList_ranked (p : string) (i j : nat) (x y : Card.t) :
  i < j → routeList M p !! i = Some x → routeList M p !! j = Some y →
  rankedBefore x y.
Proof.
  rewrite routeList_cases.
  pose proof (routeCards_labels p) as Hl.
  set (c1 := makeCard M p (ROUTES fastest)) in *.
  set (c2 := makeCard M p (ROUTES alternative)) in *.
  set (c3 := makeCard M p (ROUTES shortest)) in *.
  clearbody c1 c2 c3.
  assert (severity (Card.traffic c1) < severity (Card.traffic c2)
          ∧ severity (Card.traffic c1) < severity (Card.traffic c3)
          ∧ severity (Card.traffic c2) ≤ severity (Card.traffic c3)) as (H12 & H13 & H23).
  { destruct Hl as [(-> & -> & ->) | [(-> & -> & ->) | (-> & -> & ->)]];
      cbv; repeat split; lia. }
  destruct (Nat.eqb_spec (severity (Card.traffic c2)) (severity (Card.traffic c3)))
    as [Heq|Hne]; simpl.
  - destruct (0 <? Card.timeMin c2 - Card.timeMin c3)%float eqn:Et;
      intros Hij Hi Hj;
      destruct i as [|[|[|i]]]; destruct j as [|[|[|j]]];
      try lia; simpl in Hi, Hj; try discriminate;
      injection Hi as <-; injection Hj as <-;
      try (left; lia).
    + right. split; [lia|]. apply FloatFacts.sub_pos_antisym, Et.
    + right. split; [lia|]. exact Et.
  - intros Hij Hi Hj;
      destruct i as [|[|[|i]]]; destruct j as [|[|[|j]]];
      try lia; simpl in Hi, Hj; try discriminate;
      injection Hi as <-; injection Hj as <-; left; lia.
Qed.

Lemma buildRouteCards_selects (p : string) (st : Sim) :
  selectedRouteId (buildRouteCards M p st) = Card.id <$> head (routeList M p).
Proof.
  unfold buildRouteCards. cbv zeta.
  destruct (routeList M p) as [|top rest] eqn:E.
  - pose proof (routeList_head p) as H. rewrite E in H. discriminate.
  - reflexivity.
Qed.

(** C6. The traffic label of each of the three catalog routes is its
    baseline adjusted toward the prediction (a High prediction turns Low
    into Medium and Medium into High, a Low prediction turns High into
    Medium, anything else is unchanged); its estimated time is
    distance / 35 * 60 times 1.0, 1.25 or 1.55 for Low, Medium or High; the
    ranking is a reordering of the three cards in which a card of lower
    severity stands before one of higher severity whatever the distances,
    and among equal severities a card stands before another only if the
    comparator does not find its time the greater; and the first card of
    the ranking becomes the selected route. *)
Theorem route_ranking (p : string) (st : Sim) :
  (adjust "High" "Low" = "Medium" ∧ adjust "High" "Medium" = "High"
   ∧ adjust "Low" "High" = "Medium"
   ∧ ∀ q b, ¬ (q = "High" ∧ (b = "Low" ∨ b = "Medium")) → ¬ (q = "Low" ∧ b = "High") →
            adjust q b = b)
  ∧ routeList M p ≡ₚ routeCards M p
  ∧ Forall (λ c,
             Card.traffic c = adjust p (Route.baseTraffic (Card.route c))
             ∧ Card.distance c = polylineDistanceKm M (Route.coords (Card.route c))
             ∧ Card.timeMin c
               = (Card.distance c / 35 * 60 * multiplier (Card.traffic c))%float)
      (routeList M p)
  ∧ (∀ i j x y,
       i < j → routeList M p !! i = Some x → routeList M p !! j = Some y →
       rankedBefore x y)
  ∧ selectedRouteId (buildRouteCards M p st) = Card.id <$> head (routeList M p).
Proof.
  split; [repeat split; apply adjust_unchanged|].
  split; [apply sort_perm|].
  split.
  - unfold routeList. rewrite sort_perm. unfold routeCards.
    apply Forall_fmap, Forall_true. intros r. repeat split.
  - split; [apply routeList_ranked|apply buildRouteCards_selects].
Qed.
End Ranking.

(** ** The haversine distance *)

Module FloatRange.
Import FloatFacts FloatBounds.
Local Open Scope float_scope.

(** A valid binary64 mantissa has at most 53 binary digits. *)
Lemma valid_digits (m : positive) (e : Z) :
  valid_binary (S754_finite false m e) = true → (Zdigits2 (Z.pos m) ≤ 53)%Z.
Proof.
  unfold valid_binary, bounded, canonical_mantissa, fexp, emin.
  rewrite andb_true_iff. intros [H _]. apply Z.eqb_eq in H.
  change (Zdigits2 (Z.pos m)) with (Z.pos (digits2_pos m)).
  unfold prec, emax in H. lia.
Qed.

Lemma valid_binary_sign (s : bool) (m : positive) (e : Z) :
  valid_binary (S754_finite s m e) = valid_binary (S754_finite false m e).
Proof. reflexivity. Qed.

(** A number whose absolute value is at most the positive number
    [mc * 2^ec] is below [2^(53 + ec)]. *)
Lemma leb_magnitude (x c : float) (mc : positive) (ec : Z) :
  Prim2SF c = S754_finite false mc ec →
  (abs x <=? c) = true →
  magnitude (Prim2SF x) (53 + ec).
Proof.
  intros Hc H. rewrite leb_spec, abs_spec, Hc in H.
  pose proof (Prim2SF_valid x) as Hv.
  destruct (Prim2SF x) as [s|s| |s m e]; simpl in H; try discriminate H;
    [exact I|].
  rewrite valid_binary_sign in Hv. apply valid_digits in Hv.
  unfold magnitude. unfold SFleb, SFcompare in H.
  destruct (Z.compare_spec e ec) as [E|E|E]; [lia|lia|discriminate H].
Qed.

Lemma mul_magnitude (x y : float) (Bx By : Z) :
  magnitude (Prim2SF x) Bx → magnitude (Prim2SF y) By →
  (-1074 ≤ Bx + By)%Z → (Bx + By ≤ 970)%Z →
  magnitude (Prim2SF (x * y)) (Bx + By + 1).
Proof. rewrite mul_spec. apply SFmul_magnitude. Qed.

Lemma div_magnitude (x y : float) (Bx : Z) (sy : bool) (my : positive) (ey : Z) :
  magnitude (Prim2SF x) Bx → Prim2SF y = S754_finite sy my ey →
  (-1074 ≤ Bx - ey)%Z → (Bx - ey ≤ 970)%Z →
  magnitude (Prim2SF (x / y)) (Bx - ey + 1).
Proof. rewrite div_spec. apply SFdiv_magnitude. Qed.

(** A number of bounded magnitude is neither NaN nor an infinity. *)
Lemma magnitude_finite (x : float) (B : Z) :
  magnitude (Prim2SF x) B → is_finite x = true.
Proof.
  intros H. unfold is_finite, is_nan, is_infinity.
  rewrite !FloatAxioms.eqb_spec, abs_spec.
  destruct (Prim2SF x) as [s|s| |s m e]; simpl in H; try contradiction.
  - destruct s; reflexivity.
  - unfold SFeqb, SFcompare, SFabs.
    rewrite Z.compare_refl, Pos.compare_cont_refl.
    destruct s; reflexivity.
Qed.

(** [x - x] is [+0] for every such number. *)
Lemma sub_self (x : float) (B : Z) : magnitude (Prim2SF x) B → x - x = 0.
Proof.
  intros H. apply Prim2SF_inj. rewrite sub_spec.
  destruct (Prim2SF x) as [s|s| |s m e]; simpl in H; try contradiction.
  - destruct s; reflexivity.
  - unfold SF64sub, SFsub. rewrite Z.sub_diag.
    destruct s; reflexivity.
Qed.

(** Its product with [+0] is a zero, and adding a zero to [+0] gives [+0]. *)
Lemma add_mul_zero (x : float) (B : Z) : magnitude (Prim2SF x) B → 0 + x * 0 = 0.
Proof.
  intros H. apply Prim2SF_inj. rewrite add_spec, mul_spec.
  destruct (Prim2SF x) as [s|s| |s m e]; simpl in H; try contradiction;
    destruct s; reflexivity.
Qed.
End FloatRange.

Section Haversine.
Import FloatFacts FloatRange.
Variable M : HostMath.
Local Open Scope float_scope.

Lemma toRad_opp (x : number) : toRad (- x) = - toRad x.
Proof. unfold toRad. rewrite mul_opp_l, div_opp_l. reflexivity. Qed.

(** The haversine term of a difference does not depend on its sign. *)
Lemma haversine_opp (laws : HostMathLaws M) (d : number) :
  pow M (sin M (toRad (- d) / 2)) 2 = pow M (sin M (toRad d / 2)) 2.
Proof.
  rewrite toRad_opp, div_opp_l, (sin_odd M laws), (pow_even M laws).
  reflexivity.
Qed.

Lemma haversine_swap (laws : HostMathLaws M) (x y : number) :
  pow M (sin M (toRad (y - x) / 2)) 2 = pow M (sin M (toRad (x - y) / 2)) 2.
Proof.
  destruct (sub_antisym x y) as [E|[E1 E2]].
  - rewrite E. apply haversine_opp, laws.
  - rewrite E1, E2. reflexivity.
Qed.

Lemma distanceKm_sym (laws : HostMathLaws M) (a b : LatLng) :
  distanceKm M a b = distanceKm M b a.
Proof.
  unfold distanceKm. cbv zeta.
  rewrite (haversine_swap laws a.1 b.1), (haversine_swap laws a.2 b.2).
  rewrite (mul_comm (cos M (toRad a.1)) (cos M (toRad b.1))).
  reflexivity.
Qed.

(** The latitude of a valid coordinate stays finite in radians. *)
Lemma toRad_finite (lat : number) :
  (abs lat <=? 90) = true → is_finite (toRad lat) = true.
Proof.
  intros H. unfold toRad.
  apply (magnitude_finite _ (7 + 2 + 1 - -45 + 1)).
  apply (div_magnitude _ _ _ false 6333186975989760 (-45));
    [|reflexivity|lia|lia].
  apply mul_magnitude; [| |lia|lia].
  - apply (leb_magnitude _ 90 6333186975989760 (-46)); [reflexivity|exact H].
  - vm_compute. discriminate.
Qed.

Lemma cos_square_zero (laws : HostMathLaws M) (lat : number) :
  (abs lat <=? 90) = true →
  0 + cos M (toRad lat) * cos M (toRad lat) * 0 = 0.
Proof.
  intros H. apply toRad_finite, (cos_range M laws) in H.
  apply (leb_magnitude _ 1 4503599627370496 (-52)) in H; [|reflexivity].
  apply (add_mul_zero _ (1 + 1 + 1)).
  apply mul_magnitude; [exact H|exact H|lia|lia].
Qed.

Lemma distanceKm_self (laws : HostMathLaws M) (a : LatLng) :
  validCoordinate a → distanceKm M a a = 0.
Proof.
  intros [Hlat Hlng]. unfold distanceKm. cbv zeta.
  rewrite (sub_self a.1 7), (sub_self a.2 8).
  - change (toRad 0 / 2) with 0.
    rewrite (sin_zero M laws), (pow_zero M laws), (cos_square_zero laws _ Hlat).
    rewrite (sqrt_zero M laws). change (1 - 0) with 1.
    rewrite (sqrt_one M laws), (atan2_zero M laws). reflexivity.
  - apply (leb_magnitude _ 180 6333186975989760 (-45)); [reflexivity|exact Hlng].
  - apply (leb_magnitude _ 90 6333186975989760 (-46)); [reflexivity|exact Hlat].
Qed.

(** C9. The haversine distance between two coordinates, with the Earth
    radius 6371 km, is a function of the two coordinates and of the
    host's [Math] functions alone. On a host whose functions satisfy
    [HostMathLaws] it is symmetric, [distanceKm a b = distanceKm b a] for
    all pairs of numbers, and it is [0] from a coordinate (latitude in
    [-90, 90], longitude in [-180, 180]) to itself. *)
Theorem distanceKm_algebra (laws : HostMathLaws M) :
  (∀ a b : LatLng, distanceKm M a b = distanceKm M b a)
  ∧ (∀ a : LatLng, validCoordinate a → distanceKm M a a = 0)
  ∧ (∀ a b : LatLng,
       distanceKm M a b =
       6371 * (2 * atan2 M
         (sqrt M (pow M (sin M (toRad (b.1 - a.1) / 2)) 2 +
                  cos M (toRad a.1) * cos M (toRad b.1) *
                  pow M (sin M (toRad (b.2 - a.2) / 2)) 2))
         (sqrt M (1 - (pow M (sin M (toRad (b.1 - a.1) / 2)) 2 +
                       cos M (toRad a.1) * cos M (toRad b.1) *
                       pow M (sin M (toRad (b.2 - a.2) / 2)) 2))))).
Proof.
  split; [|split].
  - intros a b. apply distanceKm_sym, laws.
  - intros a. apply distanceKm_self, laws.
  - intros a b. reflexivity.
Qed.
End Haversine.

Lemma smallAngleMath_laws : HostMathLaws smallAngleMath.
Proof.
  split; simpl; try reflexivity.
  - intros x. rewrite FloatFacts.mul_opp_l, (FloatFacts.mul_comm x (- x)),
      FloatFacts.mul_opp_l, FloatFacts.opp_involutive. reflexivity.
Qed.

Lemma distanceKm_algebra_witness :
  distanceKm smallAngleMath CITY_CENTER (10.9558, 78.0748)%float =
  distanceKm smallAngleMath (10.9558, 78.0748)%float CITY_CENTER
  ∧ distanceKm smallAngleMath CITY_CENTER CITY_CENTER = 0%float.
Proof.
  destruct (distanceKm_algebra smallAngleMath smallAngleMath_laws) as (Hs & H0 & _).
  split; [apply Hs|apply H0].
  split; reflexivity.
Defined.

(** * Further properties of the script *)

(** ** Length of a polyline *)

Section PolylineLength.
Variable M : HostMath.

Lemma polylineLoop_snoc (l : list LatLng) (a b : LatLng) (total : number) :
  polylineLoop M total (l ++ [a; b])
  = (polylineLoop M total (l ++ [a]) + distanceKm M a b)%float.
Proof.
  revert total. induction l as [|c l IH]; intros total; [reflexivity|].
  destruct l as [|c' l]; [apply (IH (total + distanceKm M c a)%float)|].
  apply (IH (total + distanceKm M c c')%float).
Qed.

(** X1. [polylineDistanceKm] of no point or of one point is 0, and a point
    more at the end adds the distance of the new last leg to the sum
    accumulated so far: the legs are added from the first to the last. *)
Theorem polylineDistanceKm_legs :
  polylineDistanceKm M [] = 0%float
  ∧ (∀ a, polylineDistanceKm M [a] = 0%float)
  ∧ (∀ l a b,
       polylineDistanceKm M (l ++ [a; b])
       = (polylineDistanceKm M (l ++ [a]) + distanceKm M a b)%float).
Proof.
  split; [reflexivity|]. split; [reflexivity|].
  intros l a b. apply polylineLoop_snoc.
Qed.
End PolylineLength.

(** ** Route suggestion and selection *)

Section Suggestion.
Variable M : HostMath.

Lemma routeList_shown (p : string) :
  omap (λ id, List.find (λ x, RouteId_eqb (Card.id x) id) (routeList M p)) renderOrder
  = [makeCard M p (ROUTES fastest); makeCard M p (ROUTES alternative);
     makeCard M p (ROUTES shortest)].
Proof. rewrite routeList_cases. case_match; reflexivity. Qed.

Lemma buildRouteCards_unfold (p : string) (st : Sim) :
  buildRouteCards M p st
  = setSelectedRoute fastest
      (withPanel (withRoutes [makeCard M p (ROUTES fastest);
                              makeCard M p (ROUTES alternative);
                              makeCard M p (ROUTES shortest)]) st).
Proof.
  unfold buildRouteCards. cbv zeta. rewrite routeList_shown.
  pose proof (routeList_head M p) as Hh.
  destruct (routeList M p) as [|top rest]; [discriminate Hh|].
  injection Hh as ->. reflexivity.
Qed.

(** X2. Whatever the predicted level and whatever distances the host's
    functions give, [buildRouteCards] shows the three cards in the order
    fastest, alternative, shortest, each with the label adjusted to the
    prediction, and selects the fastest route: its card always carries
    the least severe label, so the ranking never recommends another one.
    The start button is enabled and the marker stands at the first
    waypoint of the fastest route. *)
Theorem buildRouteCards_recommends (p : string) (st : Sim) :
  selectedRouteId (buildRouteCards M p st) = Some fastest
  ∧ Card.id <$> routes (panel (buildRouteCards M p st))
    = [fastest; alternative; shortest]
  ∧ Card.traffic <$> routes (panel (buildRouteCards M p st))
    = [adjust p "Low"; adjust p "Medium"; adjust p "High"]
  ∧ startDriveBtn_disabled (panel (buildRouteCards M p st)) = false
  ∧ ambulanceMarker (buildRouteCards M p st) = coordAt (Route.coords (ROUTES fastest)) 0
  ∧ (∀ r, cardShown r (buildRouteCards M p st) = true).
Proof.
  rewrite buildRouteCards_unfold.
  destruct st as [? ? ? [line|] ? ? ? ? ? ? ?];
    (repeat split; try reflexivity; intros []; reflexivity).
Qed.
End Suggestion.

(** X3. Selecting a route replaces an earlier selection whole: the route
    line, the marker position, the highlight and the state of the start
    button are those of the last route selected, and selecting the same
    route again changes nothing. It puts the marker at the first waypoint of
    the route and leaves the signals, the event log and the drive session
    (driving flag, timer, waypoint index, segment progress) as they are, also
    while a drive is running. *)
Theorem setSelectedRoute_last_wins (r1 r2 : RouteId) (st : Sim) :
  setSelectedRoute r2 (setSelectedRoute r1 st) = setSelectedRoute r2 st
  ∧ setSelectedRoute r1 (setSelectedRoute r1 st) = setSelectedRoute r1 st
  ∧ ambulanceMarker (setSelectedRoute r1 st) = coordAt (Route.coords (ROUTES r1)) 0
  ∧ lineCoords (setSelectedRoute r1 st) = Some (Route.coords (ROUTES r1))
  ∧ signalRuntime (setSelectedRoute r1 st) = signalRuntime st
  ∧ eventLog (panel (setSelectedRoute r1 st)) = eventLog (panel st)
  ∧ (isDriving (setSelectedRoute r1 st), driveTimer (setSelectedRoute r1 st),
     currentIndex (setSelectedRoute r1 st), segmentProgress (setSelectedRoute r1 st))
    = (isDriving st, driveTimer st, currentIndex st, segmentProgress st).
Proof.
  destruct st as [? ? ? [line|] ? ? ? ? ? ? []]; repeat split; reflexivity.
Qed.

(** ** Reset *)

Lemma resetSignal_idempotent (s : Signal.t) : resetSignal (resetSignal s) = resetSignal s.
Proof. reflexivity. Qed.

Lemma resetSignals_idempotent (l : list Signal.t) :
  resetSignal <$> (resetSignal <$> l) = resetSignal <$> l.
Proof. rewrite <- list_fmap_compose. apply list_fmap_ext. intros _ s _. reflexivity. Qed.

(** X4. Pressing reset twice is the same as pressing it once, and so is
    calling [resetDriveState] twice: the state after a reset does not depend
    on how often it was reset. *)
Theorem reset_idempotent (st : Sim) :
  resetDriveState (resetDriveState st) = resetDriveState st
  ∧ resetBtn_click (resetBtn_click st) = resetBtn_click st.
Proof.
  destruct st as [sr ? ? ? ? ? [] ? ? ? []]; split;
    cbv [resetBtn_click resetDriveState stopDriveTimer setAllSignalsNormal
         setAdvanceDetection setDistanceUI setAutoControl setEmergencyMode clearLog
         logEvent withPanel withSignalRuntime withIsDriving withCurrentIndex
         withSegmentProgress withDriveTimer withEmergencyMode withSelectedRouteId
         withSelectedRouteLine withAmbulanceMarker withSignalId withSignalMode
         withAdvanceDetection withDistanceToSignal withAutoControl withEventLog
         withPredictedTraffic withRoutes withStartDisabled
         signalRuntime currentSignalState selectedRouteId selectedRouteLine
         emergencyMode isDriving driveTimer currentIndex segmentProgress
         ambulanceMarker panel signalId signalMode advanceDetection distanceToSignal
         autoControl eventLog predictedTraffic routes startDriveBtn_disabled alerts];
    rewrite resetSignals_idempotent; reflexivity.
Qed.

(** ** Traffic prediction outside and inside the peak hours *)

Lemma jsGe_bias_cases (key : string) :
  key ∉ objectPrototypeKeys →
  ∃ b, default (Num 1%float) (getProperty biasTable key) = Num b
       ∧ (b = 1 ∨ b = 2 ∨ b = 3)%float.
Proof.
  intros Hk. rewrite (bias_own_or_default key Hk).
  destruct (biasWeight_range key) as [-> | [-> | ->]]; eauto.
Qed.

(** X5. Outside the peak hours (8 to 10 and 17 to 19) the predicted level
    is never High, whatever the key. In a peak hour it is Medium or High for
    every key but the names an object inherits from [Object.prototype], for
    which it is Low at every hour. *)
Theorem predictTrafficLevel_peak (key : string) (hour : Z) :
  (isPeakHour hour = false → predictTrafficLevel key hour ≠ "High")
  ∧ (isPeakHour hour = true →
     (predictTrafficLevel key hour = "Low" ↔ key ∈ objectPrototypeKeys))
  ∧ (key ∈ objectPrototypeKeys → predictTrafficLevel key hour = "Low").
Proof.
  destruct (decide (key ∈ objectPrototypeKeys)) as [Hin|Hout].
  - rewrite (predictTrafficLevel_inherited key hour Hin).
    split; [discriminate|]. split; [|reflexivity]. intros _. split; auto.
  - destruct (jsGe_bias_cases key Hout) as (b & Hb & Hv).
    unfold predictTrafficLevel. fold (isPeakHour hour). rewrite Hb.
    split; [|split]; [intros -> ..|intros H; contradiction];
      destruct Hv as [E | [E | E]]; rewrite E; simpl;
      try discriminate; split; try discriminate; intros H; contradiction.
Qed.

(** ** Badges *)

(** X18. Every badge the page renders for a traffic level has the class of
    that level, never the neutral one: the badge of a prediction, whatever
    the key and the hour, and the badge of every route card, whatever the
    prediction; the three levels have three different classes. *)
Theorem badges_show_levels :
  (∀ key hour,
     trafficBadgeClass (predictTrafficLevel key hour)
     ∈ ["badge badge--low"; "badge badge--med"; "badge badge--high"])
  ∧ (∀ M p c, c ∈ routeList M p →
       trafficBadgeClass (Card.traffic c)
       ∈ ["badge badge--low"; "badge badge--med"; "badge badge--high"])
  ∧ (∀ level, trafficBadgeClass level = "badge badge--neutral"
              ↔ level ≠ "Low" ∧ level ≠ "Medium" ∧ level ≠ "High").
Proof.
  split; [|split].
  - intros key hour.
    destruct (predictTrafficLevel_values key hour) as [-> | [-> | ->]];
      unfold trafficBadgeClass; simpl; set_solver.
  - intros M p c Hc. unfold routeList in Hc. rewrite sort_perm in Hc.
    unfold routeCards in Hc.
    assert (Card.traffic c = "Low" ∨ Card.traffic c = "Medium" ∨ Card.traffic c = "High")
      as Ht;
      [|destruct Ht as [E | [E | E]]; rewrite E; unfold trafficBadgeClass; simpl;
        rewrite !elem_of_cons; auto].
    rewrite !fmap_cons, !elem_of_cons, fmap_nil, elem_of_nil in Hc.
    destruct (routeCards_labels M p) as [(H1 & H2 & H3) | [(H1 & H2 & H3) | (H1 & H2 & H3)]];
      destruct Hc as [E | [E | [E | []]]]; rewrite E; auto.
  - intros level. unfold trafficBadgeClass.
    destruct (String.eqb_spec level "Low") as [->|H1];
      [split; [discriminate|intros (H & _); congruence]|].
    destruct (String.eqb_spec level "Medium") as [->|H2];
      [split; [discriminate|intros (_ & H & _); congruence]|].
    destruct (String.eqb_spec level "High") as [->|H3];
      [split; [discriminate|intros (_ & _ & H); congruence]|].
    split; auto.
Qed.

(** X6. The nearest waypoint index that [startEmergencyDrive] computes for a
    signal is the index of a waypoint of least distance to the signal: no
    waypoint of the route is nearer, and every earlier waypoint is farther
    (so among waypoints at the same least distance the first is taken). The
    index is on the route. *)
Theorem nearestIndex_minimal (M : HostMath) (route : Route.t) (s : Signal.t) :
  ∃ k, Signal.nearestIndex (prepareSignal M route s) = Some k
       ∧ (Route.coords route ≠ [] → k < length (Route.coords route))
       ∧ (∀ j c, Route.coords route !! j = Some c →
                 (distanceKm M c (Signal.location s)
                  <? distanceKm M (coordAt (Route.coords route) k) (Signal.location s))%float
                 = false)
       ∧ (∀ j c, j < k → Route.coords route !! j = Some c →
                 (distanceKm M c (Signal.location s)
                  <=? distanceKm M (coordAt (Route.coords route) k) (Signal.location s))%float
                 = false).
Proof.
  eexists. split; [reflexivity|]. split.
  - intros Hne.
    destruct (nearestLoop_range M (Signal.location s) (Route.coords route) 0 infinity 0)
      as [-> | H]; [|lia].
    destruct (Route.coords route); [congruence|simpl; lia].
  - apply (nearestLoop_invariant M (Signal.location s) (Route.coords route) [] infinity 0).
    + intros j c Hj. rewrite lookup_nil in Hj. discriminate.
    + left. split; reflexivity.
Qed.

(** ** Invariants of the signal records in every state of the page *)

Lemma recordOk_resetSignal (s : Signal.t) :
  recordOk (resetSignal s) ∧ lastNotBelowMin (resetSignal s).
Proof.
  split; [|intros l H; discriminate H].
  unfold recordOk. simpl.
  split; [reflexivity|]. split; [split; discriminate|]. split; [discriminate|].
  split; [intros [H|H]; discriminate H|reflexivity].
Qed.

Lemma recordOk_prepareSignal (M : HostMath) (r : Route.t) (s : Signal.t) :
  recordOk (prepareSignal M r s) ∧ lastNotBelowMin (prepareSignal M r s).
Proof.
  split; [|intros l H; discriminate H].
  unfold recordOk. simpl.
  split; [reflexivity|]. split; [split; discriminate|]. split; [discriminate|].
  split; [intros [H|H]; discriminate H|reflexivity].
Qed.

(** The record once the minimum is updated and the advance and override
    handlers have run. *)
Lemma recordOk_before_crossing (d : number) (s : Signal.t) :
  recordOk s → Signal.passed s = false →
  recordOk (overrideSignal d (advanceSignal d (observeMin d s)))
  ∧ (d <? Signal.minDistance (overrideSignal d (advanceSignal d (observeMin d s))))%float
    = false.
Proof.
  destruct s as [id loc mk stt ni mn ld adv ovr ps].
  unfold recordOk. simpl. intros (Hm & Hos & Hp & Hc & Hn) ->.
  assert ((d <=? OVERRIDE_START_KM)%float = true →
          (d <=? ADVANCE_DETECTION_KM)%float = true) as H43.
  { intros H. apply (FloatOrder.leb_trans _ _ _ H). reflexivity. }
  assert ((d <=? OVERRIDE_START_KM)%float = true →
          (Signal.minDistance (observeMin d (Signal.mk id loc mk stt ni mn ld adv ovr false))
           <=? OVERRIDE_START_KM)%float = true) as Hmin.
  { intros H. unfold observeMin. simpl. destruct (d <? mn)%float eqn:E; simpl; [exact H|].
    apply (FloatOrder.leb_trans _ d); [|exact H].
    apply FloatOrder.nltb_leb; [|apply (FloatOrder.leb_number _ _ H)|exact E].
    apply (FloatOrder.leb_number _ _ Hn). }
  assert ((Signal.minDistance (observeMin d (Signal.mk id loc mk stt ni mn ld adv ovr false))
           <=? infinity)%float = true
          ∧ (ovr = true → (Signal.minDistance
                             (observeMin d (Signal.mk id loc mk stt ni mn ld adv ovr false))
                           <=? OVERRIDE_START_KM)%float = true)
          ∧ (d <? Signal.minDistance
                    (observeMin d (Signal.mk id loc mk stt ni mn ld adv ovr false)))%float
            = false) as (Hn1 & Hc1 & Hd1).
  { unfold observeMin. simpl. destruct (d <? mn)%float eqn:E; simpl.
    - split; [apply FloatOrder.ltb_leb, (FloatOrder.ltb_infinity _ _ E)|].
      split; [|apply FloatOrder.ltb_irrefl].
      intros Ho. destruct Hc as [_ Hc]; [auto|].
      apply FloatOrder.ltb_leb, (FloatOrder.ltb_leb_trans _ _ _ E Hc).
    - split; [exact Hn|]. split; [|exact E].
      intros Ho. apply Hc. auto. }
  revert Hmin Hn1 Hc1 Hd1.
  unfold overrideSignal, overrideFires, advanceSignal, advanceFires, observeMin. simpl.
  set (mn' := if (d <? mn)%float then d else mn).
  replace (Signal.minDistance
             (if (d <? mn)%float
              then SignalSet.minDistance d (Signal.mk id loc mk stt ni mn ld adv ovr false)
              else Signal.mk id loc mk stt ni mn ld adv ovr false)) with mn'
    by (unfold mn'; destruct (d <? mn)%float; reflexivity).
  intros Hmin Hn1 Hc1 Hd1.
  destruct (d <? mn)%float; simpl;
    destruct adv; simpl;
    destruct (d <=? ADVANCE_DETECTION_KM)%float eqn:E3; simpl;
    destruct ovr; simpl;
    destruct (d <=? OVERRIDE_START_KM)%float eqn:E4; simpl;
    (split; [|exact Hd1]);
    repeat split; try (intros; congruence); try tauto;
    try (intros [H|H]; try discriminate H);
    try (apply Hos; reflexivity); try (apply Hos; assumption);
    try (destruct Hc as [Hc _]; [auto|congruence]);
    try (apply Hmin; reflexivity); try (apply Hc1; reflexivity);
    try (specialize (H43 eq_refl); congruence); try exact Hn1;
    try (unfold mn' in *; specialize (Hc1 eq_refl); congruence).
Qed.

Lemma crossingFires_override (st : Sim) (d : number) (s : Signal.t) :
  crossingFires st d s = true → Signal.overrideActive s = true.
Proof.
  unfold crossingFires, primaryRule, fallbackRule.
  destruct (Signal.overrideActive s); [reflexivity|].
  destruct (Signal.passed s), (Signal.lastDistance s); simpl; discriminate.
Qed.

Lemma recordOk_tickSignal (st : Sim) (d : number) (s : Signal.t) :
  recordOk s → Signal.passed s = false →
  recordOk (tickSignal st d s) ∧ lastNotBelowMin (tickSignal st d s).
Proof.
  intros Hok Hp.
  destruct (recordOk_before_crossing d s Hok Hp) as [Hok3 Hd3].
  pose proof (passed_before_crossing d s) as Hp3. rewrite Hp in Hp3.
  unfold tickSignal, crossingSignal.
  set (s3 := overrideSignal d (advanceSignal d (observeMin d s))) in *.
  rewrite Hp3.
  destruct (crossingFires st d s3) eqn:Ec.
  - apply crossingFires_override in Ec.
    destruct Hok3 as (Hm & Hos & Hpo & Hc & Hn).
    destruct Hc as [Ha Hmin]; [auto|].
    destruct s3 as [id loc mk stt ni mn ld adv ovr ps]. simpl in *.
    split; [|intros l [= <-]; exact Hd3].
    unfold recordOk. simpl.
    split; [reflexivity|]. split; [split; discriminate|]. split; [reflexivity|].
    split; [intros _; split; assumption|exact Hn].
  - destruct s3 as [id loc mk stt ni mn ld adv ovr ps]. simpl in *.
    split; [exact Hok3|intros l [= <-]; exact Hd3].
Qed.

Lemma signalDef_tickSignal (st : Sim) (d : number) (s : Signal.t) :
  signalDef (tickSignal st d s) = signalDef s.
Proof.
  unfold tickSignal, crossingSignal, crossedSignal, overrideSignal, advanceSignal, observeMin.
  repeat case_match; reflexivity.
Qed.

Section RecordInvariants.
Variable M : HostMath.

(** What an event does to the list of records: nothing, a reset of every
    record, a reset and preparation of every record for a route, or a
    tick's update of the record of the tracked signal. *)
Lemma step_signals_shape (st : Sim) (e : Event) :
  signalRuntime (step M st e) = signalRuntime st
  ∨ signalRuntime (step M st e) = resetSignal <$> signalRuntime st
  ∨ (∃ r, signalRuntime (step M st e)
          = (λ s, prepareSignal M (ROUTES r) (resetSignal s)) <$> signalRuntime st)
  ∨ (∃ st' i s d,
       tracked M st' = Some (i, s, d)
       ∧ signalRuntime st !! i = Some s
       ∧ signalRuntime (step M st e) = alter (tickSignal st' d) i (signalRuntime st)).
Proof.
  destruct e; simpl.
  - left. unfold suggestRouteBtn_click. cbv zeta. rewrite buildRouteCards_signals. reflexivity.
  - left. destruct (cardShown routeId st); [apply setSelectedRoute_signals|reflexivity].
  - destruct (selectedRouteId st) as [r|] eqn:Er;
      [|left; unfold startEmergencyDrive; rewrite Er; reflexivity].
    destruct (isDriving st) eqn:Ed;
      [left; unfold startEmergencyDrive; rewrite Er, Ed; reflexivity|].
    right. right. left. exists r. apply startEmergencyDrive_signals; assumption.
  - right. left. apply resetBtn_click_signals.
  - left. reflexivity.
  - destruct (driveTimer st); [|left; reflexivity].
    destruct (driveTick_cases M st) as [-> | [-> | (r & Hr & Hd & Hi & ->)]].
    + left. reflexivity.
    + left. unfold stopDriveTimer. destruct (driveTimer st); reflexivity.
    + rewrite trackNextSignal_signals.
      destruct (tracked M _) as [[[i s] d]|] eqn:Et.
      2: { left. apply moveAmbulance_signals. }
      rewrite moveAmbulance_signals.
      right. right. right.
      exists (moveAmbulance (Route.coords (ROUTES r)) st), i, s, d.
      split; [exact Et|]. split; [|reflexivity].
      apply tracked_inv in Et as (_ & Hs & _). rewrite moveAmbulance_signals in Hs.
      exact Hs.
Qed.

Lemma step_recordOk (st : Sim) (e : Event) :
  Forall (λ s, recordOk s ∧ lastNotBelowMin s) (signalRuntime st) →
  Forall (λ s, recordOk s ∧ lastNotBelowMin s) (signalRuntime (step M st e)).
Proof.
  intros IH.
  destruct (step_signals_shape st e)
    as [-> | [-> | [(r & ->) | (st' & i & s & d & Ht & Hs & ->)]]].
  - exact IH.
  - apply Forall_fmap, Forall_true. intros s. exact (recordOk_resetSignal s).
  - apply Forall_fmap, Forall_true. intros s.
    exact (recordOk_prepareSignal M (ROUTES r) (resetSignal s)).
  - apply tracked_inv in Ht as (_ & _ & _ & Hp).
    apply Forall_forall. intros x Hx.
    apply list_elem_of_lookup in Hx as (j & Hj).
    rewrite list_lookup_alter in Hj. rewrite Forall_forall in IH.
    destruct (decide (i = j)) as [<-|Hne].
    + rewrite Hs in Hj. injection Hj as <-.
      apply recordOk_tickSignal; [|exact Hp].
      apply IH, list_elem_of_lookup. eauto.
    + apply IH, list_elem_of_lookup. eauto.
Qed.

Lemma step_signalDefs (st : Sim) (e : Event) :
  signalDef <$> signalRuntime (step M st e) = signalDef <$> signalRuntime st.
Proof.
  destruct (step_signals_shape st e)
    as [-> | [-> | [(r & ->) | (st' & i & s & d & Ht & Hs & ->)]]].
  - reflexivity.
  - rewrite <- list_fmap_compose. apply list_fmap_ext. intros _ s _. reflexivity.
  - rewrite <- list_fmap_compose. apply list_fmap_ext. intros _ s _. reflexivity.
  - apply list_eq. intros j. rewrite !list_lookup_fmap, list_lookup_alter.
    destruct (decide (i = j)) as [<-|_]; [|reflexivity].
    rewrite Hs. simpl. f_equal. apply signalDef_tickSignal.
Qed.

Lemma reachable_records (st : Sim) :
  reachable M st →
  signalDef <$> signalRuntime st = SIGNAL_DEFS
  ∧ Forall (λ s, recordOk s ∧ lastNotBelowMin s) (signalRuntime st).
Proof.
  revert st. apply reachable_ind.
  - intros k h. rewrite loadedState_signals. split; [reflexivity|].
    apply Forall_fmap, Forall_true. intros s.
    exact (recordOk_resetSignal s).
  - intros st e _ [IH1 IH2]. split.
    + rewrite step_signalDefs. exact IH1.
    + apply step_recordOk, IH2.
Qed.

(** X7. In every state the page can reach, the signals are the three of
    [SIGNAL_DEFS], in their order, and every record is consistent: the icon
    shows the mode; the mode is Override exactly while the override flag is
    set; a passed signal is not in override; a signal in override or passed
    has had its advance detection triggered and the ambulance within
    0.40 km; the minimum distance is a number, and the distance recorded
    last is not below it. *)
Theorem signal_records_consistent (st : Sim) :
  reachable M st →
  signalDef <$> signalRuntime st = SIGNAL_DEFS
  ∧ Forall (λ s, recordOk s ∧ lastNotBelowMin s) (signalRuntime st).
Proof. apply reachable_records. Qed.

(** X17. In every state the page can reach, the icon of a signal has its
    green lamp lit and its red lamp dark exactly while the override of the
    signal is active, and its red lamp lit and its green lamp dark
    otherwise; a passed signal shows red. *)
Theorem lamps_follow_override (st : Sim) (i : nat) (s : Signal.t) :
  reachable M st → signalRuntime st !! i = Some s →
  signalIcon s
  = (if Signal.overrideActive s
     then ("#7f1d1d", "#f59e0b", "#22c55e")
     else ("#ef4444", "#f59e0b", "#14532d"))
  ∧ (Signal.passed s = true → signalIcon s = ("#ef4444", "#f59e0b", "#14532d")).
Proof.
  intros Hr Hs. destruct (reachable_records st Hr) as [_ Hall].
  rewrite Forall_forall in Hall.
  destruct (Hall s) as [(Hm & Hos & Hp & _) _];
    [apply list_elem_of_lookup; eauto|].
  assert (signalIcon s
          = if Signal.overrideActive s
            then ("#7f1d1d", "#f59e0b", "#22c55e")
            else ("#ef4444", "#f59e0b", "#14532d")) as Hicon.
  { unfold signalIcon. rewrite Hm.
    destruct (Signal.overrideActive s).
    - rewrite (proj1 Hos eq_refl). reflexivity.
    - destruct (Signal.state s); [reflexivity|].
      destruct Hos as [_ Hos]. discriminate (Hos eq_refl). }
  split; [exact Hicon|].
  intros Hpassed. rewrite Hicon, (Hp Hpassed). reflexivity.
Qed.
End RecordInvariants.

Lemma signal_records_consistent_witness :
  signalDef <$> signalRuntime (driveAfter shortest 30) = SIGNAL_DEFS
  ∧ Forall (λ s, recordOk s ∧ lastNotBelowMin s) (signalRuntime (driveAfter shortest 30)).
Proof.
  apply (signal_records_consistent sampleMath), driveAfter_reachable.
Defined.

(** The icon of S1, in override twenty ticks into a drive on the shortest
    route. *)
Lemma lamps_follow_override_witness :
  Signal.overrideActive (signalAt (driveAfter shortest 20) 0) = true
  ∧ signalIcon (signalAt (driveAfter shortest 20) 0) = ("#7f1d1d", "#f59e0b", "#22c55e").
Proof.
  split; [vm_compute; reflexivity|].
  destruct (lamps_follow_override sampleMath (driveAfter shortest 20) 0
              (signalAt (driveAfter shortest 20) 0)) as [H _].
  - apply driveAfter_reachable.
  - vm_compute. reflexivity.
  - rewrite H. vm_compute. reflexivity.
Defined.

(** ** One drive: what happens once, and what stays *)

Lemma overrideActive_tickSignal (st : Sim) (d : number) (s : Signal.t) :
  Signal.passed s = false →
  Signal.overrideActive (tickSignal st d s)
  = (Signal.overrideActive s || (d <=? OVERRIDE_START_KM)%float)
    && negb (crossingFires st d (overrideSignal d (advanceSignal d (observeMin d s)))).
Proof.
  intros Hp. unfold tickSignal, crossingSignal.
  rewrite passed_before_crossing, Hp.
  set (s3 := overrideSignal d (advanceSignal d (observeMin d s))).
  assert (Signal.overrideActive s3
          = Signal.overrideActive s || (d <=? OVERRIDE_START_KM)%float) as <-.
  { unfold s3, overrideSignal, overrideFires, advanceSignal, observeMin.
    destruct s as [? ? ? ? ? ? ? adv ovr ?]; simpl.
    destruct (d <? _)%float; simpl; destruct (advanceFires _ _); simpl;
      destruct ovr; simpl; destruct (d <=? OVERRIDE_START_KM)%float; reflexivity. }
  destruct (crossingFires st d s3); simpl.
  - rewrite andb_false_r. reflexivity.
  - rewrite andb_true_r. reflexivity.
Qed.

Section OneDrive.
Variable M : HostMath.

(** X9. Once a signal is passed its record does not change any more until
    a drive is started or a reset is made: neither ticks nor route picks,
    suggestions or the emergency switch touch it, so it stays passed, out
    of override and in Normal mode. *)
Theorem passed_stays (st : Sim) (es : list Event) (i : nat) :
  Forall (λ e, restarts e = false) es → passedFlag st i = true →
  signalRuntime (run M st es) !! i = signalRuntime st !! i.
Proof.
  intros Hes. revert st. induction Hes as [|e es He _ IH]; intros st Hp; [reflexivity|].
  pose proof (passed_frozen M st e i He Hp) as Hsame.
  change (run M st (e :: es)) with (run M (step M st e) es).
  rewrite IH; [exact Hsame|]. unfold passedFlag in *. rewrite Hsame. exact Hp.
Qed.
End OneDrive.

(** S1 is passed 21 ticks into a drive on the shortest route; forty ticks
    later its record is the same. *)
Lemma passed_stays_witness :
  passedFlag (driveAfter shortest 21) 0 = true
  ∧ signalRuntime (run sampleMath (driveAfter shortest 21) (replicate 40 TimerTick)) !! 0
    = signalRuntime (driveAfter shortest 21) !! 0.
Proof.
  split; [vm_compute; reflexivity|].
  apply (passed_stays sampleMath (driveAfter shortest 21) (replicate 40 TimerTick) 0).
  - apply Forall_replicate. reflexivity.
  - vm_compute. reflexivity.
Defined.

(** ** The page after a tick *)

Section TickPanel.
Variable M : HostMath.

Lemma trackNextSignal_panel (st : Sim) (i : nat) (s : Signal.t) (d : number) :
  tracked M st = Some (i, s, d) →
  panel (trackNextSignal M st) = tickPanel st d s (panel st).
Proof.
  intros Ht. apply tracked_inv in Ht as (Hg & Hs & Hd & Hp).
  unfold trackNextSignal. cbv zeta. rewrite Hg, Hs, <- Hd.
  set (stA := if (d <? Signal.minDistance s)%float
              then updSignal i (SignalSet.minDistance d) st else st).
  assert (signalRuntime stA !! i = Some (observeMin d s)) as HA.
  { unfold stA, observeMin. destruct (d <? Signal.minDistance s)%float.
    - apply lookup_updSignal, Hs.
    - exact Hs. }
  assert (panel stA = panel st) as HpA.
  { unfold stA. destruct (d <? Signal.minDistance s)%float; reflexivity. }
  assert (session stA = session st) as HsessA.
  { unfold stA. destruct (d <? Signal.minDistance s)%float; reflexivity. }
  set (stB := withPanel (withSignalMode (Signal.state s))
                (withPanel (withSignalId (Some (Signal.id s))) (setDistanceUI d stA))).
  assert (signalRuntime stB !! i = Some (observeMin d s)) as HB by exact HA.
  assert (panel stB
          = withSignalMode (Signal.state s)
              (withSignalId (Some (Signal.id s)) (withDistanceToSignal d (panel st))))
    as HpB.
  { unfold stB. simpl. rewrite HpA. reflexivity. }
  assert (session stB = session st) as HsessB by exact HsessA.
  clearbody stB. clear HA HpA HsessA. clearbody stA.
  set (s1 := observeMin d s) in *.
  set (stC := handleAdvanceDetectionFor i d stB).
  assert (signalRuntime stC !! i = Some (advanceSignal d s1)) as HC.
  { unfold stC. rewrite handleAdvanceDetectionFor_signals, list_lookup_alter_eq, HB.
    reflexivity. }
  assert (panel stC
          = if advanceFires d s1 then showDetection (Signal.id s) (panel stB)
            else panel stB) as HpC.
  { unfold stC. rewrite (handleAdvanceDetectionFor_panel i d stB s1 HB).
    assert (Signal.id s1 = Signal.id s) as -> by apply id_observeMin.
    reflexivity. }
  assert (session stC = session st) as HsessC.
  { unfold stC. rewrite handleAdvanceDetectionFor_session. exact HsessB. }
  clearbody stC. clear HB HsessB.
  set (s2 := advanceSignal d s1) in *.
  set (stD := handleSignalOverrideFor i d stC).
  assert (signalRuntime stD !! i = Some (overrideSignal d s2)) as HD.
  { unfold stD. rewrite handleSignalOverrideFor_signals, list_lookup_alter_eq, HC.
    reflexivity. }
  assert (panel stD
          = if overrideFires d s2 then showOverride (Signal.id s) (panel stC)
            else panel stC) as HpD.
  { unfold stD. rewrite (handleSignalOverrideFor_panel i d stC s2 HC).
    assert (Signal.id s2 = Signal.id s) as ->
      by (unfold s2, s1; rewrite id_advanceSignal; apply id_observeMin).
    reflexivity. }
  assert (session stD = session st) as HsessD.
  { unfold stD. rewrite handleSignalOverrideFor_session. exact HsessC. }
  clearbody stD.
  set (s3 := overrideSignal d s2) in *.
  rewrite (handleAfterCrossingFor_panel i d stD s3 HD).
  assert (crossingFires stD d s3 = crossingFires st d s3) as ->.
  { apply session_motion in HsessD as [H1 H2].
    unfold crossingFires, primaryRule.
    rewrite (passedIndex_ext s3 stD st H1 H2). reflexivity. }
  assert (Signal.id s3 = Signal.id s) as ->.
  { unfold s3, s2, s1. rewrite id_overrideSignal, id_advanceSignal, id_observeMin.
    reflexivity. }
  unfold tickPanel. cbv zeta. fold s1. fold s2. fold s3.
  rewrite HpD, HpC, HpB. reflexivity.
Qed.
End TickPanel.

Lemma state_tickSignal (st : Sim) (d : number) (s : Signal.t) :
  Signal.passed s = false →
  Signal.state (tickSignal st d s)
  = if crossingFires st d (overrideSignal d (advanceSignal d (observeMin d s)))
    then NORMAL
    else if overrideFires d (advanceSignal d (observeMin d s)) then OVERRIDE
         else Signal.state s.
Proof.
  intros Hp. unfold tickSignal, crossingSignal.
  rewrite passed_before_crossing, Hp.
  destruct (crossingFires st d _); [reflexivity|].
  unfold overrideSignal.
  destruct (overrideFires d _); [reflexivity|].
  unfold advanceSignal, observeMin. repeat case_match; reflexivity.
Qed.

Lemma tickPanel_status (st : Sim) (d : number) (s : Signal.t) (p : Panel) :
  signalId (tickPanel st d s p) = Some (Signal.id s)
  ∧ distanceToSignal (tickPanel st d s p) = d
  ∧ signalMode (tickPanel st d s p)
    = (if crossingFires st d (overrideSignal d (advanceSignal d (observeMin d s)))
       then NORMAL
       else if overrideFires d (advanceSignal d (observeMin d s)) then OVERRIDE
            else Signal.state s)
  ∧ advanceDetection (tickPanel st d s p)
    = (if crossingFires st d (overrideSignal d (advanceSignal d (observeMin d s)))
       then false
       else advanceFires d (observeMin d s) || advanceDetection p)
  ∧ autoControl (tickPanel st d s p)
    = (if crossingFires st d (overrideSignal d (advanceSignal d (observeMin d s)))
       then false
       else advanceFires d (observeMin d s) || autoControl p).
Proof.
  unfold tickPanel. cbv zeta.
  destruct (crossingFires st d _), (overrideFires d _), (advanceFires d _);
    destruct p; repeat split.
Qed.

Lemma tickPanel_log (st : Sim) (d : number) (s : Signal.t) (p : Panel) :
  eventLog (tickPanel st d s p) = tickEvents st d s ++ eventLog p.
Proof.
  unfold tickPanel, tickEvents. cbv zeta.
  destruct (crossingFires st d _), (overrideFires d _), (advanceFires d _);
    destruct p; reflexivity.
Qed.

Section StatusPanel.
Variable M : HostMath.

Lemma trackNextSignal_idle (st : Sim) :
  tracked M st = None →
  signalId (panel (trackNextSignal M st)) = None
  ∧ signalMode (panel (trackNextSignal M st)) = NORMAL
  ∧ PrimFloat.is_nan (distanceToSignal (panel (trackNextSignal M st))) = true
  ∧ eventLog (panel (trackNextSignal M st)) = eventLog (panel st)
  ∧ signalRuntime (trackNextSignal M st) = signalRuntime st.
Proof.
  intros Ht. unfold tracked in Ht. unfold trackNextSignal. cbv zeta.
  destruct (getNextSignal st) as [i|] eqn:Eg.
  - apply getNextSignal_candidate in Eg as (n & s & Hs & _).
    rewrite Hs in Ht. discriminate.
  - destruct st as [? ? ? ? ? ? ? ? ? ? []]. repeat split.
Qed.

(** X10. After a tick that moves the ambulance, the status panel shows the
    signal the tick worked with: its id, the distance just measured from
    the marker to it, and the mode its record has after the tick (Normal
    after a crossing, Override after the start of an override); the
    advance-detection and auto-control indicators are off after a crossing
    and on after a detection. When no signal is left to work with, the
    panel shows no id, Normal mode and no distance, and no record
    changes. *)
Theorem status_after_tick (st0 : Sim) (r : RouteId) :
  selectedRouteId st0 = Some r → isDriving st0 = true →
  currentIndex st0 < lastIndex r →
  match tracked M (moveAmbulance (Route.coords (ROUTES r)) st0) with
  | Some (i, s, d) =>
      ∃ s', signalRuntime (driveTick M st0) !! i = Some s'
            ∧ signalId (panel (driveTick M st0)) = Some (Signal.id s')
            ∧ signalMode (panel (driveTick M st0)) = Signal.state s'
            ∧ distanceToSignal (panel (driveTick M st0)) = d
            ∧ d = distanceKm M (ambulanceMarker (driveTick M st0)) (Signal.location s')
            ∧ (Signal.passed s' = true →
               advanceDetection (panel (driveTick M st0)) = false
               ∧ autoControl (panel (driveTick M st0)) = false)
            ∧ (Signal.passed s' = false → advanceFires d (observeMin d s) = true →
               advanceDetection (panel (driveTick M st0)) = true
               ∧ autoControl (panel (driveTick M st0)) = true)
  | None =>
      signalId (panel (driveTick M st0)) = None
      ∧ signalMode (panel (driveTick M st0)) = NORMAL
      ∧ PrimFloat.is_nan (distanceToSignal (panel (driveTick M st0))) = true
      ∧ signalRuntime (driveTick M st0) = signalRuntime st0
  end.
Proof.
  intros Hr Hd Hi. rewrite (driveTick_moving M st0 r Hr Hd Hi).
  set (st := moveAmbulance (Route.coords (ROUTES r)) st0).
  destruct (tracked M st) as [[[i s] d]|] eqn:Et.
  - pose proof (tracked_inv M st i s d Et) as (_ & Hs & Hdist & Hp).
    exists (tickSignal st d s).
    rewrite (trackNextSignal_panel M st i s d Et).
    destruct (tickPanel_status st d s (panel st)) as (H1 & H2 & H3 & H4 & H5).
    pose proof (signalDef_tickSignal st d s) as Hdef. injection Hdef as Hid Hloc.
    split; [apply trackNextSignal_lookup, Et|].
    split; [rewrite H1, Hid; reflexivity|].
    split; [rewrite H3, (state_tickSignal st d s Hp); reflexivity|].
    split; [exact H2|].
    split.
    { rewrite Hloc.
      pose proof (trackNextSignal_session M st) as Hsess. unfold session in Hsess.
      injection Hsess as _ _ _ _ _ ->. exact Hdist. }
    rewrite H4, H5, passed_tickSignal, Hp. simpl.
    destruct (crossingFires st d _); split; intros Hc; try discriminate Hc.
    + split; reflexivity.
    + intros ->. split; reflexivity.
  - destruct (trackNextSignal_idle st Et) as (H1 & H2 & H3 & _ & H5).
    repeat split; try assumption.
    rewrite H5. apply moveAmbulance_signals.
Qed.
End StatusPanel.

(** Twenty-one ticks into a drive on the shortest route the tick works with
    S2; the panel shows its id and its mode. *)
Lemma status_after_tick_witness :
  signalId (panel (driveTick sampleMath (driveAfter shortest 21))) = Some "S2"
  ∧ signalMode (panel (driveTick sampleMath (driveAfter shortest 21))) = NORMAL.
Proof.
  pose proof (status_after_tick sampleMath (driveAfter shortest 21) shortest) as H.
  destruct (tracked sampleMath _) as [[[i s] d]|] eqn:Et in H.
  - destruct H as (s' & Hs & Hid & Hmode & _);
      [vm_compute; reflexivity|vm_compute; reflexivity|vm_compute; lia|].
    rewrite Hid, Hmode.
    assert (i = 1) as -> by (vm_compute in Et; congruence).
    assert (signalRuntime (driveTick sampleMath (driveAfter shortest 21)) !! 1
            = Some s') as Hs' by exact Hs.
    clear Hs Hid Hmode Et. vm_compute in Hs'. injection Hs' as <-. split; reflexivity.
  - vm_compute in Et. discriminate Et.
Defined.

(** ** The event log *)

Lemma setSelectedRoute_eventLog (r : RouteId) (st : Sim) :
  eventLog (panel (setSelectedRoute r st)) = eventLog (panel st).
Proof. destruct st as [? ? ? [line|] ? ? ? ? ? ? []]; reflexivity. Qed.

Lemma resetBtn_click_eventLog (st : Sim) :
  eventLog (panel (resetBtn_click st)) = [LogSystemReset].
Proof. destruct st as [? ? ? ? ? ? [] ? ? ? []]; reflexivity. Qed.

Section EventLog.
Variable M : HostMath.

Lemma startEmergencyDrive_eventLog (st : Sim) (r : RouteId) :
  selectedRouteId st = Some r → isDriving st = false →
  eventLog (panel (startEmergencyDrive M st))
  = [LogSelectedRoute (Route.name (ROUTES r)); LogDriveStarted]
  ∧ emergencyMode (startEmergencyDrive M st) = true.
Proof.
  destruct st as [? ? ? ? ? ? [] ? ? ? []]; simpl; intros -> ->; split; reflexivity.
Qed.

Lemma driveTick_eventLog (st : Sim) :
  ∃ id a o c,
    eventLog (panel (driveTick M st))
    = (if c : bool then [LogCrossed id] else [])
      ++ (if o : bool then [LogOverrideOn id] else [])
      ++ (if a : bool then [LogDetection id] else [])
      ++ eventLog (panel st).
Proof.
  destruct (driveTick_cases M st) as [-> | [-> | (r & Hr & Hd & Hi & ->)]].
  - exists EmptyString, false, false, false. reflexivity.
  - exists EmptyString, false, false, false.
    unfold stopDriveTimer. destruct (driveTimer st); reflexivity.
  - set (st1 := moveAmbulance (Route.coords (ROUTES r)) st).
    assert (panel st1 = panel st) as Hp by apply moveAmbulance_panel.
    destruct (tracked M st1) as [[[i s] d]|] eqn:Et.
    + rewrite (trackNextSignal_panel M st1 i s d Et), tickPanel_log, Hp.
      unfold tickEvents. cbv zeta.
      exists (Signal.id s), (advanceFires d (observeMin d s)),
        (overrideFires d (advanceSignal d (observeMin d s))),
        (crossingFires st1 d (overrideSignal d (advanceSignal d (observeMin d s)))).
      rewrite <- !app_assoc. reflexivity.
    + destruct (trackNextSignal_idle M st1 Et) as (_ & _ & _ & Hl & _).
      exists EmptyString, false, false, false. rewrite Hl, Hp. reflexivity.
Qed.

(** X11. The event log only grows at its head, except when a drive is
    started or a reset is made: a tick adds at most three entries, all
    about the signal it works with, the detection before the start of the
    override before the crossing (the latest entry first); a suggestion, a
    route pick and the emergency switch add nothing. A reset leaves the one
    entry of the reset, and the start of a drive the two entries of the
    start and of the selected route. *)
Theorem event_log_grows (st : Sim) :
  (∀ e, restarts e = false →
     ∃ id a o c,
       eventLog (panel (step M st e))
       = (if c : bool then [LogCrossed id] else [])
         ++ (if o : bool then [LogOverrideOn id] else [])
         ++ (if a : bool then [LogDetection id] else [])
         ++ eventLog (panel st)
       ∧ (e ≠ TimerTick → a = false ∧ o = false ∧ c = false))
  ∧ eventLog (panel (step M st ResetClick)) = [LogSystemReset]
  ∧ (∀ r, selectedRouteId st = Some r → isDriving st = false →
       eventLog (panel (step M st StartClick))
       = [LogSelectedRoute (Route.name (ROUTES r)); LogDriveStarted]).
Proof.
  split; [|split; [apply resetBtn_click_eventLog
                  |intros r Hr Hd; apply (startEmergencyDrive_eventLog st r Hr Hd)]].
  intros e He. destruct e; try discriminate He; simpl.
  - exists EmptyString, false, false, false. split; [|auto].
    unfold suggestRouteBtn_click. cbv zeta.
    rewrite buildRouteCards_unfold, setSelectedRoute_eventLog.
    destruct st as [? ? ? ? ? ? ? ? ? ? []]. reflexivity.
  - exists EmptyString, false, false, false. split; [|auto].
    destruct (cardShown routeId st); [apply setSelectedRoute_eventLog|reflexivity].
  - exists EmptyString, false, false, false. split; [|auto].
    destruct st as [? ? ? ? ? ? ? ? ? ? []]. reflexivity.
  - destruct (driveTimer st).
    + destruct (driveTick_eventLog st) as (id & a & o & c & H).
      exists id, a, o, c. split; [exact H|congruence].
    + exists EmptyString, false, false, false. split; [reflexivity|congruence].
Qed.
End EventLog.

(** ** The override of a signal starts once in a drive *)

Lemma take_new_entries (new old : list LogEvent) :
  take (length (new ++ old) - length old) (new ++ old) = new.
Proof.
  rewrite length_app.
  replace (length new + length old - length old) with (length new) by lia.
  apply take_app_length.
Qed.

(** Among the entries of a tick, the one of the override start. *)
Lemma count_tickEvents (st : Sim) (d : number) (s : Signal.t) (id : string) :
  length (List.filter (isOverrideOn id) (tickEvents st d s))
  = if overrideFires d (advanceSignal d (observeMin d s)) && String.eqb (Signal.id s) id
    then 1 else 0.
Proof.
  unfold tickEvents. cbv zeta.
  destruct (crossingFires st d _), (overrideFires d _), (advanceFires d _); simpl;
    try reflexivity; destruct (String.eqb (Signal.id s) id); reflexivity.
Qed.

Section OverrideOnce.
Variable M : HostMath.

(** An event that does not restart leaves the signals and the log as they
    are, or is a tick that works with one signal and logs its entries. *)
Lemma step_effect (st : Sim) (e : Event) :
  restarts e = false →
  (signalRuntime (step M st e) = signalRuntime st
   ∧ eventLog (panel (step M st e)) = eventLog (panel st))
  ∨ ∃ st1 j s d,
      tracked M st1 = Some (j, s, d)
      ∧ signalRuntime st1 = signalRuntime st
      ∧ signalRuntime (step M st e) = alter (tickSignal st1 d) j (signalRuntime st)
      ∧ eventLog (panel (step M st e)) = tickEvents st1 d s ++ eventLog (panel st).
Proof.
  intros He. destruct e; try discriminate He; simpl.
  - left. unfold suggestRouteBtn_click. cbv zeta.
    rewrite buildRouteCards_signals, buildRouteCards_unfold, setSelectedRoute_eventLog.
    destruct st as [? ? ? ? ? ? ? ? ? ? []]. split; reflexivity.
  - left. destruct (cardShown routeId st); [|split; reflexivity].
    rewrite setSelectedRoute_eventLog. split; reflexivity.
  - left. destruct st as [? ? ? ? ? ? ? ? ? ? []]. split; reflexivity.
  - destruct (driveTimer st) eqn:Etimer; [|left; split; reflexivity].
    destruct (driveTick_cases M st) as [-> | [-> | (r & Hr & Hd & Hi & ->)]].
    + left. split; reflexivity.
    + left. unfold stopDriveTimer. rewrite Etimer. split; reflexivity.
    + set (st1 := moveAmbulance (Route.coords (ROUTES r)) st).
      assert (panel st1 = panel st) as Hp by apply moveAmbulance_panel.
      assert (signalRuntime st1 = signalRuntime st) as Hs by apply moveAmbulance_signals.
      destruct (tracked M st1) as [[[j s] d]|] eqn:Et.
      * right. exists st1, j, s, d. split; [exact Et|]. split; [exact Hs|].
        rewrite trackNextSignal_signals, Et, Hs.
        rewrite (trackNextSignal_log M st1 j s d Et), Hp. split; reflexivity.
      * left. destruct (trackNextSignal_idle M st1 Et) as (_ & _ & _ & Hl & Hsig).
        rewrite Hl, Hsig, Hp, Hs. split; reflexivity.
Qed.

(** The signals of a page keep the three different ids of [SIGNAL_DEFS]. *)
Lemma signal_ids_distinct (st : Sim) (i j : nat) (a b : Signal.t) :
  reachable M st →
  signalRuntime st !! i = Some a → signalRuntime st !! j = Some b →
  Signal.id a = Signal.id b → i = j.
Proof.
  intros Hreach Ha Hb Hid.
  destruct (reachable_records M st Hreach) as [Hdefs _].
  assert (SIGNAL_DEFS.*1 !! i = Some (Signal.id a)) as Hi.
  { rewrite <- Hdefs, <- list_fmap_compose, list_lookup_fmap, Ha. reflexivity. }
  assert (SIGNAL_DEFS.*1 !! j = Some (Signal.id a)) as Hj.
  { rewrite Hid, <- Hdefs, <- list_fmap_compose, list_lookup_fmap, Hb. reflexivity. }
  unfold SIGNAL_DEFS in Hi, Hj.
  destruct i as [|[|[|i]]], j as [|[|[|j]]]; simpl in Hi, Hj;
    try reflexivity; try discriminate Hi; try discriminate Hj;
    rewrite <- Hi in Hj; discriminate Hj.
Qed.

(** What a step that does not restart does to a signal that is neither in
    override nor passed: nothing that starts its override, or it starts
    the override once and leaves the signal in override or passed. *)
Lemma override_unsettled_step (st : Sim) (e : Event) (i : nat) :
  reachable M st → restarts e = false →
  overrideFlag st i = false → passedFlag st i = false →
  (overrideStartsAt M st e i = 0
   ∧ overrideFlag (step M st e) i = false ∧ passedFlag (step M st e) i = false)
  ∨ (overrideStartsAt M st e i = 1
     ∧ (overrideFlag (step M st e) i = true ∨ passedFlag (step M st e) i = true)).
Proof.
  intros Hreach He Ho Hp. unfold overrideStartsAt, newEntries.
  destruct (step_effect st e He)
    as [[Hsig Hlog] | (st1 & j & s & d & Ht & Hs1 & Hsig & Hlog)].
  - left. unfold overrideFlag, passedFlag in *. rewrite Hsig, Hlog, Nat.sub_diag.
    split; [destruct (signalRuntime st !! i); reflexivity|]. auto.
  - rewrite Hlog, take_new_entries.
    apply tracked_inv in Ht as (_ & Hj & _ & Hps). rewrite Hs1 in Hj.
    unfold overrideFlag, passedFlag in *. rewrite Hsig, list_lookup_alter.
    destruct (decide (j = i)) as [->|Hne].
    + rewrite Hj in *. simpl in *.
      rewrite count_tickEvents, String.eqb_refl, andb_true_r.
      rewrite (overrideActive_tickSignal st1 d s Hps), passed_tickSignal, Hps, Ho.
      destruct (advanceSignal_fields d (observeMin d s)) as (Ho2 & _).
      destruct (observeMin_fields d s) as (Ho1 & _).
      unfold overrideFires. rewrite Ho2, Ho1, Ho. simpl.
      destruct (d <=? OVERRIDE_START_KM)%float eqn:Ed.
      * right. split; [reflexivity|].
        destruct (crossingFires st1 d _); auto.
      * left. split; [reflexivity|].
        destruct (crossingFires st1 d _) eqn:Ec; [|auto].
        apply crossingFires_override in Ec.
        destruct (before_crossing_fields d s) as (Ho3 & _).
        rewrite Ho3, Ho in Ec. simpl in Ec.
        change (0.40)%float with OVERRIDE_START_KM in Ec. congruence.
    + left. split; [|auto].
      destruct (signalRuntime st !! i) as [a|] eqn:Hi; [|reflexivity].
      rewrite count_tickEvents.
      destruct (String.eqb_spec (Signal.id s) (Signal.id a)) as [Hid|_];
        [|rewrite andb_false_r; reflexivity].
      destruct Hne. apply (signal_ids_distinct st j i s a Hreach Hj Hi Hid).
Qed.

(** A signal in override or passed stays so, and its override is not
    started again, as long as no drive is started and no reset is made. *)
Lemma override_settled_step (st : Sim) (e : Event) (i : nat) :
  reachable M st → restarts e = false →
  overrideFlag st i = true ∨ passedFlag st i = true →
  (overrideFlag (step M st e) i = true ∨ passedFlag (step M st e) i = true)
  ∧ overrideStartsAt M st e i = 0.
Proof.
  intros Hreach He H. unfold overrideStartsAt, newEntries.
  destruct (step_effect st e He)
    as [[Hsig Hlog] | (st1 & j & s & d & Ht & Hs1 & Hsig & Hlog)].
  - unfold overrideFlag, passedFlag in *. rewrite Hsig, Hlog, Nat.sub_diag.
    split; [exact H|]. destruct (signalRuntime st !! i); reflexivity.
  - rewrite Hlog, take_new_entries.
    apply tracked_inv in Ht as (_ & Hj & _ & Hps). rewrite Hs1 in Hj.
    unfold overrideFlag, passedFlag in *. rewrite Hsig, list_lookup_alter.
    destruct (decide (j = i)) as [->|Hne].
    + rewrite Hj in *. simpl in *.
      destruct H as [Ho|Hp]; [|congruence].
      rewrite count_tickEvents.
      rewrite (overrideActive_tickSignal st1 d s Hps), passed_tickSignal, Hps, Ho.
      destruct (advanceSignal_fields d (observeMin d s)) as (Ho2 & _).
      destruct (observeMin_fields d s) as (Ho1 & _).
      unfold overrideFires. rewrite Ho2, Ho1, Ho. simpl.
      split; [|reflexivity]. destruct (crossingFires st1 d _); auto.
    + split; [exact H|].
      destruct (signalRuntime st !! i) as [a|] eqn:Hi; [|reflexivity].
      rewrite count_tickEvents.
      destruct (String.eqb_spec (Signal.id s) (Signal.id a)) as [Hid|_];
        [|rewrite andb_false_r; reflexivity].
      destruct Hne. apply (signal_ids_distinct st j i s a Hreach Hj Hi Hid).
Qed.

Lemma overrideStarts_settled (st : Sim) (es : list Event) (i : nat) :
  reachable M st → Forall (λ e, restarts e = false) es →
  overrideFlag st i = true ∨ passedFlag st i = true →
  overrideStarts M st es i = 0
  ∧ (overrideFlag (run M st es) i = true ∨ passedFlag (run M st es) i = true).
Proof.
  intros Hreach Hes. revert st Hreach.
  induction Hes as [|e es He _ IH]; intros st Hreach H; [split; [reflexivity|exact H]|].
  destruct (override_settled_step st e i Hreach He H) as [H' Hno].
  simpl. rewrite Hno. apply IH; [apply reachable_step, Hreach|exact H'].
Qed.

Lemma overrideStarts_unsettled (st : Sim) (es : list Event) (i : nat) :
  reachable M st → Forall (λ e, restarts e = false) es →
  overrideFlag st i = false → passedFlag st i = false →
  overrideStarts M st es i ≤ 1
  ∧ (overrideFlag (run M st es) i = true → overrideStarts M st es i = 1).
Proof.
  intros Hreach Hes. revert st Hreach.
  induction Hes as [|e es He Hes IH]; intros st Hreach Ho Hp.
  - split; [simpl; lia|]. simpl. congruence.
  - change (run M st (e :: es)) with (run M (step M st e) es). simpl.
    pose proof (reachable_step M st e Hreach) as Hreach'.
    destruct (override_unsettled_step st e i Hreach He Ho Hp)
      as [(-> & Ho' & Hp') | (-> & Hset)].
    + apply (IH _ Hreach' Ho' Hp').
    + destruct (overrideStarts_settled _ es i Hreach' Hes Hset) as [-> _].
      split; [lia|reflexivity].
Qed.

(** X8. In a run without a restart (no drive started, no reset: one drive)
    the override of a signal is turned on at most once, counting every
    tick that turns it on, also one that marks the signal passed at once;
    it is never turned on for a signal that is passed or already in
    override; and a signal found in override at the end of the run that
    was not in override at its beginning has been turned on exactly
    once. *)
Theorem override_once (st : Sim) (es : list Event) (i : nat) :
  reachable M st → Forall (λ e, restarts e = false) es →
  overrideStarts M st es i ≤ 1
  ∧ (overrideFlag st i = true ∨ passedFlag st i = true → overrideStarts M st es i = 0)
  ∧ (overrideFlag st i = false → overrideFlag (run M st es) i = true →
     overrideStarts M st es i = 1).
Proof.
  intros Hreach Hes.
  destruct (overrideFlag st i) eqn:Ho.
  - destruct (overrideStarts_settled st es i Hreach Hes) as [H0 _]; [auto|].
    rewrite H0. split; [lia|]. split; [reflexivity|discriminate].
  - destruct (passedFlag st i) eqn:Hp.
    + destruct (overrideStarts_settled st es i Hreach Hes) as [H0 _]; [auto|].
      rewrite H0. split; [lia|]. split; [reflexivity|].
      intros _ Hend. exfalso.
      assert (signalRuntime (run M st es) !! i = signalRuntime st !! i) as Hsame.
      { clear Hreach H0 Ho Hend. revert st Hp.
        induction Hes as [|e es He _ IH]; intros st Hp; [reflexivity|].
        pose proof (passed_frozen M st e i He Hp) as Hstep.
        change (run M st (e :: es)) with (run M (step M st e) es).
        rewrite IH; [exact Hstep|]. unfold passedFlag in *. rewrite Hstep. exact Hp. }
      unfold overrideFlag in *. rewrite Hsame in Hend. congruence.
    + destruct (overrideStarts_unsettled st es i Hreach Hes Ho Hp) as [H1 H2].
      split; [exact H1|]. split; [intros [H|H]; discriminate H|].
      intros _. exact H2.
Qed.
End OverrideOnce.

(** On the shortest route the override of S1 starts once in the first forty
    ticks. A tick can turn an override on and mark the signal passed at
    once: the next tick of [startAndCross] does so for S2, and it is
    counted. *)
Lemma override_once_witness :
  overrideStarts sampleMath (driveAfter shortest 0) (replicate 40 TimerTick) 0 = 1
  ∧ overrideStarts sampleMath (driveAfter shortest 0) (replicate 40 TimerTick) 0 ≤ 1
  ∧ overrideFlag startAndCross 1 = false
  ∧ overrideFlag (step sampleMath startAndCross TimerTick) 1 = false
  ∧ passedFlag (step sampleMath startAndCross TimerTick) 1 = true
  ∧ overrideStarts sampleMath startAndCross [TimerTick] 1 = 1.
Proof.
  split; [vm_compute; reflexivity|]. split.
  - apply (override_once sampleMath (driveAfter shortest 0) (replicate 40 TimerTick) 0).
    + apply driveAfter_reachable.
    + apply Forall_replicate. reflexivity.
  - repeat split; vm_compute; reflexivity.
Defined.

(** ** The length of a drive *)

Lemma replicate_snoc {A} (n : nat) (x : A) : replicate (S n) x = replicate n x ++ [x].
Proof. induction n as [|n IH]; [reflexivity|]. simpl in *. rewrite <- IH. reflexivity. Qed.

Section DriveLength.
Variable M : HostMath.

Lemma session_driveTick (st : Sim) : session (driveTick M st) = tickSession (session st).
Proof.
  unfold session at 2. unfold tickSession.
  destruct (selectedRouteId st) as [r|] eqn:Hr;
    [|unfold driveTick; rewrite Hr; unfold session; rewrite Hr; reflexivity].
  destruct (isDriving st) eqn:Hd; simpl negb; cbv iota;
    [|rewrite (driveTick_not_driving M st Hd); unfold session; rewrite Hr, Hd; reflexivity].
  destruct (Nat.leb_spec (lastIndex r) (currentIndex st)) as [Hi|Hi].
  - destruct (driveTick_stops M st r Hr Hd Hi) as (H1 & H2 & H3 & H4 & H5 & _ & H7).
    unfold session. rewrite H1, H2, H3, H4, H5, H7, Hr. reflexivity.
  - rewrite (driveTick_session M st r Hr Hd Hi), moveAmbulance_session, Hr, Hd.
    reflexivity.
Qed.

Lemma session_timer (st : Sim) :
  session (step M st TimerTick) = timerSession (session st).
Proof.
  simpl step. unfold timerSession.
  change ((session st).1.1.1.2) with (driveTimer st).
  destruct (driveTimer st); [apply session_driveTick|reflexivity].
Qed.

Lemma session_ticks (n : nat) (st : Sim) :
  session (run M st (replicate n TimerTick)) = Nat.iter n timerSession (session st).
Proof.
  induction n as [|n IH]; [reflexivity|].
  rewrite replicate_snoc, run_snoc, session_timer, IH. reflexivity.
Qed.

Lemma startEmergencyDrive_session (st : Sim) (r : RouteId) :
  selectedRouteId st = Some r → isDriving st = false →
  session (startEmergencyDrive M st) = startSession r.
Proof.
  intros Hr Hd.
  destruct (startEmergencyDrive_started M st r Hr Hd)
    as (H1 & H2 & H3 & H4 & H5 & _ & H7 & _).
  unfold session, startSession. rewrite H1, H2, H3, H4, H5, H7. reflexivity.
Qed.
End DriveLength.

(** The session of a drive on each route, by evaluation: running for the
    first [driveTicks r - 1] ticks, stopped at the next one with the index at
    the last waypoint and the marker at the one before. *)
Lemma startSession_runs (r : RouteId) :
  forallb (λ n, sessionDriving (Nat.iter n timerSession (startSession r)))
    (seq 0 (driveTicks r)) = true
  ∧ Nat.iter (driveTicks r) timerSession (startSession r)
    = (Some r, false, false, lastIndex r, 0%float,
       coordAt (Route.coords (ROUTES r)) (lastIndex r - 1)).
Proof. destruct r; split; vm_compute; reflexivity. Qed.

(** X12. A drive started on a route of [n] waypoints runs for
    [21 * (n - 1)] ticks, 21 for every segment, whatever the signals and the
    host's functions do, and the next tick stops it: the timer is cleared,
    the driving flag is false and the waypoint index is the last one. The
    marker then stands at the last waypoint but one, where the last advance
    of the index put it, and further ticks change nothing. *)
Theorem drive_ends (M : HostMath) (st : Sim) (r : RouteId) :
  selectedRouteId st = Some r → isDriving st = false →
  (∀ n, n < driveTicks r →
        isDriving (run M (startEmergencyDrive M st) (replicate n TimerTick)) = true)
  ∧ isDriving (run M (startEmergencyDrive M st) (replicate (driveTicks r) TimerTick)) = false
  ∧ driveTimer (run M (startEmergencyDrive M st) (replicate (driveTicks r) TimerTick)) = false
  ∧ currentIndex (run M (startEmergencyDrive M st) (replicate (driveTicks r) TimerTick))
    = lastIndex r
  ∧ ambulanceMarker (run M (startEmergencyDrive M st) (replicate (driveTicks r) TimerTick))
    = coordAt (Route.coords (ROUTES r)) (lastIndex r - 1)
  ∧ (∀ n, run M (startEmergencyDrive M st) (replicate (driveTicks r + n) TimerTick)
          = run M (startEmergencyDrive M st) (replicate (driveTicks r) TimerTick)).
Proof.
  intros Hr Hd.
  pose proof (startEmergencyDrive_session M st r Hr Hd) as Hs0.
  destruct (startSession_runs r) as [Hrun Hend].
  assert (∀ n, session (run M (startEmergencyDrive M st) (replicate n TimerTick))
               = Nat.iter n timerSession (startSession r)) as Hsess
    by (intros n; rewrite session_ticks, Hs0; reflexivity).
  specialize (Hsess (driveTicks r)) as Hlast. rewrite Hend in Hlast.
  unfold session in Hlast. injection Hlast as _ H1 H2 H3 _ H5.
  split.
  { intros n Hn. rewrite forallb_forall in Hrun.
    specialize (Hrun n). rewrite <- Hsess in Hrun. apply Hrun.
    apply in_seq. lia. }
  repeat (split; [assumption|]).
  intros n. rewrite replicate_add. unfold run at 1. rewrite foldl_app.
  apply (ticks_without_timer M), H2.
Qed.

Lemma drive_ends_witness :
  isDriving (run sampleMath (driveAfter shortest 0) (replicate 84 TimerTick)) = true
  ∧ isDriving (run sampleMath (driveAfter shortest 0) (replicate 85 TimerTick)) = false
  ∧ currentIndex (run sampleMath (driveAfter shortest 0) (replicate 85 TimerTick)) = 4.
Proof.
  assert (driveAfter shortest 0
          = startEmergencyDrive sampleMath
              (run sampleMath (loadedState sampleMath "central" 9) [PickRoute shortest]))
    as -> by reflexivity.
  destruct (drive_ends sampleMath
              (run sampleMath (loadedState sampleMath "central" 9) [PickRoute shortest])
              shortest) as (H1 & H2 & _ & H4 & _);
    [vm_compute; reflexivity|vm_compute; reflexivity|].
  split; [apply (H1 84); vm_compute; lia|]. split; [exact H2|exact H4].
Defined.

(** ** What a tick leaves alone, and what every state of the page satisfies *)

Lemma updSignal_selection (i : nat) (f : Signal.t → Signal.t) (st : Sim) :
  selection (updSignal i f st) = selection st.
Proof. reflexivity. Qed.

Lemma setRouteHighlight_selection (on : bool) (st : Sim) :
  selection (setRouteHighlight on st) = selection st.
Proof. destruct st as [? ? ? [line|] ? ? ? ? ? ? ?]; reflexivity. Qed.

Lemma setSignalStateFor_selection (i : nat) (m : SignalState) (st : Sim) :
  selection (setSignalStateFor i m st) = selection st.
Proof.
  unfold setSignalStateFor. destruct (signalRuntime st !! i); [|reflexivity].
  destruct st as [? ? ? ? ? ? ? ? ? ? []]. reflexivity.
Qed.

Lemma logEvent_selection (e : LogEvent) (st : Sim) :
  selection (logEvent e st) = selection st.
Proof. destruct st as [? ? ? ? ? ? ? ? ? ? []]. reflexivity. Qed.

Lemma indicators_selection (a b : bool) (st : Sim) :
  selection (setAdvanceDetection a (setAutoControl b st)) = selection st
  ∧ selection (setAutoControl b (setAdvanceDetection a st)) = selection st.
Proof. destruct st as [? ? ? ? ? ? ? ? ? ? []]. split; reflexivity. Qed.

Lemma crossSignal_selection (i : nat) (s : Signal.t) (st : Sim) :
  selection (crossSignal i s st) = selection st.
Proof.
  unfold crossSignal. cbv zeta.
  rewrite logEvent_selection, setRouteHighlight_selection.
  rewrite (proj1 (indicators_selection false false _)).
  rewrite setSignalStateFor_selection. reflexivity.
Qed.

Lemma handleAdvanceDetectionFor_selection (i : nat) (d : number) (st : Sim) :
  selection (handleAdvanceDetectionFor i d st) = selection st.
Proof.
  unfold handleAdvanceDetectionFor. destruct (signalRuntime st !! i) as [s|]; [|reflexivity].
  destruct (Signal.advanceTriggered s); [reflexivity|].
  destruct (d <=? ADVANCE_DETECTION_KM)%float; [|reflexivity].
  cbv zeta. rewrite logEvent_selection, setRouteHighlight_selection.
  rewrite (proj2 (indicators_selection true true _)). reflexivity.
Qed.

Lemma handleSignalOverrideFor_selection (i : nat) (d : number) (st : Sim) :
  selection (handleSignalOverrideFor i d st) = selection st.
Proof.
  unfold handleSignalOverrideFor. destruct (signalRuntime st !! i) as [s|]; [|reflexivity].
  destruct (negb (Signal.overrideActive s) && (d <=? OVERRIDE_START_KM)%float);
    [|reflexivity].
  cbv zeta. rewrite logEvent_selection, setSignalStateFor_selection. reflexivity.
Qed.

Lemma handleAfterCrossingFor_selection (i : nat) (d : number) (st : Sim) :
  selection (handleAfterCrossingFor i d st) = selection st.
Proof.
  unfold handleAfterCrossingFor. destruct (signalRuntime st !! i) as [s|]; [|reflexivity].
  destruct (Signal.passed s); [reflexivity|].
  destruct (Signal.lastDistance s) as [l|]; [|reflexivity].
  destruct (Signal.overrideActive s && closeEnough s
            && (movingAwayFromMin s d || passedIndex s st)).
  - cbv zeta. rewrite updSignal_selection. apply crossSignal_selection.
  - cbv zeta. rewrite updSignal_selection.
    destruct (Signal.overrideActive s && (l <=? OVERRIDE_START_KM)%float
              && (l <? d)%float && (OVERRIDE_END_KM <=? d)%float);
      [apply crossSignal_selection|reflexivity].
Qed.

Section TickFrame.
Variable M : HostMath.

Lemma trackNextSignal_selection (st : Sim) :
  selection (trackNextSignal M st) = selection st.
Proof.
  unfold trackNextSignal. cbv zeta.
  destruct (getNextSignal st) as [i|];
    [|destruct st as [? ? ? ? ? ? ? ? ? ? []]; reflexivity].
  destruct (signalRuntime st !! i) as [s|]; [|reflexivity].
  rewrite handleAfterCrossingFor_selection, handleSignalOverrideFor_selection,
    handleAdvanceDetectionFor_selection.
  destruct st as [? ? ? ? ? ? ? ? ? ? []]. case_match; reflexivity.
Qed.

Lemma moveAmbulance_selection (coords : list LatLng) (st : Sim) :
  selection (moveAmbulance coords st) = selection st.
Proof. unfold moveAmbulance. cbv zeta. case_match; reflexivity. Qed.

Lemma driveTick_selection (st : Sim) : selection (driveTick M st) = selection st.
Proof.
  destruct (driveTick_cases M st) as [-> | [-> | (r & Hr & Hd & Hi & ->)]].
  - reflexivity.
  - unfold stopDriveTimer. destruct (driveTimer st); reflexivity.
  - rewrite trackNextSignal_selection. apply moveAmbulance_selection.
Qed.

(** X13. A tick never changes what the user has chosen or been told: the
    selected route, the coordinates of the line drawn for it, the emergency
    switch, the prediction, the route cards, the state of the start button
    and the alerts are after every tick what they were before. *)
Theorem tick_keeps_selection (st : Sim) :
  selection (driveTick M st) = selection st
  ∧ selection (step M st TimerTick) = selection st.
Proof.
  split; [apply driveTick_selection|].
  simpl. destruct (driveTimer st); [apply driveTick_selection|reflexivity].
Qed.
End TickFrame.

Section PageInvariants.
Variable M : HostMath.

Lemma driveTick_indicators (st : Sim) :
  advanceDetection (panel st) = autoControl (panel st) →
  advanceDetection (panel (driveTick M st)) = autoControl (panel (driveTick M st)).
Proof.
  intros H.
  destruct (driveTick_cases M st) as [-> | [-> | (r & Hr & Hd & Hi & ->)]].
  - exact H.
  - unfold stopDriveTimer. destruct (driveTimer st); exact H.
  - set (st1 := moveAmbulance (Route.coords (ROUTES r)) st).
    assert (panel st1 = panel st) as Hp by apply moveAmbulance_panel.
    destruct (tracked M st1) as [[[i s] d]|] eqn:Et.
    + rewrite (trackNextSignal_panel M st1 i s d Et).
      destruct (tickPanel_status st1 d s (panel st1)) as (_ & _ & _ & H4 & H5).
      rewrite H4, H5, Hp, H. reflexivity.
    + unfold tracked in Et. unfold trackNextSignal. cbv zeta.
      destruct (getNextSignal st1) as [i|] eqn:Eg.
      * apply getNextSignal_candidate in Eg as (n & s & Hs & _).
        rewrite Hs in Et. discriminate.
      * rewrite <- Hp in H. clearbody st1. clear Hp.
        destruct st1 as [? ? ? ? ? ? ? ? ? ? []]. exact H.
Qed.

Lemma pageOk_tick (st : Sim) : pageOk st → pageOk (driveTick M st).
Proof.
  intros (Ht & Ha & Hg & Hsel).
  pose proof (session_driveTick M st) as Hs.
  pose proof (driveTick_selection M st) as Hk.
  pose proof (driveTick_indicators st Ha) as Ha'.
  unfold selection in Hk. injection Hk as _ Hline _ _ Hroutes Hbtn _.
  unfold session, tickSession in Hs.
  unfold pageOk. rewrite Hline, Hroutes, Hbtn.
  destruct (selectedRouteId st) as [r|] eqn:Hr.
  - destruct (isDriving st) eqn:Hd; simpl in Hs.
    + destruct (lastIndex r <=? currentIndex st)%nat;
        injection Hs as -> -> -> _ -> _.
      * repeat split; first [assumption | apply Hsel].
      * repeat split; first [assumption | apply Hsel | apply onGrid_next, Hg].
    + injection Hs as -> -> -> _ -> _. repeat split; first [assumption | apply Hsel].
  - injection Hs as -> -> -> _ -> _. repeat split; first [assumption | apply Hsel].
Qed.

Lemma pageOk_select (r : RouteId) (st : Sim) :
  driveTimer st = isDriving st →
  advanceDetection (panel st) = autoControl (panel st) →
  onGrid (segmentProgress st) = true →
  Card.id <$> routes (panel st) = renderOrder →
  pageOk (setSelectedRoute r st).
Proof.
  destruct st as [? ? ? [line|] ? ? ? ? ? ? []]; simpl; intros; repeat split; assumption.
Qed.

Lemma pageOk_step (st : Sim) (e : Event) : pageOk st → pageOk (step M st e).
Proof.
  intros Hok. pose proof Hok as (Ht & Ha & Hg & Hsel).
  destruct e; simpl.
  - unfold suggestRouteBtn_click. cbv zeta. rewrite buildRouteCards_unfold.
    clear Hok Hsel. destruct st as [? ? ? ? ? ? ? ? ? ? []]. simpl in Ht, Ha, Hg.
    apply pageOk_select; [exact Ht|exact Ha|exact Hg|reflexivity].
  - destruct (cardShown routeId st) eqn:Ec; [|exact Hok].
    apply pageOk_select; try assumption.
    destruct (selectedRouteId st); [apply Hsel|].
    destruct Hsel as (_ & _ & _ & Hroutes).
    unfold cardShown in Ec. rewrite Hroutes in Ec. discriminate.
  - destruct (selectedRouteId st) as [r|] eqn:Hr.
    + destruct (isDriving st) eqn:Hd.
      * rewrite startEmergencyDrive_driving; [exact Hok|exact Hd|congruence].
      * clear Hok. revert Ht Ha Hg Hsel Hr Hd. unfold pageOk.
        destruct st as [? ? ? [line|] ? ? [] ? ? ? []]; simpl;
          intros; subst; simpl in *; repeat split; tauto.
    + rewrite (startEmergencyDrive_no_route M st Hr).
      clear Hok. revert Ht Ha Hg Hsel Hr. unfold pageOk.
      destruct st as [? ? ? ? ? ? ? ? ? ? []]; simpl. intros. subst.
      repeat split; tauto.
  - destruct st as [? ? ? ? ? ? [] ? ? ? []]; repeat split.
  - clear Hok. revert Ht Ha Hg Hsel. unfold pageOk.
    destruct st as [? ? ? ? ? ? ? ? ? ? []]; simpl. tauto.
  - destruct (driveTimer st); [apply pageOk_tick, Hok|exact Hok].
Qed.

Lemma pageOk_loaded (accidentKey : string) (hour : Z) :
  pageOk (loadedState M accidentKey hour).
Proof.
  unfold loadedState, suggestRouteBtn_click. cbv zeta. rewrite buildRouteCards_unfold.
  apply pageOk_select; reflexivity.
Qed.

(** X14. In every state the page can reach: the timer is registered exactly
    while a drive is running; the advance-detection and auto-control
    indicators agree; the segment progress is in [0, 1); with no route
    selected no drive is running, no line is drawn, no card is shown and the
    start button is disabled; with a route selected its polyline is the one
    drawn, the three cards are shown and the start button is enabled. *)
Theorem page_consistent (st : Sim) :
  reachable M st →
  pageOk st
  ∧ (0 <=? segmentProgress st)%float = true ∧ (segmentProgress st <? 1)%float = true.
Proof.
  intros Hr.
  assert (pageOk st) as Hok.
  { revert st Hr. apply reachable_ind; [apply pageOk_loaded|].
    intros st e _ IH. apply pageOk_step, IH. }
  split; [exact Hok|]. apply onGrid_bounds, Hok.
Qed.
End PageInvariants.

Lemma page_consistent_witness :
  pageOk (driveAfter fastest 50)
  ∧ (0 <=? segmentProgress (driveAfter fastest 50))%float = true
  ∧ (segmentProgress (driveAfter fastest 50) <? 1)%float = true.
Proof. apply (page_consistent sampleMath), driveAfter_reachable. Defined.

(** ** Distances recorded for a signal *)

Lemma minDistance_tickSignal (st : Sim) (d : number) (s : Signal.t) :
  Signal.minDistance (tickSignal st d s)
  = if (d <? Signal.minDistance s)%float then d else Signal.minDistance s.
Proof.
  unfold tickSignal, crossingSignal, crossedSignal, overrideSignal, advanceSignal, observeMin.
  destruct (d <? Signal.minDistance s)%float; repeat case_match; reflexivity.
Qed.

Section Distances.
Variable M : HostMath.

(** X15. Between restarts the minimum distance of a signal never grows, and
    a tick that measures the distance [d] to the signal it works with
    leaves [d] as the last distance and the smaller of [d] and the old
    minimum as the minimum. *)
Theorem minDistance_decreases (st : Sim) (e : Event) :
  restarts e = false →
  (∀ i s s', signalRuntime st !! i = Some s →
             signalRuntime (step M st e) !! i = Some s' →
             (Signal.minDistance s <? Signal.minDistance s')%float = false)
  ∧ (∀ st' i s d,
       tracked M st' = Some (i, s, d) →
       ∃ s', signalRuntime (trackNextSignal M st') !! i = Some s'
             ∧ Signal.lastDistance s' = Some d
             ∧ Signal.minDistance s'
               = (if (d <? Signal.minDistance s)%float then d else Signal.minDistance s)
             ∧ (d <? Signal.minDistance s')%float = false).
Proof.
  intros He. split.
  - intros i s s' Hs Hs'.
    destruct (step_signals M st e)
      as [E | [(Hr & _) | (_ & st' & j & x & d & Ht & Hsig & E)]];
      [|congruence|]; rewrite E in Hs'.
    + rewrite Hs in Hs'. injection Hs' as <-. apply FloatOrder.ltb_irrefl.
    + rewrite list_lookup_alter in Hs'. destruct (decide (j = i)) as [->|_].
      * rewrite Hs in Hs'. simpl in Hs'. injection Hs' as <-.
        rewrite minDistance_tickSignal.
        destruct (d <? Signal.minDistance s)%float eqn:Ed.
        -- apply FloatOrder.ltb_asym, Ed.
        -- apply FloatOrder.ltb_irrefl.
      * rewrite Hs in Hs'. injection Hs' as <-. apply FloatOrder.ltb_irrefl.
  - intros st' i s d Ht. exists (tickSignal st' d s).
    pose proof (tracked_inv M st' i s d Ht) as (_ & _ & _ & Hp).
    split; [apply trackNextSignal_lookup, Ht|].
    split; [apply lastDistance_tickSignal, Hp|].
    split; [apply minDistance_tickSignal|].
    rewrite minDistance_tickSignal.
    destruct (d <? Signal.minDistance s)%float eqn:Ed;
      [apply FloatOrder.ltb_irrefl|exact Ed].
Qed.
End Distances.

(** The minimum distance of S1 before and after the eleventh tick of a
    drive on the shortest route. *)
Lemma minDistance_decreases_witness :
  (Signal.minDistance (signalAt (driveAfter shortest 10) 0)
   <? Signal.minDistance (signalAt (step sampleMath (driveAfter shortest 10) TimerTick) 0))%float
  = false.
Proof.
  apply (proj1 (minDistance_decreases sampleMath (driveAfter shortest 10) TimerTick eq_refl) 0);
    vm_compute; reflexivity.
Defined.

(** ** The waypoint index of a running drive *)

Section DrivingBounds.
Variable M : HostMath.

Lemma drivingOk_step (st : Sim) (e : Event) :
  calm st e = true → pageOk st → drivingOk st → drivingOk (step M st e).
Proof.
  intros Hc Hpage Hok. destruct e; simpl in *.
  - apply negb_true_iff in Hc. intros Hd. exfalso.
    unfold suggestRouteBtn_click in Hd. cbv zeta in Hd.
    rewrite buildRouteCards_unfold in Hd.
    destruct (setSelectedRoute_session fastest
                (withPanel (withRoutes [makeCard M (predictTrafficLevel accidentKey hour)
                                          (ROUTES fastest);
                                        makeCard M (predictTrafficLevel accidentKey hour)
                                          (ROUTES alternative);
                                        makeCard M (predictTrafficLevel accidentKey hour)
                                          (ROUTES shortest)])
                   (renderPrediction (predictTrafficLevel accidentKey hour) st)))
      as (_ & H2 & _).
    rewrite H2 in Hd. destruct st as [? ? ? ? ? ? ? ? ? ? []]. simpl in *. congruence.
  - apply negb_true_iff in Hc. destruct (cardShown routeId st); [|exact Hok].
    intros Hd. exfalso.
    destruct (setSelectedRoute_session routeId st) as (_ & H2 & _). congruence.
  - destruct (selectedRouteId st) as [r|] eqn:Hr.
    + destruct (isDriving st) eqn:Hd.
      * rewrite startEmergencyDrive_driving; [exact Hok|exact Hd|congruence].
      * destruct (startEmergencyDrive_started M st r Hr Hd) as (_ & _ & H3 & _ & H5 & _).
        intros _. exists r. rewrite H3, H5. split; [reflexivity|lia].
    + rewrite (startEmergencyDrive_no_route M st Hr).
      intros Hd. destruct Hpage as (_ & _ & _ & Hsel). rewrite Hr in Hsel.
      destruct st as [? ? ? ? ? ? ? ? ? ? []]. simpl in *. destruct Hsel. congruence.
  - intros Hd. destruct (resetBtn_click_session st) as (_ & H2 & _). congruence.
  - destruct st as [? ? ? ? ? ? ? ? ? ? []]. exact Hok.
  - destruct (driveTimer st); [|exact Hok].
    pose proof (session_driveTick M st) as Hs. unfold session, tickSession in Hs.
    intros Hd'. destruct (selectedRouteId st) as [r|] eqn:Hr.
    + destruct (isDriving st) eqn:Hd; simpl in Hs.
      * destruct (Nat.leb_spec (lastIndex r) (currentIndex st)) as [Hi|Hi];
          injection Hs as H1 H2 _ H4 _ _; [congruence|].
        exists r. rewrite H1, H4. split; [reflexivity|]. case_match; lia.
      * injection Hs as _ H2 _ _ _ _. congruence.
    + injection Hs as _ H2 _ _ _ _.
      destruct Hpage as (_ & _ & _ & Hsel). rewrite Hr in Hsel. destruct Hsel. congruence.
Qed.

Lemma drivingOk_run (es : list Event) : ∀ st,
  calmRun M st es = true → pageOk st → drivingOk st →
  drivingOk (run M st es).
Proof.
  induction es as [|e es IH]; intros st Hc Hpage Hok; [exact Hok|].
  simpl in Hc. apply andb_true_iff in Hc as [Hc1 Hc2].
  change (run M st (e :: es)) with (run M (step M st e) es).
  apply IH; [exact Hc2|apply pageOk_step, Hpage|apply drivingOk_step; assumption].
Qed.

(** X16. After loading, as long as no route is selected (by a suggestion or
    by a card) while a drive is running, a running drive always has a
    selected route and a waypoint index on that route: between 0 and the
    index of its last waypoint. *)
Theorem index_on_route (accidentKey : string) (hour : Z) (es : list Event) :
  calmRun M (loadedState M accidentKey hour) es = true →
  isDriving (run M (loadedState M accidentKey hour) es) = true →
  ∃ r, selectedRouteId (run M (loadedState M accidentKey hour) es) = Some r
       ∧ currentIndex (run M (loadedState M accidentKey hour) es) ≤ lastIndex r.
Proof.
  intros Hc. apply drivingOk_run; [exact Hc|apply pageOk_loaded|].
  intros Hd. exfalso. revert Hd.
  unfold loadedState, suggestRouteBtn_click. cbv zeta. rewrite buildRouteCards_unfold.
  rewrite (proj1 (proj2 (setSelectedRoute_session _ _))). discriminate.
Qed.
End DrivingBounds.

Lemma index_on_route_witness :
  ∃ r, selectedRouteId (driveAfter fastest 100) = Some r
       ∧ currentIndex (driveAfter fastest 100) ≤ lastIndex r.
Proof.
  apply (index_on_route sampleMath "central" 9
           ([PickRoute fastest; StartClick] ++ replicate 100 TimerTick));
    vm_compute; reflexivity.
Defined.
